(** * Vuex 3 store: module tree, registries and the commit/dispatch engine

    A shallow embedding of [src/util.js], [src/module/module.js],
    [src/module/module-collection.js] and of the engine of [src/store.js]
    ([commit], [dispatch], the subscription functions, [_withCommit],
    [makeLocalContext], [registerMutation], [registerAction],
    [unifyObjectStyle]), followed by the properties proved about them.

    - JavaScript values are the inductive type [Value].  A user function is
      a reference [FnRef]; two references are the same function when they
      are equal.  What a user function does when the engine calls it is the
      section variable [call]: any function from the store to a completion
      and a store.
    - Code that mutates an object and may throw is a computation [M S A]
      over the mutated object [S]: it yields a completion (a value or a
      thrown exception), the object as it was left, and the console lines
      and user-function calls the code made, in order.  An exception rolls
      nothing back: the object is the one at the moment of the throw.
    - A method call on a module object reached by walking the tree is the
      replacement of that node in the tree ([Mod.at_path], [Mod.on_child]).
    - The build-time constant [__DEV__], the binding of the identifier [w]
      in the global scope, [JSON.stringify], the string conversion of
      non-string values and the state factories are section variables.
    - The reactive view ([store._vm], getters) is outside the model;
      [state] stands for [this._vm._data.$$state]. *)

From stdpp Require Import gmap strings list pretty.

#[local] Set Warnings "-register-all".
#[local] Open Scope string_scope.
#[local] Open Scope list_scope.

(* ===================================================================== *)
(** ** JavaScript values, exceptions, observable events *)
(* ===================================================================== *)

(** A reference to a user function. *)
Definition FnRef := nat.

(** The eventual fate of a promise; [t] is the time of settlement, counted
    from the moment the promise is created. *)
Inductive Fate (V : Type) : Type :=
  | Pending
  | Fulfilled (t : nat) (v : V)
  | Rejected (t : nat) (e : V).
Arguments Pending {V}.
Arguments Fulfilled {V} t v.
Arguments Rejected {V} t e.

Inductive Value : Type :=
  | VUndef
  | VNull
  | VBool (b : bool)
  | VNum (z : Z)
  | VStr (s : string)
  | VFun (f : FnRef)
  | VArr (items : list Value)
  | VObj (fields : list (string * Value))
  | VPromise (p : Fate Value).

Inductive Exn : Type :=
  | TypeError (what : string)
  | ReferenceError (name : string)
  | Error (msg : string)
  | Thrown (v : Value).

(** One argument of a call to a user function: a value, or the context
    bundle [{dispatch, commit, getters, state, rootGetters, rootState}] an
    action handler receives.  [dispatch], [commit] and [getters] of the
    bundle are determined by the namespace of the module.  A method called
    on an object of the user, [receiver.method(...args)], has [AThis receiver]
    before its arguments.  [ADevtoolError] is the callback
    [err => { store._devtoolHook.emit("vuex:error", err); throw err }]. *)
Inductive Arg : Type :=
  | AVal (v : Value)
  | ACtx (namespace : string) (localState rootState : Value)
  | AThis (receiver : Value)
  | ADevtoolError.

Inductive Event : Type :=
  | ConsoleWarn (msg : string)
  | ConsoleError (msg : string)
  | ConsoleErrorExn (e : Exn)
  | Call (f : FnRef) (args : list Arg).

(** [!!v] *)
Definition truthy (v : Value) : bool :=
  match v with
  | VUndef | VNull => false
  | VBool b => b
  | VNum z => negb (z =? 0)%Z
  | VStr s => negb (String.eqb s EmptyString)
  | VFun _ | VArr _ | VObj _ | VPromise _ => true
  end.

Definition typeof (v : Value) : string :=
  match v with
  | VUndef => "undefined"
  | VNull => "object"
  | VBool _ => "boolean"
  | VNum _ => "number"
  | VStr _ => "string"
  | VFun _ => "function"
  | VArr _ | VObj _ | VPromise _ => "object"
  end.

(** Own property of an object literal. *)
Fixpoint field (k : string) (fields : list (string * Value)) : Value :=
  match fields with
  | [] => VUndef
  | (k', v) :: rest => if String.eqb k k' then v else field k rest
  end.

(** [v[k]]: [None] stands for the TypeError raised when [v] is [undefined]
    or [null].  Properties of primitives and of functions, and the methods
    of a promise, are not values of the model: they read as [undefined]. *)
Definition prop (v : Value) (k : string) : option Value :=
  match v with
  | VUndef | VNull => None
  | VObj fs => Some (field k fs)
  | VArr items =>
      Some (if String.eqb k "length" then VNum (Z.of_nat (length items))
            else default VUndef
                   (list_find (λ i : nat, bool_decide (pretty i = k)) (seq 0 (length items))
                      ≫= λ hit, items !! (hit.2 : nat)))
  | _ => Some VUndef
  end.

(** The double-quote character as a string. *)
Definition dq : string := String (Ascii.ascii_of_nat 34) EmptyString.

(** [path.join(sep)] *)
Definition join (sep : string) (l : list string) : string := String.concat sep l.

(** [path.slice(0, -1)] *)
Definition slice_init (path : list string) : list string := removelast path.

(** [path[path.length - 1]], used as a property key: on the empty path the
    expression is [undefined], which as a key is the string ["undefined"]. *)
Definition last_key (path : list string) : string := List.last path "undefined".

(* ===================================================================== *)
(** ** Computations: outcome, object left behind, events *)
(* ===================================================================== *)

Inductive Outcome (A : Type) : Type :=
  | Ret (a : A)
  | Throw (e : Exn).
Arguments Ret {A} a.
Arguments Throw {A} e.

Record Run (S A : Type) : Type := mkRun {
  outcome : Outcome A;
  final : S;
  trace : list Event }.
Arguments mkRun {S A} outcome final trace.
Arguments outcome {S A} r.
Arguments final {S A} r.
Arguments trace {S A} r.

Definition M (S A : Type) : Type := S → Run S A.

Definition ret {S A} (a : A) : M S A := λ s, mkRun (Ret a) s [].
Definition throw {S A} (e : Exn) : M S A := λ s, mkRun (Throw e) s [].
Definition bind {S A B} (m : M S A) (k : A → M S B) : M S B := λ s,
  let r := m s in
  match outcome r with
  | Ret a => let r' := k a (final r) in
             mkRun (outcome r') (final r') (trace r ++ trace r')
  | Throw e => mkRun (Throw e) (final r) (trace r)
  end.

Notation "x <- m ;; k" := (bind m (λ x, k))
  (at level 100, m at next level, right associativity, only parsing).
Notation "m ;;; k" := (bind m (λ _, k))
  (at level 100, right associativity, only parsing).

Definition gets {S A} (f : S → A) : M S A := λ s, mkRun (Ret (f s)) s [].
Definition modify {S} (f : S → S) : M S unit := λ s, mkRun (Ret tt) (f s) [].
Definition emit {S} (e : Event) : M S unit := λ s, mkRun (Ret tt) s [e].
Definition lift {S A} (o : Outcome A) : M S A := λ s, mkRun o s [].
Definition when {S} (c : bool) (m : M S unit) : M S unit := if c then m else ret tt.

(** [try { m } catch (e) { h e }] *)
Definition try_catch {S A} (m : M S A) (h : Exn → M S A) : M S A := λ s,
  let r := m s in
  match outcome r with
  | Ret a => r
  | Throw e => let r' := h e (final r) in
               mkRun (outcome r') (final r') (trace r ++ trace r')
  end.

(** [list.forEach(fn)] *)
Definition forEach {S A} (fn : A → M S unit) : list A → M S unit :=
  fix go l :=
    match l with
    | [] => ret tt
    | x :: rest => fn x ;;; go rest
    end.

(** [list.map(fn)] with an effectful [fn] *)
Definition mapM {S A B} (fn : A → M S B) : list A → M S (list B) :=
  fix go l :=
    match l with
    | [] => ret []
    | x :: rest => y <- fn x ;; ys <- go rest ;; ret (y :: ys)
    end.

(** [list.reduce(fn, init)] for a callback without effects that may throw *)
Definition reduce {A B} (fn : A → B → Outcome A) (l : list B) (init : A) : Outcome A :=
  fold_left (λ acc x, match acc with Ret a => fn a x | Throw e => Throw e end) l (Ret init).

(** A run followed, when it returned, by console lines. *)
Definition then_log {S} (log : list Event) (r : Run S unit) : Run S unit :=
  match outcome r with
  | Ret _ => mkRun (Ret tt) (final r) (trace r ++ log)
  | Throw e => r
  end.

(** The object after the computation is related by [R] to the object
    before it, however the computation ends. *)
Definition preserves {S A} (R : S → S → Prop) (m : M S A) : Prop :=
  ∀ s, R s (final (m s)).

(** A computation that neither reads nor changes the object it runs on and
    logs nothing: it is [pure] run on the unit object. *)
Definition stateless {S A} (m : M S A) (pure : M unit A) : Prop :=
  ∀ s, m s = mkRun (outcome (pure tt)) s [].

(** [P] survives the computation, however it ends. *)
Definition keeps {S A} (P : S → Prop) (m : M S A) : Prop :=
  ∀ s, P s → P (final (m s)).

(* ===================================================================== *)
(** ** util.js *)
(* ===================================================================== *)

Module Util.

(** [Object.keys(obj).forEach(key => fn(obj[key], key))]; an object is the
    list of its own enumerable properties in the order of [Object.keys]. *)
Definition forEachValue {S V} (obj : list (string * V)) (fn : V → string → M S unit)
  : M S unit :=
  (fix go l :=
     match l with
     | [] => ret tt
     | (key, v) :: rest => fn v key ;;; go rest
     end) obj.

Definition isObject (obj : Value) : bool :=
  match obj with
  | VNull => false
  | _ => String.eqb (typeof obj) "object"
  end.

(** [val && typeof val.then === "function"]; a promise has the method
    [then]. *)
Definition isPromise (val : Value) : bool :=
  match val with
  | VPromise _ => true
  | _ =>
      truthy val &&
      match prop val "then" with
      | Some t => String.eqb (typeof t) "function"
      | None => false
      end
  end.

Definition assert {S} (condition : bool) (msg : string) : M S unit :=
  if condition then ret tt else throw (Error ("[vuex] " +:+ msg)).

End Util.

(* ===================================================================== *)
(** ** module/module.js: one node of the module tree *)
(* ===================================================================== *)

(** A raw module: the declaration object supplied by the programmer.
    [None] is an absent (falsy) property; maps are lists of own enumerable
    properties in enumeration order. *)
Inductive RawModule : Type := mkRawModule {
  raw_namespaced : Value;
  raw_state : Value;
  raw_getters : option (list (string * Value));
  raw_mutations : option (list (string * Value));
  raw_actions : option (list (string * Value));
  raw_modules : option (list (string * RawModule)) }.

(** The declaration [r] with its [modules] property replaced. *)
Definition with_modules (ms : option (list (string * RawModule))) (r : RawModule)
  : RawModule :=
  mkRawModule (raw_namespaced r) (raw_state r) (raw_getters r) (raw_mutations r)
    (raw_actions r) ms.

Module Mod.

(** An instance of class [Module].  The tree owns its children: a module
    object sits at exactly one position, so mutating a child in place is
    replacing it in the [_children] map of its parent.  [_rawModule] is the
    declaration the module was made from; distinct modules are taken to be
    made from distinct declaration objects.  The nested declarations inside
    [_rawModule] are read by [register] only, from its argument: that
    [update] changes the declaration of a child in place is therefore not
    mirrored in the copy its parent holds. *)
Inductive ModuleNode : Type := mkModule {
  runtime : bool;
  _children : gmap string ModuleNode;
  _rawModule : RawModule;
  state : Value }.

Section Constructor.
(** What the state factory [rawState()] returns; factories are taken to be
    pure and to return normally. *)
Variable init_state : FnRef → Value.

(** [constructor(rawModule, runtime)] *)
Definition new (rawModule : RawModule) (runtime : bool) : ModuleNode :=
  let rawState := raw_state rawModule in
  let s := match rawState with VFun f => init_state f | _ => rawState end in
  mkModule runtime ∅ rawModule (if truthy s then s else VObj []).
End Constructor.

(** [get namespaced()] *)
Definition namespaced (m : ModuleNode) : bool := truthy (raw_namespaced (_rawModule m)).

Definition set_children (c : gmap string ModuleNode) (m : ModuleNode) : ModuleNode :=
  mkModule (runtime m) c (_rawModule m) (state m).

Definition addChild (key : string) (module : ModuleNode) (m : ModuleNode) : ModuleNode :=
  set_children (<[key := module]> (_children m)) m.

Definition removeChild (key : string) (m : ModuleNode) : ModuleNode :=
  set_children (delete key (_children m)) m.

Definition getChild (key : string) (m : ModuleNode) : option ModuleNode :=
  _children m !! key.

Definition hasChild (key : string) (m : ModuleNode) : bool :=
  bool_decide (is_Some (_children m !! key)).

(** [update(rawModule)]: replaces [namespaced] always, and actions,
    mutations, getters when the new declaration has them. *)
Definition update (rawModule : RawModule) (m : ModuleNode) : ModuleNode :=
  let old := _rawModule m in
  mkModule (runtime m) (_children m)
    (mkRawModule
       (raw_namespaced rawModule)
       (raw_state old)
       (if raw_getters rawModule is Some g then Some g else raw_getters old)
       (if raw_mutations rawModule is Some mu then Some mu else raw_mutations old)
       (if raw_actions rawModule is Some a then Some a else raw_actions old)
       (raw_modules old))
    (state m).

(** The module reached from [m] by the keys of [path], if every key names
    a child. *)
Fixpoint descend (path : list string) (m : ModuleNode) : option ModuleNode :=
  match path with
  | [] => Some m
  | key :: rest => getChild key m ≫= descend rest
  end.

(** Running [f] on the module object reached from [m] by [path]: the
    embedding of a method call on a reference obtained by walking the tree.
    Nothing happens when the path does not resolve. *)
Fixpoint at_path (path : list string) (f : ModuleNode → ModuleNode) (m : ModuleNode)
  : ModuleNode :=
  match path with
  | [] => f m
  | key :: rest =>
      match getChild key m with
      | Some c => addChild key (at_path rest f c) m
      | None => m
      end
  end.

(** Running a computation on the child object stored under [key]. *)
Definition on_child {A} (key : string) (c : ModuleNode) (body : M ModuleNode A)
  : M ModuleNode A := λ m,
  let r := body c in
  mkRun (outcome r) (addChild key (final r) m) (trace r).

(** Same modules at the same paths, each with the state and the runtime
    flag it had. *)
Definition same_frame (t t' : ModuleNode) : Prop :=
  ∀ p, match descend p t, descend p t' with
       | Some m, Some m' => state m' = state m ∧ runtime m' = runtime m
       | None, None => True
       | _, _ => False
       end.

End Mod.

(* ===================================================================== *)
(** ** module/module-collection.js: the module tree *)
(* ===================================================================== *)

Module ModuleCollection.
Import Mod.

(** An instance of class [ModuleCollection]; [root] is [undefined] until the
    constructor's [register([], rawRootModule, false)] assigns it. *)
Record Collection : Type := mkCollection { root : option ModuleNode }.

(** A mutation of the module object reached from the root. *)
Definition on_root (f : ModuleNode → ModuleNode) (mc : Collection) : Collection :=
  mkCollection (f <$> root mc).

(** Reading through [this] without changing it. *)
Definition reads {A} (f : Collection → Outcome A) : M Collection A :=
  λ mc, mkRun (f mc) mc [].

(** [path.reduce((module, key) => module.getChild(key), start)];
    [getChild] on [undefined] is a TypeError. *)
Definition get_from (start : option ModuleNode) (path : list string)
  : Outcome (option ModuleNode) :=
  reduce (λ module key,
            match module with
            | Some m => Ret (getChild key m)
            | None => Throw (TypeError "undefined.getChild")
            end) path start.

(** [get(path)] *)
Definition get (path : list string) (mc : Collection) : Outcome (option ModuleNode) :=
  get_from (root mc) path.

(** The callback of the [reduce] in [getNamespace]: the accumulator is the
    namespace; [module] is the variable the callback reassigns. *)
Definition getNamespace_step (acc : option ModuleNode * string) (key : string)
  : Outcome (option ModuleNode * string) :=
  let '(module, namespace) := acc in
  match module with
  | None => Throw (TypeError "undefined.getChild")
  | Some m =>
      match getChild key m with
      | None => Throw (TypeError "undefined.namespaced")
      | Some m' =>
          Ret (Some m', namespace +:+ (if namespaced m' then key +:+ "/" else EmptyString))
      end
  end.

(** [getNamespace(path)] *)
Definition getNamespace (path : list string) (mc : Collection) : Outcome string :=
  match reduce getNamespace_step path (root mc, EmptyString) with
  | Ret (_, namespace) => Ret namespace
  | Throw e => Throw e
  end.

(** [isRegistered(path)] *)
Definition isRegistered (path : list string) (mc : Collection) : Outcome bool :=
  match get (slice_init path) mc with
  | Throw e => Throw e
  | Ret parent =>
      let key := last_key path in
      match parent with
      | Some p => Ret (hasChild key p)
      | None => Ret false
      end
  end.

(** The module at [p] is there and carries the runtime flag [rt]. *)
Definition node_at (p : list string) (rt : bool) (mc : Collection) : Prop :=
  ∃ r m, root mc = Some r ∧ descend p r = Some m ∧ runtime m = rt.

Section WithHost.
Variable __DEV__ : bool.
(** [JSON.stringify(value)] as it appears inside a template string. *)
Variable JSON_stringify : Value → string.
Variable init_state : FnRef → Value.

Definition functionAssert (value : Value) : Outcome bool :=
  Ret (String.eqb (typeof value) "function").

(** [typeof value === "function" ||
     (typeof value === "object" && typeof value.handler === "function")];
    [typeof null] is ["object"] and [null.handler] is a TypeError. *)
Definition objectAssert (value : Value) : Outcome bool :=
  if String.eqb (typeof value) "function" then Ret true
  else if String.eqb (typeof value) "object" then
    match prop value "handler" with
    | Some h => Ret (String.eqb (typeof h) "function")
    | None => Throw (TypeError "null.handler")
    end
  else Ret false.

Definition assertTypes
  : list (string * ((RawModule → option (list (string * Value)))
                    * (Value → Outcome bool) * string)) :=
  [ ("getters", (raw_getters, functionAssert, "function"));
    ("mutations", (raw_mutations, functionAssert, "function"));
    ("actions", (raw_actions, objectAssert,
                 "function or object with " +:+ dq +:+ "handler" +:+ dq +:+ " function")) ].

Definition makeAssertionMessage (path : list string) (key type : string) (value : Value)
    (expected : string) : string :=
  let buf := key +:+ " should be " +:+ expected +:+ " but "
             +:+ dq +:+ key +:+ "." +:+ type +:+ dq in
  let buf := if bool_decide (0 < length path)
             then buf +:+ " in module " +:+ dq +:+ join "." path +:+ dq
             else buf in
  buf +:+ " is " +:+ JSON_stringify value +:+ ".".

(** [assertRawModule(path, rawModule)]: reads only, may throw. *)
Definition assertRawModule {S} (path : list string) (rawModule : RawModule) : M S unit :=
  forEach (λ entry : string * ((RawModule → option (list (string * Value)))
                               * (Value → Outcome bool) * string),
             let '(key, (get_key, assert_fn, expected)) := entry in
             match get_key rawModule with
             | None => ret tt
             | Some obj =>
                 Util.forEachValue obj (λ value type,
                   ok <- lift (assert_fn value) ;;
                   Util.assert ok (makeAssertionMessage path key type value expected))
             end) assertTypes.

(** [register(path, rawModule, runtime)] *)
Fixpoint register (path : list string) (rawModule : RawModule) (runtime : bool)
    {struct rawModule} : M Collection unit :=
  when __DEV__ (assertRawModule path rawModule) ;;;
  let newModule := Mod.new init_state rawModule runtime in
  (if bool_decide (length path = 0) then
     modify (λ _, mkCollection (Some newModule))
   else
     parent <- reads (get (slice_init path)) ;;
     match parent with
     | Some _ =>
         modify (on_root (at_path (slice_init path) (addChild (last_key path) newModule)))
     | None => throw (TypeError "undefined.addChild")
     end) ;;;
  match raw_modules rawModule with
  | Some ms =>
      Util.forEachValue ms (λ rawChildModule key,
        register (path ++ [key]) rawChildModule runtime)
  | None => ret tt
  end.

(** Every assertion of [assertRawModule] holds on the declaration at [path]
    and on the declarations nested in it. *)
Fixpoint well_declared (path : list string) (rawModule : RawModule) {struct rawModule}
  : Prop :=
  outcome (assertRawModule path rawModule tt) = Ret tt
  ∧ match raw_modules rawModule with
    | Some ms =>
        (fix all (l : list (string * RawModule)) : Prop :=
           match l with
           | [] => True
           | (key, rawChildModule) :: rest =>
               well_declared (path ++ [key]) rawChildModule ∧ all rest
           end) ms
    | None => True
    end.

(** [constructor(rawRootModule)] *)
Definition new (rawRootModule : RawModule) : Run Collection unit :=
  register [] rawRootModule false (mkCollection None).

(** [unregister(path)] *)
Definition unregister (path : list string) : M Collection unit :=
  parent <- reads (get (slice_init path)) ;;
  let key := last_key path in
  match parent with
  | None => throw (TypeError "undefined.getChild")
  | Some p =>
      match getChild key p with
      | None =>
          when __DEV__
            (emit (ConsoleWarn ("[vuex] trying to unregister module '" +:+ key
                                +:+ "', which is not registered")))
      | Some child =>
          if negb (runtime child) then ret tt
          else modify (on_root (at_path (slice_init path) (removeChild key)))
      end
  end.

(** The console line of [update] for a module the tree does not have. *)
Definition new_module_warning (key : string) : Event :=
  ConsoleWarn ("[vuex] trying to add a new module '" +:+ key
               +:+ "' on hot reloading, manual reload is needed").

(** The loop [for (const key in newModule.modules)] of the function
    [update]; [upd] is the recursive call.  An unknown key ends the loop by
    [return]. *)
Definition update_children (upd : list string → RawModule → M ModuleNode unit)
    (path : list string) : list (string * RawModule) → M ModuleNode unit :=
  fix loop ms :=
    match ms with
    | [] => ret tt
    | (key, rawChild) :: rest => λ targetModule,
        match getChild key targetModule with
        | None =>
            when __DEV__ (emit (new_module_warning key)) targetModule
        | Some child =>
            (on_child key child (upd (path ++ [key]) rawChild) ;;; loop rest) targetModule
        end
    end.

(** [function update(path, targetModule, newModule)] *)
Fixpoint update (path : list string) (newModule : RawModule) {struct newModule}
  : M ModuleNode unit :=
  when __DEV__ (assertRawModule path newModule) ;;;
  modify (Mod.update newModule) ;;;
  match raw_modules newModule with
  | Some ms => update_children update path ms
  | None => ret tt
  end.

(** The method [update(rawRootModule)]: [update([], this.root, rawRootModule)]. *)
Definition update_root (rawRootModule : RawModule) : M Collection unit := λ mc,
  match root mc with
  | Some r =>
      let run := update [] rawRootModule r in
      mkRun (outcome run) (mkCollection (Some (final run))) (trace run)
  | None =>
      (when __DEV__ (assertRawModule [] rawRootModule) ;;;
       throw (TypeError "undefined.update")) mc
  end.

End WithHost.
End ModuleCollection.

(* ===================================================================== *)
(** ** The namespace rule, in the words of the specification *)
(* ===================================================================== *)

Module NamespaceRule.
Import Mod.

(** The nodes met when walking [path] from [m], root to node, each with the
    key under which it is stored. *)
Fixpoint nodes_on_path (m : ModuleNode) (path : list string) : list (string * ModuleNode) :=
  match path with
  | [] => []
  | key :: rest =>
      match getChild key m with
      | Some c => (key, c) :: nodes_on_path c rest
      | None => []
      end
  end.

(** The concatenation of [key + "/"] over exactly those nodes whose own
    [namespaced] flag is true. *)
Definition namespace_by_rule (m : ModuleNode) (path : list string) : string :=
  String.concat EmptyString
    (map (λ kn : string * ModuleNode, kn.1 +:+ "/")
         (List.filter (λ kn : string * ModuleNode, namespaced kn.2) (nodes_on_path m path))).

End NamespaceRule.

(* ===================================================================== *)
(** ** store.js: registries, commit and dispatch *)
(* ===================================================================== *)

Module Store.

(** The closure environment of [makeLocalContext(store, namespace, path)]. *)
Record Local : Type := mkLocal {
  namespace : string;
  path : list string }.

(** [function wrappedMutationHandler(payload)]: the closure pushed by
    [registerMutation]; it captures the user's handler and [local]. *)
Record WrappedMutation : Type := mkWrappedMutation {
  mutation_handler : Value;
  mutation_local : Local }.

(** [function wrappedActionHandler(payload)]: the closure pushed by
    [registerAction]. *)
Record WrappedAction : Type := mkWrappedAction {
  action_handler : Value;
  action_local : Local }.

(** The identity of a subscriber object: an object the caller made, or the
    [n]-th object [{ before: fn }] allocated by [subscribeAction]. *)
Inductive ObjId : Type :=
  | UserObject (n : nat)
  | Allocated (n : nat).

#[global] Instance ObjId_eq_dec : EqDecision ObjId.
Proof. solve_decision. Defined.

(** An entry of [_actionSubscribers]. *)
Record ActionSub : Type := mkActionSub {
  sub_id : ObjId;
  before : Value;
  after : Value;
  error : Value }.

(** The fields of a [Store] instance that [commit], [dispatch], the
    subscription functions and [_withCommit] read or write.  [state] is
    [this._vm._data.$$state]; [_devtoolHook] tells whether the hook is set;
    [allocated] counts the objects allocated by [subscribeAction]. *)
Record t : Type := mk {
  _committing : bool;
  _actions : gmap string (list WrappedAction);
  _actionSubscribers : list ActionSub;
  _mutations : gmap string (list WrappedMutation);
  _subscribers : list FnRef;
  _devtoolHook : bool;
  state : Value;
  allocated : nat }.

Definition set_committing (b : bool) (s : t) : t :=
  mk b (_actions s) (_actionSubscribers s) (_mutations s) (_subscribers s)
     (_devtoolHook s) (state s) (allocated s).
Definition set_actions (a : gmap string (list WrappedAction)) (s : t) : t :=
  mk (_committing s) a (_actionSubscribers s) (_mutations s) (_subscribers s)
     (_devtoolHook s) (state s) (allocated s).
Definition set_actionSubscribers (l : list ActionSub) (s : t) : t :=
  mk (_committing s) (_actions s) l (_mutations s) (_subscribers s)
     (_devtoolHook s) (state s) (allocated s).
Definition set_mutations (m : gmap string (list WrappedMutation)) (s : t) : t :=
  mk (_committing s) (_actions s) (_actionSubscribers s) m (_subscribers s)
     (_devtoolHook s) (state s) (allocated s).
Definition set_subscribers (l : list FnRef) (s : t) : t :=
  mk (_committing s) (_actions s) (_actionSubscribers s) (_mutations s) l
     (_devtoolHook s) (state s) (allocated s).
Definition set_state (v : Value) (s : t) : t :=
  mk (_committing s) (_actions s) (_actionSubscribers s) (_mutations s) (_subscribers s)
     (_devtoolHook s) v (allocated s).
Definition set_allocated (n : nat) (s : t) : t :=
  mk (_committing s) (_actions s) (_actionSubscribers s) (_mutations s) (_subscribers s)
     (_devtoolHook s) (state s) n.

(** [options && options.name] as a condition. *)
Definition option_set (options : Value) (name : string) : bool :=
  truthy options && truthy (default VUndef (prop options name)).

(** [subs.indexOf(fn)]; [None] is [-1].  [same] is strict equality. *)
Fixpoint indexOf {A} (same : A → A → bool) (fn : A) (subs : list A) : option nat :=
  match subs with
  | [] => None
  | x :: rest => if same x fn then Some 0 else S <$> indexOf same fn rest
  end.

(** The closure returned by [genericSubscribe], acting on the array it
    captured. *)
Definition unsubscribe {A} (same : A → A → bool) (fn : A) (subs : list A) : list A :=
  match indexOf same fn subs with
  | Some i => delete i subs
  | None => subs
  end.

(** [genericSubscribe(fn, subs, options)]: the array as it is left, and the
    closure returned. *)
Definition genericSubscribe {A} (same : A → A → bool) (fn : A) (subs : list A)
    (options : Value) : list A * (list A → list A) :=
  (match indexOf same fn subs with
   | None => if option_set options "prepend" then fn :: subs else subs ++ [fn]
   | Some _ => subs
   end,
   unsubscribe same fn).

(** Strict equality as equality of identities: of two function references,
    of two subscriber objects. *)
Definition same_key {A K} `{EqDecision K} (key : A → K) (a b : A) : bool :=
  bool_decide (key a = key b).
Definition same_function : FnRef → FnRef → bool := same_key id.
Definition same_object : ActionSub → ActionSub → bool := same_key sub_id.

(** The argument of [subscribeAction]: a function or a subscriber object. *)
Inductive Subscriber : Type :=
  | SubscriberFn (fn : FnRef)
  | SubscriberObj (o : ActionSub).

(** [subscribe(fn, options)]; the result is the unsubscribe function. *)
Definition subscribe (fn : FnRef) (options : Value) : M t (M t unit) := λ s,
  let '(subs, unsub) := genericSubscribe same_function fn (_subscribers s) options in
  mkRun (Ret (modify (λ s', set_subscribers (unsub (_subscribers s')) s')))
        (set_subscribers subs s) [].

(** [subscribeAction(fn, options)]:
    [const subs = typeof fn === "function" ? { before: fn } : fn]
    allocates a new object each time [fn] is a function. *)
Definition subscribeAction (fn : Subscriber) (options : Value) : M t (M t unit) := λ s,
  let '(subs, s1) :=
    match fn with
    | SubscriberFn f =>
        (mkActionSub (Allocated (allocated s)) (VFun f) VUndef VUndef,
         set_allocated (S (allocated s)) s)
    | SubscriberObj o => (o, s)
    end in
  let '(l, unsub) := genericSubscribe same_object subs (_actionSubscribers s1) options in
  mkRun (Ret (modify (λ s', set_actionSubscribers (unsub (_actionSubscribers s')) s')))
        (set_actionSubscribers l s1) [].

(** [getNestedState(state, path)]: [path.reduce((state, key) => state[key], state)] *)
Definition getNestedState (state : Value) (path : list string) : Outcome Value :=
  reduce (λ st key,
            match prop st key with
            | Some v => Ret v
            | None => Throw (TypeError "state[key]")
            end) path state.

(** [_withCommit(fn)] *)
Definition _withCommit {A} (fn : M t A) : M t unit :=
  committing <- gets _committing ;;
  modify (set_committing true) ;;;
  fn ;;;
  modify (set_committing committing).

(** [replaceState(state)] *)
Definition replaceState (state : Value) : M t unit :=
  _withCommit (modify (set_state state)).

(** [registerMutation(store, type, handler, local)] *)
Definition registerMutation (type : string) (handler : Value) (local : Local) : M t unit :=
  modify (λ s,
    let entry := default [] (_mutations s !! type) in
    set_mutations (<[type := entry ++ [mkWrappedMutation handler local]]> (_mutations s)) s).

(** [registerAction(store, type, handler, local)] *)
Definition registerAction (type : string) (handler : Value) (local : Local) : M t unit :=
  modify (λ s,
    let entry := default [] (_actions s !! type) in
    set_actions (<[type := entry ++ [mkWrappedAction handler local]]> (_actions s)) s).

(** *** Promises *)

Section Promises.
(** What [then] of a user-made thenable object leads to. *)
Variable thenable_fate : Value → Fate Value.

(** The fate of [value] when it is awaited. *)
Definition fate_of (value : Value) : Fate Value :=
  match value with
  | VPromise p => p
  | _ => if Util.isPromise value then thenable_fate value else Fulfilled 0 value
  end.

(** The earliest rejection, the first in the list among simultaneous ones. *)
Definition first_rejection (fates : list (Fate Value)) : option (nat * Value) :=
  fold_left (λ (best : option (nat * Value)) (p : Fate Value),
               match p, best with
               | Rejected time e, Some (time', _) =>
                   if Nat.ltb time time' then Some (time, e) else best
               | Rejected time e, None => Some (time, e)
               | _, _ => best
               end) fates None.

(** All fulfilled: the time of the last one and the values in order. *)
Fixpoint all_fulfilled (fates : list (Fate Value)) : option (nat * list Value) :=
  match fates with
  | [] => Some (0, [])
  | Fulfilled time v :: rest =>
      '(time', vs) ← all_fulfilled rest; Some (Nat.max time time', v :: vs)
  | _ => None
  end.

(** [Promise.all(values)] *)
Definition Promise_all (values : list Value) : Value :=
  let fates := map fate_of values in
  VPromise
    match first_rejection fates with
    | Some (time, e) => Rejected time e
    | None =>
        match all_fulfilled fates with
        | Some (time, vs) => Fulfilled time (VArr vs)
        | None => Pending
        end
    end.

End Promises.

(** *** The engine *)

Section Engine.
(** The build-time constant. *)
Variable __DEV__ : bool.
(** Whether the identifier [w] resolves in the global scope. *)
Variable global_w : bool.
(** [String(value)] for a value that is not a string. *)
Variable ToString : Value → string.
Variable thenable_fate : Value → Fate Value.
(** What a call [fn.call(store, ...args)] of a user function does: its
    completion and the store as it leaves it. *)
Variable call : FnRef → list Arg → t → Outcome Value * t.

(** [value] as a property key or inside a template string. *)
Definition to_string (value : Value) : string :=
  match value with
  | VStr s => s
  | _ => ToString value
  end.

(** A call of a user function, recorded in the trace. *)
Definition invoke (fn : FnRef) (args : list Arg) : M t Value := λ s,
  let r := call fn args s in
  mkRun r.1 r.2 [Call fn args].

(** [unifyObjectStyle(type, payload, options)] *)
Definition unifyObjectStyle {S} (type payload options : Value)
  : M S (Value * Value * Value) :=
  let '(type, payload, options) :=
    if Util.isObject type && truthy (default VUndef (prop type "type"))
    then (default VUndef (prop type "type"), type, payload)
    else (type, payload, options) in
  when __DEV__
    (Util.assert (String.eqb (typeof type) "string")
       ("expects string as the type, but found " +:+ typeof type +:+ ".")) ;;;
  ret (type, payload, options).

(** The getter [local.state]: [getNestedState(store.state, path)]. *)
Definition local_state (local : Local) : M t Value :=
  st <- gets state ;; lift (getNestedState st (path local)).

(** [wrappedMutationHandler(payload)]:
    [handler.call(store, local.state, payload)] *)
Definition wrappedMutationHandler (w : WrappedMutation) (payload : Value) : M t unit :=
  match mutation_handler w with
  | VUndef | VNull => throw (TypeError "handler.call")
  | handler =>
      ls <- local_state (mutation_local w) ;;
      match handler with
      | VFun fn => invoke fn [AVal ls; AVal payload] ;;; ret tt
      | _ => throw (TypeError "handler.call is not a function")
      end
  end.

(** The descriptor [{ type, payload }] of a mutation or an action. *)
Definition descriptor (type payload : Value) : Value :=
  VObj [("type", type); ("payload", payload)].

(** [entry.forEach(function commitIterator(handler) { handler(payload) })] *)
Definition run_handlers (entry : list WrappedMutation) (payload : Value) : M t unit :=
  forEach (λ handler, wrappedMutationHandler handler payload) entry.

(** [subs.forEach((sub) => sub(mutation, this.state))] *)
Definition notify (mutation : Value) (subs : list FnRef) : M t unit :=
  forEach (λ sub, st <- gets state ;;
                  invoke sub [AVal mutation; AVal st] ;;; ret tt) subs.

(** The console line of [commit] about the removed [silent] option. *)
Definition silent_removed (type : Value) : Event :=
  ConsoleWarn ("[vuex] mutation type: " +:+ to_string type
               +:+ ". Silent option has been removed. "
               +:+ "Use the filter functionality in the vue-devtools").

(** [commit(_type, _payload, _options)] *)
Definition commit (_type _payload _options : Value) : M t Value :=
  unified <- unifyObjectStyle _type _payload _options ;;
  let '(type, payload, options) := unified in
  let mutation := descriptor type payload in
  entry <- gets (λ s, _mutations s !! to_string type) ;;
  match entry with
  | None =>
      when __DEV__
        (emit (ConsoleError ("[vuex] unknown mutation type: " +:+ to_string type))) ;;;
      ret VUndef
  | Some entry =>
      _withCommit (run_handlers entry payload) ;;;
      subs <- gets _subscribers ;;
      notify mutation subs ;;;
      when (__DEV__ && option_set options "silent") (emit (silent_removed type)) ;;;
      ret VUndef
  end.

(** [wrappedActionHandler(payload)]: calls the handler with the context
    bundle, makes the result a promise unless it is a thenable, and with
    the devtool hook set returns [res.catch(...)]: for a promise, a promise
    of the same fate; for a thenable of the user, what its own [catch]
    returns. *)
Definition wrappedActionHandler (w : WrappedAction) (payload : Value) : M t Value :=
  match action_handler w with
  | VUndef | VNull => throw (TypeError "handler.call")
  | handler =>
      ls <- local_state (action_local w) ;;
      rs <- gets state ;;
      match handler with
      | VFun fn =>
          res <- invoke fn [ACtx (namespace (action_local w)) ls rs; AVal payload] ;;
          let res := if Util.isPromise res then res else VPromise (Fulfilled 0 res) in
          hook <- gets _devtoolHook ;;
          if hook then
            match res with
            | VPromise p => ret (VPromise p)
            | _ =>
                match prop res "catch" with
                | Some (VFun catch) => invoke catch [AThis res; ADevtoolError]
                | _ => throw (TypeError "res.catch is not a function")
                end
            end
          else ret res
      | _ => throw (TypeError "handler.call is not a function")
      end
  end.

(** A subscriber callback [sub.before], [sub.after] or [sub.error]. *)
Definition call_subscriber (callback : Value) (args : list Arg) : M t unit :=
  match callback with
  | VFun fn => invoke fn args ;;; ret tt
  | _ => throw (TypeError "subscriber is not a function")
  end.

(** [try { subs.filter(sub => sub.which).forEach(sub => sub.which(...args, this.state, ...)) }
     catch (e) { if (__DEV__) { console.warn(...); console.error(e) } }] *)
Definition notify_action_subscribers (which : ActionSub → Value) (label : string)
    (args : Value → list Arg) : M t unit :=
  try_catch
    (subs <- gets _actionSubscribers ;;
     forEach (λ sub, st <- gets state ;; call_subscriber (which sub) (args st))
             (List.filter (λ sub, truthy (which sub)) subs))
    (λ e, when __DEV__
            (emit (ConsoleWarn ("[vuex] error in " +:+ label +:+ " action subscribers: ")) ;;;
             emit (ConsoleErrorExn e))).

(** The expression statement [w;] of [dispatch]. *)
Definition read_w {S} : M S unit :=
  if global_w then ret tt else throw (ReferenceError "w").

(** [dispatch(_type, _payload)]: the synchronous part.  The promise
    returned has the fate of [result]; what runs when [result] settles is
    [dispatch_fulfilled] and [dispatch_rejected] below. *)
Definition dispatch (_type _payload : Value) : M t Value :=
  unified <- unifyObjectStyle _type _payload VUndef ;;
  let '(type, payload, _) := unified in
  let action := descriptor type payload in
  entry <- gets (λ s, _actions s !! to_string type) ;;
  match entry with
  | None =>
      when __DEV__
        (emit (ConsoleError ("[vuex] unknown action type: " +:+ to_string type))) ;;;
      ret VUndef
  | Some entry =>
      read_w ;;;
      notify_action_subscribers before "before" (λ st, [AVal action; AVal st]) ;;;
      result <- (if Nat.ltb 1 (length entry) then
                   results <- mapM (λ handler, wrappedActionHandler handler payload) entry ;;
                   ret (Promise_all thenable_fate results)
                 else
                   match entry with
                   | handler :: _ => wrappedActionHandler handler payload
                   | [] => throw (TypeError "entry[0] is not a function")
                   end) ;;
      ret (VPromise (fate_of thenable_fate result))
  end.

(** The callback of [result.then] on fulfilment: the [after] subscribers,
    then [resolve(res)]. *)
Definition dispatch_fulfilled (action res : Value) : M t Value :=
  notify_action_subscribers after "after" (λ st, [AVal action; AVal st]) ;;;
  ret res.

(** The callback of [result.then] on rejection: the [error] subscribers,
    then [reject(error)]. *)
Definition dispatch_rejected (action err : Value) : M t Value :=
  notify_action_subscribers error "error" (λ st, [AVal action; AVal st; AVal err]) ;;;
  throw (Thrown err).

(** [makeLocalContext(store, namespace, path)]: [local.dispatch] *)
Definition local_dispatch (local : Local) (_type _payload _options : Value) : M t Value :=
  if String.eqb (namespace local) EmptyString then dispatch _type _payload
  else
    unified <- unifyObjectStyle _type _payload _options ;;
    let '(type, payload, options) := unified in
    if negb (option_set options "root") then
      let global_type := namespace local +:+ to_string type in
      registered <- gets (λ s, _actions s !! global_type) ;;
      if __DEV__ && negb (bool_decide (is_Some registered)) then
        emit (ConsoleError ("[vuex] unknown local action type: " +:+ to_string type
                            +:+ ", global type: " +:+ global_type)) ;;;
        ret VUndef
      else dispatch (VStr global_type) payload
    else dispatch type payload.

(** [makeLocalContext(store, namespace, path)]: [local.commit] *)
Definition local_commit (local : Local) (_type _payload _options : Value) : M t Value :=
  if String.eqb (namespace local) EmptyString then commit _type _payload _options
  else
    unified <- unifyObjectStyle _type _payload _options ;;
    let '(type, payload, options) := unified in
    if negb (option_set options "root") then
      let global_type := namespace local +:+ to_string type in
      registered <- gets (λ s, _mutations s !! global_type) ;;
      if __DEV__ && negb (bool_decide (is_Some registered)) then
        emit (ConsoleError ("[vuex] unknown local mutation type: " +:+ to_string type
                            +:+ ", global type: " +:+ global_type)) ;;;
        ret VUndef
      else commit (VStr global_type) payload options ;;; ret VUndef
    else commit type payload options ;;; ret VUndef.

End Engine.
End Store.

(* ===================================================================== *)
(** ** Concrete stores and module trees *)
(* ===================================================================== *)

Module Demo.
Import Mod ModuleCollection Store.

Definition JSON_stringify (value : Value) : string :=
  match value with
  | VNull => "null"
  | VNum _ => "0"
  | _ => "undefined"
  end.
Definition init_state (factory : FnRef) : Value := VObj [("made_by", VNum (Z.of_nat factory))].
Definition ToString (value : Value) : string := "[object Object]".
Definition thenable_fate (value : Value) : Fate Value := Pending.

(** A declaration with nothing in it but a [namespaced] flag and children. *)
Definition decl (namespaced : bool) (children : list (string * RawModule)) : RawModule :=
  mkRawModule (VBool namespaced) VUndef None None None
    (if children is [] then None else Some children).

(** [{ modules: { a: { namespaced: true, modules: { b: { modules:
      { c: { namespaced: true } } } } } } }] *)
Definition nested_decl : RawModule :=
  decl false [("a", decl true [("b", decl false [("c", decl true [])])])].

Definition nested : Collection :=
  final (ModuleCollection.new true JSON_stringify init_state nested_decl).

(** [{ modules: { a: { namespaced: true }, b: {} } }] and the root module
    of its tree. *)
Definition siblings_decl : RawModule :=
  decl false [("a", decl true []); ("b", decl false [])].

Definition siblings : Collection :=
  final (ModuleCollection.new true JSON_stringify init_state siblings_decl).

Definition siblings_root : ModuleNode :=
  default (Mod.new init_state siblings_decl false) (root siblings).

(** A new declaration of that root: it lists the child [a], which the tree
    has, then [zz], which it has not, then [b]. *)
Definition hot_decl : RawModule :=
  decl true [("a", decl false []); ("zz", decl true []); ("b", decl true [])].

(** A declaration with a mutation and an action. *)
Definition leaf_decl : RawModule :=
  mkRawModule (VBool true) (VObj [("count", VNum 0)]) None
    (Some [("increment", VFun 1)]) (Some [("incrementAsync", VFun 5)]) None.

(** The user functions.  [1] adds one to [count], [2] doubles it; [3] and
    [4] are subscribers that do nothing; [5] and [6] are actions resolving
    with [1] and [2]; [7] replaces the state; every other one throws. *)
Definition count_of (state : Value) : Z :=
  match field "count" (match state with VObj fs => fs | _ => [] end) with
  | VNum z => z
  | _ => 0
  end.

Definition call (fn : FnRef) (args : list Arg) (s : Store.t) : Outcome Value * Store.t :=
  match fn with
  | 1 => (Ret VUndef, set_state (VObj [("count", VNum (count_of (state s) + 1))]) s)
  | 2 => (Ret VUndef, set_state (VObj [("count", VNum (count_of (state s) * 2))]) s)
  | 3 | 4 => (Ret VUndef, s)
  | 5 => (Ret (VNum 1), s)
  | 6 => (Ret (VPromise (Fulfilled 3 (VNum 2))), s)
  | 7 => (Ret VUndef, set_state VNull s)
  | _ => (Throw (Thrown (VStr "boom")), s)
  end.

Definition root_local : Local := mkLocal EmptyString [].
Definition user_local : Local := mkLocal "user/" ["user"].

Definition empty_store : Store.t :=
  Store.mk false ∅ [] ∅ [] false (VObj [("count", VNum 0); ("user", VObj [("name", VNull)])]) 0.

(** Two mutations under ["bump"], one under ["user/setName"], one under the
    empty string; two actions under ["both"], one under ["one"]; two
    mutation subscribers. *)
Definition store : Store.t :=
  final ((registerMutation "bump" (VFun 1) root_local ;;;
          registerMutation "bump" (VFun 2) root_local ;;;
          registerMutation "user/setName" (VFun 3) user_local ;;;
          registerMutation EmptyString (VFun 1) root_local ;;;
          registerAction "both" (VFun 5) root_local ;;;
          registerAction "both" (VFun 6) root_local ;;;
          registerAction "one" (VFun 5) root_local ;;;
          subscribe 3 VUndef ;;;
          subscribe 4 VUndef ;;;
          ret tt) empty_store).

End Demo.

(* ===================================================================== *)
(** ** Walking a declaration; the invariant of the subscriber lists *)
(* ===================================================================== *)

(** [modules[key]] on the [modules] object of a declaration.  An object
    has one property per key: a key written twice in an object literal
    stands for its last occurrence. *)
Fixpoint raw_child (key : string) (ms : list (string * RawModule)) : option RawModule :=
  match ms with
  | [] => None
  | (k, c) :: rest =>
      match raw_child key rest with
      | Some c' => Some c'
      | None => if String.eqb k key then Some c else None
      end
  end.

(** The declaration nested in [r] under the keys of [path]:
    [r.modules[k1].modules[k2]...]. *)
Fixpoint raw_descend (path : list string) (r : RawModule) : option RawModule :=
  match path with
  | [] => Some r
  | key :: rest =>
      match raw_modules r with
      | Some ms => raw_child key ms ≫= raw_descend rest
      | None => None
      end
  end.

(** No function is held twice in [_subscribers], no object twice in
    [_actionSubscribers], and the objects allocated by [subscribeAction]
    are the ones the counter has counted. *)
Definition subscribers_wf (s : Store.t) : Prop :=
  NoDup (Store._subscribers s)
  ∧ NoDup (map Store.sub_id (Store._actionSubscribers s))
  ∧ ∀ n, Store.Allocated n ∈ map Store.sub_id (Store._actionSubscribers s)
         → n < Store.allocated s.

(** The module object found at [p], if every segment names a child. *)
Definition resolve (p : list string) (mc : ModuleCollection.Collection)
  : option Mod.ModuleNode :=
  ModuleCollection.root mc ≫= Mod.descend p.

(** The module object at [p], seen without its children, is [x]. *)
Definition shell_at (p : list string) (x : Mod.ModuleNode) (mc : ModuleCollection.Collection)
  : Prop :=
  ∃ m, resolve p mc = Some m ∧ Mod.set_children ∅ m = x.

(** What is found at [t] is the same in [mc'] as in [mc]. *)
Definition same_at (t : list string) (mc mc' : ModuleCollection.Collection) : Prop :=
  resolve t mc' = resolve t mc.

(** Every module that the declaration [newModule] lists, at any depth, is a
    module of the tree under [target], and no [modules] object lists a key
    twice. *)
Fixpoint covered (target : Mod.ModuleNode) (newModule : RawModule) {struct newModule}
  : Prop :=
  match raw_modules newModule with
  | Some ms =>
      NoDup (map fst ms)
      ∧ (fix all (l : list (string * RawModule)) : Prop :=
           match l with
           | [] => True
           | (key, rawChild) :: rest =>
               match Mod.getChild key target with
               | Some child => covered child rawChild
               | None => False
               end ∧ all rest
           end) ms
  | None => True
  end.

(** No two modules of the tree under [target] have the same declaration,
    and none has a declaration that [newModule] holds at another path than
    its own.  Objects with different contents are different objects: the
    declarations of the tree are then objects of their own, and what
    [Module.update] writes into the declaration of one module shows in no
    other module and in no declaration that the update still has to read. *)
Definition unshared_declarations (target : Mod.ModuleNode) (newModule : RawModule) : Prop :=
  (∀ x y mx my,
     Mod.descend x target = Some mx → Mod.descend y target = Some my →
     x ≠ y → Mod._rawModule mx ≠ Mod._rawModule my)
  ∧ (∀ x q mx child,
       Mod.descend x target = Some mx → raw_descend q newModule = Some child →
       x ≠ q → Mod._rawModule mx ≠ child).

(* ===================================================================== *)
(** ** store.js: the module tree installed into the registries *)
(* ===================================================================== *)

(** [obj[key] = v] on an object literal: the property keeps its place when
    it is there, and is added last when it is not. *)
Fixpoint set_field (k : string) (v : Value) (fields : list (string * Value))
  : list (string * Value) :=
  match fields with
  | [] => [(k, v)]
  | (k', v') :: rest =>
      if String.eqb k k' then (k, v) :: rest else (k', v') :: set_field k v rest
  end.

(** [delete obj[key]] *)
Definition remove_field (k : string) (fields : list (string * Value))
  : list (string * Value) :=
  List.filter (λ kv : string * Value, negb (String.eqb k kv.1)) fields.

(** The index that the key [k] names in an array. *)
Definition array_index (k : string) (items : list Value) : option nat :=
  (λ hit : nat * nat, hit.2)
    <$> list_find (λ i : nat, bool_decide (pretty i = k)) (seq 0 (length items)).

(** The state that holds [v] along [path] and is [state] everywhere else:
    what a change in place of the object that [state] holds along [path]
    leaves when the state reaches that object along [path] only. *)
Fixpoint put_nested (state : Value) (path : list string) (v : Value) : Value :=
  match path with
  | [] => v
  | key :: rest =>
      match state with
      | VObj fs => VObj (set_field key (put_nested (field key fs) rest v) fs)
      | VArr items =>
          match array_index key items with
          | Some i =>
              VArr (<[i := put_nested (default VUndef (items !! i)) rest v]> items)
          | None => state
          end
      | _ => state
      end
  end.

(** The keys under which an object of the state holds more than its
    fields here: the keys of [Object.prototype], which an object literal
    inherits, and [__ob__], under which Vue keeps the observer of a reactive
    object.  Under every other key, [obj[key]] is the own property of the
    object, and [undefined] when it has none, as [prop] has it. *)
Definition hidden_keys : list string :=
  ["constructor"; "__defineGetter__"; "__defineSetter__"; "hasOwnProperty";
   "__lookupGetter__"; "__lookupSetter__"; "isPrototypeOf"; "propertyIsEnumerable";
   "toString"; "valueOf"; "__proto__"; "toLocaleString"; "__ob__"].

(** [type.slice(0, n)] and [type.slice(n)] *)
Definition slice_to (n : nat) (s : string) : string := String.substring 0 n s.
Definition slice_from (n : nat) (s : string) : string :=
  String.substring n (String.length s - n) s.

Module StoreModules.
Import Mod ModuleCollection Store.

(** [function wrappedGetter(store)]: the closure stored by
    [registerGetter]; it captures the user's getter and [local]. *)
Record WrappedGetter : Type := mkWrappedGetter {
  getter_raw : Value;
  getter_local : Local }.

(** A [Store] instance with its module tree.  [engine] holds the fields of
    [Store.t]; [_modulesNamespaceMap] holds, for the module object stored
    under a namespace, the context [module.context] that [installModule]
    gave it; [getters] holds the enumerable keys of [store.getters].  The
    values of the getters are computed by the reactive view and are outside
    the model. *)
Record Instance : Type := mkInstance {
  engine : Store.t;
  _modules : Collection;
  _modulesNamespaceMap : gmap string Local;
  _wrappedGetters : gmap string WrappedGetter;
  getters : gset string;
  _makeLocalGettersCache : gmap string (gmap string string) }.

Definition set_engine (e : Store.t) (s : Instance) : Instance :=
  mkInstance e (_modules s) (_modulesNamespaceMap s) (_wrappedGetters s) (getters s)
    (_makeLocalGettersCache s).
Definition set_modules (mc : Collection) (s : Instance) : Instance :=
  mkInstance (engine s) mc (_modulesNamespaceMap s) (_wrappedGetters s) (getters s)
    (_makeLocalGettersCache s).
Definition set_modulesNamespaceMap (m : gmap string Local) (s : Instance) : Instance :=
  mkInstance (engine s) (_modules s) m (_wrappedGetters s) (getters s)
    (_makeLocalGettersCache s).
Definition set_wrappedGetters (g : gmap string WrappedGetter) (s : Instance) : Instance :=
  mkInstance (engine s) (_modules s) (_modulesNamespaceMap s) g (getters s)
    (_makeLocalGettersCache s).
Definition set_getters (g : gset string) (s : Instance) : Instance :=
  mkInstance (engine s) (_modules s) (_modulesNamespaceMap s) (_wrappedGetters s) g
    (_makeLocalGettersCache s).
Definition set_makeLocalGettersCache (c : gmap string (gmap string string)) (s : Instance)
  : Instance :=
  mkInstance (engine s) (_modules s) (_modulesNamespaceMap s) (_wrappedGetters s)
    (getters s) c.

(** Code of the engine run on the instance, and a method of [_modules] run
    on it. *)
Definition on_engine {A} (m : M Store.t A) : M Instance A := λ s,
  let r := m (engine s) in
  mkRun (outcome r) (set_engine (final r) s) (trace r).
Definition on_modules {A} (m : M Collection A) : M Instance A := λ s,
  let r := m (_modules s) in
  mkRun (outcome r) (set_modules (final r) s) (trace r).

(** The argument [path] of [registerModule], [unregisterModule] and
    [hasModule]: a string or an array of strings;
    [if (typeof path === "string") path = [path]]. *)
Inductive PathArg : Type :=
  | PathString (s : string)
  | PathArray (l : list string).

Definition as_path (path : PathArg) : list string :=
  match path with
  | PathString s => [s]
  | PathArray l => l
  end.

(** *** module.js: the loops over a module *)

(** [forEachChild(fn)]: [forEachValue(this._children, fn)], where [keys] is
    [Object.keys(this._children)]. *)
Definition forEachChild {S} (keys : list string) (fn : ModuleNode → string → M S unit)
    (m : ModuleNode) : M S unit :=
  forEach (λ key,
             default (ret tt)
               (map_imap (λ key child, Some (fn child key)) (Mod._children m) !! key))
          keys.

Definition forEachGetter {S} (fn : Value → string → M S unit) (m : ModuleNode) : M S unit :=
  match raw_getters (_rawModule m) with
  | Some g => Util.forEachValue g fn
  | None => ret tt
  end.

Definition forEachAction {S} (fn : Value → string → M S unit) (m : ModuleNode) : M S unit :=
  match raw_actions (_rawModule m) with
  | Some a => Util.forEachValue a fn
  | None => ret tt
  end.

Definition forEachMutation {S} (fn : Value → string → M S unit) (m : ModuleNode)
  : M S unit :=
  match raw_mutations (_rawModule m) with
  | Some mu => Util.forEachValue mu fn
  | None => ret tt
  end.

(** [makeLocalContext(store, namespace, path)]: the closure environment;
    its [dispatch] and [commit] are [Store.local_dispatch] and
    [Store.local_commit], its [state] is [Store.local_state]. *)
Definition makeLocalContext (namespace : string) (path : list string) : Local :=
  mkLocal namespace path.

(** The mutations that [module] declares under [type], as
    [registerMutation] wraps them, in the order of [Object.keys] of the
    [mutations] object of the declaration; and the same for its actions and
    [registerAction]. *)
Definition own_mutations (type namespace : string) (path : list string)
    (module : ModuleNode) : list WrappedMutation :=
  omap (λ kv : string * Value,
          if String.eqb (namespace +:+ kv.1) type
          then Some (mkWrappedMutation kv.2 (makeLocalContext namespace path))
          else None)
       (default [] (raw_mutations (_rawModule module))).

Definition own_actions (type namespace : string) (path : list string)
    (module : ModuleNode) : list WrappedAction :=
  omap (λ kv : string * Value,
          match prop kv.2 "root", prop kv.2 "handler" with
          | Some root, Some handler =>
              if String.eqb (if truthy root then kv.1 else namespace +:+ kv.1) type
              then Some (mkWrappedAction (if truthy handler then handler else kv.2)
                           (makeLocalContext namespace path))
              else None
          | _, _ => None
          end)
       (default [] (raw_actions (_rawModule module))).

Section Host.
Variable __DEV__ : bool.
Variable JSON_stringify : Value → string.
Variable init_state : FnRef → Value.
(** [Vue.set(target, key, val)] and [Vue.delete(target, key)], where
    [target] is the object that the state [st] holds along [path]: the
    state as the call leaves it, or what the call throws.  The call changes
    the target in place, so the change shows along every path by which the
    state reaches that object; which paths these are is not told by the
    values, and is left to the host. *)
Variable Vue_set : Value → list string → string → Value → Outcome Value.
Variable Vue_delete : Value → list string → string → Outcome Value.
(** [key in obj] *)
Variable in_operator : string → Value → Outcome bool.
(** [Object.keys(module._children)] for the module at a path: the order in
    which the children were added is not kept by the map [_children]. *)
Variable children_keys : list string → ModuleNode → list string.

(** [registerGetter(store, type, rawGetter, local)] *)
Definition registerGetter (type : string) (rawGetter : Value) (local : Local)
  : M Instance unit :=
  known <- gets (λ s, _wrappedGetters s !! type) ;;
  match known with
  | Some _ => when __DEV__ (emit (ConsoleError ("[vuex] duplicate getter key: " +:+ type)))
  | None =>
      modify (λ s, set_wrappedGetters
                     (<[type := mkWrappedGetter rawGetter local]> (_wrappedGetters s)) s)
  end.

(** [installModule(store, rootState, path, module, hot)].  [rootState] is
    in every call the object that [store.state] is, or in the constructor
    is about to be: it is the field [state] of the engine. *)
Fixpoint installModule (path : list string) (module : ModuleNode) (hot : bool)
    {struct module} : M Instance unit :=
  let isRoot := bool_decide (length path = 0) in
  namespace <- on_modules (reads (getNamespace path)) ;;
  when (namespaced module)
    (known <- gets (λ s, _modulesNamespaceMap s !! namespace) ;;
     when (bool_decide (is_Some known) && __DEV__)
       (emit (ConsoleError ("[vuex] duplicate namespace " +:+ namespace
                            +:+ " for the namespaced module " +:+ join "/" path))) ;;;
     modify (λ s, set_modulesNamespaceMap
                    (<[namespace := makeLocalContext namespace path]>
                       (_modulesNamespaceMap s)) s)) ;;;
  when (negb isRoot && negb hot)
    (rootState <- gets (λ s, Store.state (engine s)) ;;
     parentState <- lift (getNestedState rootState (slice_init path)) ;;
     let moduleName := last_key path in
     on_engine
       (_withCommit
          (when __DEV__
             (present <- lift (in_operator moduleName parentState) ;;
              when present
                (emit (ConsoleWarn ("[vuex] state field " +:+ dq +:+ moduleName +:+ dq
                                    +:+ " was overridden by a module with the same name at "
                                    +:+ dq +:+ join "." path +:+ dq)))) ;;;
           rootState' <- lift (Vue_set rootState (slice_init path) moduleName
                                 (Mod.state module)) ;;
           modify (set_state rootState')))) ;;;
  let local := makeLocalContext namespace path in
  forEachMutation (λ mutation key,
    on_engine (registerMutation (namespace +:+ key) mutation local)) module ;;;
  forEachAction (λ action key,
    match prop action "root", prop action "handler" with
    | Some root, Some handler =>
        let type := if truthy root then key else namespace +:+ key in
        let handler := if truthy handler then handler else action in
        on_engine (registerAction type handler local)
    | _, _ => throw (TypeError "action.root")
    end) module ;;;
  forEachGetter (λ getter key, registerGetter (namespace +:+ key) getter local) module ;;;
  forEachChild (children_keys path module)
    (λ child key, installModule (path ++ [key]) child hot) module.

(** The handlers of the modules of the tree under [module] in the order in
    which [installModule] comes to them: those of the module, then those of
    the trees under its children, in the order of the keys of the children.
    [own] gives the handlers of one module from its namespace and its path;
    [path] is the path of [module] from the root [r]. *)
Fixpoint in_install_order {W : Type} (own : string → list string → ModuleNode → list W)
    (r : ModuleNode) (path : list string) (module : ModuleNode) {struct module} : list W :=
  own (NamespaceRule.namespace_by_rule r path) path module
  ++ concat (map (λ key,
                    default []
                      (map_imap (λ key child,
                                   Some (in_install_order own r (path ++ [key]) child))
                         (Mod._children module) !! key))
                 (children_keys path module)).

(** [installModule] called with what [_modules.get(path)] or
    [_modules.root] returned: on [undefined] it throws, in
    [getNamespace(path)] or at [module.namespaced]. *)
Definition installModule_found (path : list string) (module : option ModuleNode)
    (hot : bool) : M Instance unit :=
  match module with
  | Some m => installModule path m hot
  | None =>
      on_modules (reads (getNamespace path)) ;;;
      throw (TypeError "undefined.namespaced")
  end.

(** [resetStoreVM(store, state, hot)]: [store.getters] gets one property
    per wrapped getter, and the cache of the local getters is emptied.  The
    rest of the function makes the reactive view of the same state object,
    with the strict-mode watcher, and releases the old view: it changes no
    field of the model. *)
Definition resetStoreVM : M Instance unit :=
  modify (λ s, set_getters (dom (_wrappedGetters s)) (set_makeLocalGettersCache ∅ s)).

(** [resetStore(store, hot)] *)
Definition resetStore (hot : bool) : M Instance unit :=
  modify (λ s, set_modulesNamespaceMap ∅
                 (set_wrappedGetters ∅
                    (set_engine (set_mutations ∅ (set_actions ∅ (engine s))) s))) ;;;
  r <- gets (λ s, root (_modules s)) ;;
  installModule_found [] r true ;;;
  resetStoreVM.

(** An instance as the constructor has it before the module tree is made. *)
Definition blank : Instance :=
  mkInstance (Store.mk false ∅ [] ∅ [] false VUndef 0) (mkCollection None) ∅ ∅ ∅ ∅.

(** [constructor(options)], for options without plugins and with
    [devtools] off, in an environment that passes the assertions of the
    first lines: [options] is the declaration of the root module. *)
Definition new (options : RawModule) : Run Instance unit :=
  (on_modules (register __DEV__ JSON_stringify init_state [] options false) ;;;
   r <- gets (λ s, root (_modules s)) ;;
   match r with
   | Some rootModule =>
       on_engine (modify (set_state (Mod.state rootModule))) ;;;
       installModule [] rootModule false ;;;
       resetStoreVM
   | None => throw (TypeError "undefined.state")
   end) blank.

(** [registerModule(path, rawModule, options)]; [preserveState] is
    [options.preserveState] as a condition. *)
Definition registerModule (path : PathArg) (rawModule : RawModule) (preserveState : bool)
  : M Instance unit :=
  let path := as_path path in
  when __DEV__
    (Util.assert (bool_decide (0 < length path))
       "cannot register the root module by using registerModule.") ;;;
  on_modules (register __DEV__ JSON_stringify init_state path rawModule true) ;;;
  module <- on_modules (reads (get path)) ;;
  installModule_found path module preserveState ;;;
  resetStoreVM.

(** [unregisterModule(path)] *)
Definition unregisterModule (path : PathArg) : M Instance unit :=
  let path := as_path path in
  on_modules (unregister __DEV__ path) ;;;
  on_engine
    (_withCommit
       (st <- gets Store.state ;;
        parentState <- lift (getNestedState st (slice_init path)) ;;
        st' <- lift (Vue_delete st (slice_init path) (last_key path)) ;;
        modify (set_state st'))) ;;;
  resetStore false.

(** [hasModule(path)] *)
Definition hasModule (path : PathArg) : M Instance bool :=
  on_modules (reads (isRegistered (as_path path))).

(** [hotUpdate(newOptions)] *)
Definition hotUpdate (newOptions : RawModule) : M Instance unit :=
  on_modules (update_root __DEV__ JSON_stringify newOptions) ;;;
  resetStore true.

(** [makeLocalGetters(store, namespace)]: the proxy object, as the map from
    each of its properties to the property of [store.getters] it reads. *)
Definition makeLocalGetters (namespace : string) : M Instance (gmap string string) :=
  cached <- gets (λ s, _makeLocalGettersCache s !! namespace) ;;
  match cached with
  | Some gettersProxy => ret gettersProxy
  | None =>
      keys <- gets (λ s, elements (getters s)) ;;
      let splitPos := String.length namespace in
      let gettersProxy :=
        foldr (λ type proxy,
                 if String.eqb (slice_to splitPos type) namespace
                 then <[slice_from splitPos type := type]> proxy
                 else proxy) ∅ keys in
      modify (λ s, set_makeLocalGettersCache
                     (<[namespace := gettersProxy]> (_makeLocalGettersCache s)) s) ;;;
      ret gettersProxy
  end.

(** The getter [local.getters] of a local context. *)
Definition local_getters (local : Local) : M Instance (gmap string string) :=
  if String.eqb (namespace local) EmptyString
  then all <- gets getters ;; ret (set_to_map (λ type, (type, type)) all)
  else makeLocalGetters (namespace local).

End Host.
End StoreModules.

(* ===================================================================== *)
(** ** What the installation of a module tree registers *)
(* ===================================================================== *)

(** The number of modules of the tree under [m]. *)
Fixpoint module_size (m : Mod.ModuleNode) : nat :=
  S (map_fold (λ _ child n, module_size child + n) 0 (Mod._children m)).

(** [w] is the wrapped handler of a mutation declared by a module of the
    tree under [module], and [type] the type under which [installModule]
    registers it: the namespace of that module followed by the key of the
    mutation.  [path] is the path of [module] from the root [r]. *)
Definition mutation_of (r : Mod.ModuleNode) (path : list string) (module : Mod.ModuleNode)
    (type : string) (w : Store.WrappedMutation) : Prop :=
  ∃ q x mutations key handler,
    Mod.descend q module = Some x
    ∧ raw_mutations (Mod._rawModule x) = Some mutations
    ∧ (key, handler) ∈ mutations
    ∧ let namespace := NamespaceRule.namespace_by_rule r (path ++ q) in
      type = namespace +:+ key
      ∧ w = Store.mkWrappedMutation handler (Store.mkLocal namespace (path ++ q)).

(** The same for an action: an action with a truthy [root] property is
    registered under its bare key, and the handler is the [handler]
    property of the action when that is truthy, the action itself
    otherwise. *)
Definition action_of (r : Mod.ModuleNode) (path : list string) (module : Mod.ModuleNode)
    (type : string) (w : Store.WrappedAction) : Prop :=
  ∃ q x actions key action root handler,
    Mod.descend q module = Some x
    ∧ raw_actions (Mod._rawModule x) = Some actions
    ∧ (key, action) ∈ actions
    ∧ prop action "root" = Some root
    ∧ prop action "handler" = Some handler
    ∧ let namespace := NamespaceRule.namespace_by_rule r (path ++ q) in
      type = (if truthy root then key else namespace +:+ key)
      ∧ w = Store.mkWrappedAction (if truthy handler then handler else action)
              (Store.mkLocal namespace (path ++ q)).

(** When [m] returns from an instance that satisfies [Inv], the instance
    satisfies [Inv] again and the entry of [type] in the registry is what it
    held followed by the list [added]. *)
Definition adds {W : Type} (registry : StoreModules.Instance → gmap string (list W))
    (Inv : StoreModules.Instance → Prop) (type : string)
    (m : M StoreModules.Instance unit) (added : list W) : Prop :=
  ∀ s, Inv s → outcome (m s) = Ret tt →
       Inv (final (m s))
       ∧ default [] (registry (final (m s)) !! type)
         = default [] (registry s !! type) ++ added.

(** The observation [f] of the object is the same after as before. *)
Definition unchanged {S X : Type} (f : S → X) (s s' : S) : Prop := f s' = f s.

(** Walking [path] from [state] reads every key from an object literal. *)
Fixpoint object_walk (state : Value) (path : list string) : Prop :=
  match path with
  | [] => True
  | key :: rest =>
      match state with
      | VObj fs => object_walk (field key fs) rest
      | _ => False
      end
  end.

(** The own properties of a state object. *)
Definition own_fields (state : Value) : list (string * Value) :=
  match state with
  | VObj fs => fs
  | _ => []
  end.

(** In the state [st], every module of the tree under [module] has its
    state object at its path: [st] read along [path ++ q] is an object, and
    that object has the properties of the state of the module at [q],
    except under the keys of the children of that module. *)
Definition state_installed (path : list string) (module : Mod.ModuleNode) (st : Value)
  : Prop :=
  ∀ q x, Mod.descend q module = Some x →
         ∃ fs, Store.getNestedState st (path ++ q) = Ret (VObj fs)
               ∧ ∀ k, Mod.getChild k x = None → field k fs = field k (own_fields (Mod.state x)).

(** The states [st] and [st'] read the same along every path that leaves
    [path] at some key. *)
Definition same_beside (path : list string) (st st' : Value) : Prop :=
  ∀ common k k' rest rest',
    path = common ++ k :: rest → k ≠ k' →
    Store.getNestedState st' (common ++ k' :: rest')
    = Store.getNestedState st (common ++ k' :: rest').

(** When [m] returns from an object that satisfies [P], the object it
    leaves satisfies [Q]. *)
Definition returns_with {S : Type} (P : S → Prop) (m : M S unit) (Q : S → Prop) : Prop :=
  ∀ s, P s → outcome (m s) = Ret tt → Q (final (m s)).

(** The state [st] after the installation of the tree under [module] at
    [path] into the state [st0]. *)
Definition subtree_installed (path : list string) (module : Mod.ModuleNode)
    (st0 st : Value) : Prop :=
  object_walk st path ∧ state_installed path module st ∧ same_beside path st0 st.

(** The state [st] when the state of [module] is at [path] and the trees
    under its children with the keys [done] are installed. *)
Definition children_installed (path : list string) (module : Mod.ModuleNode)
    (st0 : Value) (done : list string) (st : Value) : Prop :=
  object_walk st path
  ∧ (∃ fs, Store.getNestedState st path = Ret (VObj fs)
           ∧ ∀ k, Mod.getChild k module = None
                  → field k fs = field k (own_fields (Mod.state module)))
  ∧ (∀ k child, k ∈ done → Mod.getChild k module = Some child
                → state_installed (path ++ [k]) child st)
  ∧ same_beside path st0 st.

(** [Vue.set] and [Vue.delete] on a state in which no object is reached
    along two paths: the change of the target, an object that the state
    holds along [parent], shows along that path and nowhere else. *)
Definition sets_along_path
    (Vue_set : Value → list string → string → Value → Outcome Value) : Prop :=
  ∀ st parent key v fs,
    object_walk st parent →
    Store.getNestedState st parent = Ret (VObj fs) →
    Vue_set st parent key v = Ret (put_nested st parent (VObj (set_field key v fs))).

Definition deletes_along_path
    (Vue_delete : Value → list string → string → Outcome Value) : Prop :=
  ∀ st parent key fs,
    object_walk st parent →
    Store.getNestedState st parent = Ret (VObj fs) →
    Vue_delete st parent key = Ret (put_nested st parent (VObj (remove_field key fs))).

(* ===================================================================== *)
(** ** More concrete stores and declarations *)
(* ===================================================================== *)

Module Demo2.
Import Mod ModuleCollection Store Demo.

(** [Demo.store] with a mutation whose handler throws. *)
Definition failing_store : Store.t :=
  final (registerMutation "bad" (VFun 9) root_local store).

(** [Demo.store] with two action subscribers: a function that throws, then
    one that does nothing. *)
Definition watched_store : Store.t :=
  final ((subscribeAction (SubscriberFn 9) VUndef ;;;
          subscribeAction (SubscriberFn 3) VUndef ;;;
          ret tt) store).

(** [Demo.store] with three action subscribers: the second one throws. *)
Definition late_thrower_store : Store.t :=
  final ((subscribeAction (SubscriberFn 3) VUndef ;;;
          subscribeAction (SubscriberFn 9) VUndef ;;;
          subscribeAction (SubscriberFn 4) VUndef ;;;
          ret tt) store).

(** A declaration with a getter that is not a function. *)
Definition malformed_decl : RawModule :=
  mkRawModule VUndef VUndef (Some [("g", VNum 0)]) None None None.

(** A new declaration of the root of [Demo.siblings]: the child [a] gets a
    mutation and loses its namespace, the child [b] is listed with nothing
    in it. *)
Definition reload_decl : RawModule :=
  mkRawModule VUndef VUndef None None None
    (Some [("a", mkRawModule VUndef VUndef None (Some [("increment", VFun 2)]) None None);
           ("b", decl false [])]).

(** A host for the stores below, in which no object of the state is
    reached along two paths: [Vue.set] and [Vue.delete] change the state
    along the path of their target only, and throw when the target is not an
    object.  [key in obj] holds of the fields and of the hidden keys. *)
Definition Vue_set (st : Value) (path : list string) (key : string) (val : Value)
  : Outcome Value :=
  match Store.getNestedState st path with
  | Ret (VObj fs) => Ret (put_nested st path (VObj (set_field key val fs)))
  | _ => Throw (TypeError "Vue.set")
  end.

Definition Vue_delete (st : Value) (path : list string) (key : string) : Outcome Value :=
  match Store.getNestedState st path with
  | Ret (VObj fs) => Ret (put_nested st path (VObj (remove_field key fs)))
  | _ => Throw (TypeError "Vue.delete")
  end.

Definition in_operator (key : string) (obj : Value) : Outcome bool :=
  match obj with
  | VObj fs => Ret (bool_decide (key ∈ fs.*1) || bool_decide (key ∈ hidden_keys))
  | _ => Throw (TypeError "in")
  end.

(** [Object.keys(module._children)] for the trees below, whose keys are not
    array indices: the children that the declaration of the module lists,
    in the order of the declaration, are the ones added first; the children
    added by [registerModule], of which the stores below have at most one
    per module, come after them. *)
Definition children_keys (path : list string) (m : ModuleNode) : list string :=
  let declared :=
    filter (λ key, is_Some (getChild key m))
      (remove_dups (default [] (raw_modules (_rawModule m))).*1) in
  declared ++ filter (λ key, key ∉ declared) (map_to_list (_children m)).*1.

(** [{ state: { count: 0 }, mutations: { increment },
       modules: { user: Demo.leaf_decl, b: {} } }] *)
Definition shop_decl : RawModule :=
  mkRawModule VUndef (VObj [("count", VNum 0)]) None (Some [("increment", VFun 1)]) None
    (Some [("user", leaf_decl); ("b", decl false [])]).

(** The store constructed from that declaration in a development build,
    its root module and the module at [user]. *)
Definition shop : Run StoreModules.Instance unit :=
  StoreModules.new true JSON_stringify init_state Vue_set in_operator children_keys
    shop_decl.

Definition shop_root : ModuleNode :=
  default (Mod.new init_state shop_decl false)
    (root (StoreModules._modules (final shop))).

Definition shop_user : ModuleNode := default shop_root (getChild "user" shop_root).

(** A declaration of a module for [registerModule]. *)
Definition cart_decl : RawModule :=
  mkRawModule (VBool true) (VObj [("items", VNum 0)]) None
    (Some [("add", VFun 1)]) (Some [("checkout", VFun 5)]) None.

(** The store after [registerModule('cart', cart_decl)]. *)
Definition shop_with_cart : Run StoreModules.Instance unit :=
  StoreModules.registerModule true JSON_stringify init_state Vue_set in_operator
    children_keys (StoreModules.PathString "cart") cart_decl false (final shop).

(** The module at [cart] in that store. *)
Definition shop_cart : ModuleNode :=
  default shop_root
    (getChild "cart"
       (default shop_root (root (StoreModules._modules (final shop_with_cart))))).

(** A new declaration of the root of the store: another handler for
    [increment], and no children. *)
Definition shop_reload_decl : RawModule :=
  mkRawModule VUndef VUndef None (Some [("increment", VFun 2)]) None None.

(** A declaration in which four modules declare the mutation [increment],
    none of them in a namespace: the root, its children [b] and [a], listed
    in this order, and the child [c] of [a]; and the store constructed from
    it, with its root module. *)
Definition market_decl : RawModule :=
  mkRawModule VUndef VUndef None (Some [("increment", VFun 1)]) None
    (Some [("b", mkRawModule VUndef VUndef None (Some [("increment", VFun 2)]) None None);
           ("a", mkRawModule VUndef VUndef None (Some [("increment", VFun 3)]) None
                   (Some [("c", mkRawModule VUndef VUndef None
                                  (Some [("increment", VFun 4)]) None None)]))]).

Definition market : Run StoreModules.Instance unit :=
  StoreModules.new true JSON_stringify init_state Vue_set in_operator children_keys
    market_decl.

Definition market_root : ModuleNode :=
  default (Mod.new init_state market_decl false)
    (root (StoreModules._modules (final market))).

(** [{ getters: { total }, modules: { user: { namespaced: true,
       getters: { name, age } } } }] and the store constructed from it. *)
Definition catalog_decl : RawModule :=
  mkRawModule VUndef VUndef (Some [("total", VFun 3)]) None None
    (Some [("user", mkRawModule (VBool true) VUndef
                      (Some [("name", VFun 3); ("age", VFun 4)]) None None None)]).

Definition catalog : Run StoreModules.Instance unit :=
  StoreModules.new true JSON_stringify init_state Vue_set in_operator children_keys
    catalog_decl.

End Demo2.

(* ===================================================================== *)
(** * Properties *)
(* ===================================================================== *)

(** ** Computations *)

Section MonadFacts.
Context {S : Type}.

Lemma bind_ret_inv {A B} (m : M S A) (k : A → M S B) (s : S) (b : B) :
  outcome (bind m k s) = Ret b →
  ∃ a, outcome (m s) = Ret a
       ∧ outcome (k a (final (m s))) = Ret b
       ∧ final (bind m k s) = final (k a (final (m s)))
       ∧ trace (bind m k s) = trace (m s) ++ trace (k a (final (m s))).
Proof.
  unfold bind. destruct (outcome (m s)) as [a|e] eqn:Hm; simpl; [|discriminate].
  intros Hk. exists a. auto.
Qed.

Lemma bind_throw {A B} (m : M S A) (k : A → M S B) (s : S) (e : Exn) :
  outcome (m s) = Throw e →
  bind m k s = mkRun (Throw e) (final (m s)) (trace (m s)).
Proof. unfold bind. intros ->. reflexivity. Qed.

Lemma bind_ret {A B} (m : M S A) (k : A → M S B) (s : S) (a : A) :
  outcome (m s) = Ret a →
  bind m k s = mkRun (outcome (k a (final (m s)))) (final (k a (final (m s))))
                     (trace (m s) ++ trace (k a (final (m s)))).
Proof. unfold bind. intros ->. reflexivity. Qed.

Lemma Run_eta {A} (r : Run S A) : mkRun (outcome r) (final r) (trace r) = r.
Proof. by destruct r. Qed.

(** A first step that only computes a value. *)
Lemma bind_pure {A B} (m : M S A) (k : A → M S B) (s : S) (a : A) :
  m s = mkRun (Ret a) s [] → bind m k s = k a s.
Proof. intros H. unfold bind. rewrite H. simpl. apply Run_eta. Qed.

(** A last step that only returns what the computation returned. *)
Lemma bind_ret_same {A} (m : M S A) (a : A) (s : S) :
  (∀ a', outcome (m s) = Ret a' → a' = a) → bind m (λ _, ret a) s = m s.
Proof.
  intros H. unfold bind. destruct (m s) as [[a'|e] s' tr]; simpl in *; [|reflexivity].
  by rewrite (H a' eq_refl), app_nil_r.
Qed.

Lemma bind_then_log {A} (log : list Event) (m : M S A) (k k' : A → M S unit) (s : S) :
  (∀ a, outcome (m s) = Ret a →
        k a (final (m s)) = then_log log (k' a (final (m s)))) →
  bind m k s = then_log log (bind m k' s).
Proof.
  intros H. unfold bind. destruct (outcome (m s)) as [a|e] eqn:Hm.
  - rewrite (H a eq_refl). unfold then_log. simpl.
    destruct (outcome (k' a (final (m s)))) eqn:Hk; simpl.
    + by rewrite (assoc_L (++)).
    + by rewrite Hk.
  - unfold then_log. simpl. reflexivity.
Qed.

Lemma preserves_bind (R : S → S → Prop) `{!Transitive R} {A B}
    (m : M S A) (k : A → M S B) :
  preserves R m → (∀ a, preserves R (k a)) → preserves R (bind m k).
Proof.
  intros Hm Hk s. unfold bind.
  destruct (outcome (m s)) as [a|e]; simpl; [|apply Hm].
  etrans; [apply Hm | apply Hk].
Qed.

Lemma preserves_pure (R : S → S → Prop) `{!Reflexive R} {A} (m : M S A) :
  (∀ s, final (m s) = s) → preserves R m.
Proof. intros H s. rewrite H. reflexivity. Qed.

Lemma when_final (c : bool) (m : M S unit) :
  (∀ s, final (m s) = s) → ∀ s, final (when c m s) = s.
Proof. intros H s. destruct c; simpl; auto. Qed.

Lemma forEach_final {A} (fn : A → M S unit) (l : list A) :
  (∀ x s, final (fn x s) = s) → ∀ s, final (forEach fn l s) = s.
Proof.
  intros H. induction l as [|x l IH]; intros s; [reflexivity|].
  simpl. unfold bind. destruct (outcome (fn x s)); simpl; rewrite ?IH; apply H.
Qed.

Lemma forEachValue_final {V} (obj : list (string * V)) (fn : V → string → M S unit) :
  (∀ v k s, final (fn v k s) = s) → ∀ s, final (Util.forEachValue obj fn s) = s.
Proof.
  intros H. unfold Util.forEachValue. induction obj as [|[k v] l IH]; intros s; [reflexivity|].
  unfold bind. destruct (outcome (fn v k s)); simpl; rewrite ?IH; apply H.
Qed.

Lemma bind_outcome_ret {A B} (m : M S A) (k : A → M S B) (s : S) (a : A) (b : B) :
  outcome (m s) = Ret a → outcome (k a (final (m s))) = Ret b →
  outcome (bind m k s) = Ret b.
Proof. intros Hm Hk. unfold bind. rewrite Hm. exact Hk. Qed.

Lemma forEach_returns {A} (fn : A → M S unit) (l : list A) :
  (∀ x s, x ∈ l → outcome (fn x s) = Ret tt) → ∀ s, outcome (forEach fn l s) = Ret tt.
Proof.
  induction l as [|x l IH]; intros H s; [reflexivity|].
  simpl. eapply bind_outcome_ret; [apply H; by left|].
  apply IH. intros y s' Hy. apply H. by right.
Qed.

Lemma stateless_ret {A} (a : A) : stateless (@ret S A a) (ret a).
Proof. intros s. reflexivity. Qed.

Lemma stateless_lift {A} (o : Outcome A) : stateless (@lift S A o) (lift o).
Proof. intros s. reflexivity. Qed.

Lemma stateless_assert (condition : bool) (msg : string) :
  stateless (@Util.assert S condition msg) (Util.assert condition msg).
Proof. intros s. by destruct condition. Qed.

Lemma stateless_bind {A B} (m : M S A) (m' : M unit A) (k : A → M S B) (k' : A → M unit B) :
  stateless m m' → (∀ a, stateless (k a) (k' a)) → stateless (bind m k) (bind m' k').
Proof.
  intros Hm Hk s. unfold bind. rewrite (Hm s). simpl.
  destruct (outcome (m' tt)) as [a|e] eqn:Hout; [|reflexivity].
  rewrite (Hk a s). simpl.
  by destruct (final (m' tt)).
Qed.

Lemma stateless_forEach {A} (fn : A → M S unit) (fn' : A → M unit unit) (l : list A) :
  (∀ x, stateless (fn x) (fn' x)) → stateless (forEach fn l) (forEach fn' l).
Proof.
  intros H. induction l as [|x l IH]; [apply stateless_ret|].
  simpl. apply stateless_bind; [apply H | intros _; exact IH].
Qed.

Lemma stateless_forEachValue {V} (obj : list (string * V))
    (fn : V → string → M S unit) (fn' : V → string → M unit unit) :
  (∀ v k, stateless (fn v k) (fn' v k)) →
  stateless (Util.forEachValue obj fn) (Util.forEachValue obj fn').
Proof.
  intros H. unfold Util.forEachValue. induction obj as [|[k v] l IH]; [apply stateless_ret|].
  apply stateless_bind; [apply H | intros _; exact IH].
Qed.

(** A loop whose every step returns when [P] holds, and keeps [P]. *)
Lemma forEachValue_returns (P : S → Prop) {V} (obj : list (string * V))
    (fn : V → string → M S unit) :
  Forall (λ kv, keeps P (fn kv.2 kv.1)
                ∧ ∀ s, P s → outcome (fn kv.2 kv.1 s) = Ret tt) obj →
  ∀ s, P s → outcome (Util.forEachValue obj fn s) = Ret tt.
Proof.
  unfold Util.forEachValue. induction 1 as [|[k v] l [Hkeep Hret] Hl IH]; intros s Hs.
  - reflexivity.
  - unfold bind. simpl in *. rewrite (Hret s Hs). simpl. apply IH. by apply Hkeep.
Qed.

End MonadFacts.

Lemma reduce_cons {A B} (fn : A → B → Outcome A) (x : B) (l : list B) (init : A) :
  reduce fn (x :: l) init =
  match fn init x with Ret a => reduce fn l a | Throw e => Throw e end.
Proof.
  unfold reduce. simpl. destruct (fn init x) as [a|e]; [reflexivity|].
  induction l as [|y l IH]; [reflexivity | exact IH].
Qed.

Lemma reduce_app {A B} (fn : A → B → Outcome A) (l l' : list B) (init : A) :
  reduce fn (l ++ l') init =
  match reduce fn l init with Ret a => reduce fn l' a | Throw e => Throw e end.
Proof.
  revert init. induction l as [|x l IH]; intros init; [reflexivity|].
  rewrite <- app_comm_cons, !reduce_cons. destruct (fn init x); [apply IH | reflexivity].
Qed.

(** ** Paths *)

Lemma slice_init_snoc (path : list string) (key : string) :
  slice_init (path ++ [key]) = path.
Proof. apply removelast_last. Qed.

Lemma last_key_snoc (path : list string) (key : string) :
  last_key (path ++ [key]) = key.
Proof. apply last_last. Qed.

Lemma path_split (path : list string) :
  path ≠ [] → path = slice_init path ++ [last_key path].
Proof. intros H. apply app_removelast_last. exact H. Qed.

(* ===================================================================== *)
(** ** The module tree *)
(* ===================================================================== *)

Section TreeFacts.
Import Mod ModuleCollection.

Lemma descend_app (p q : list string) (m : ModuleNode) :
  descend (p ++ q) m = descend p m ≫= descend q.
Proof.
  revert m. induction p as [|k p IH]; intros m; [reflexivity|].
  simpl. destruct (getChild k m) as [c|]; simpl; [apply IH | reflexivity].
Qed.

Lemma descend_snoc (p : list string) (key : string) (m : ModuleNode) :
  descend (p ++ [key]) m = descend p m ≫= getChild key.
Proof.
  rewrite descend_app. destruct (descend p m) as [x|]; simpl; [|reflexivity].
  destruct (getChild key x); reflexivity.
Qed.

Lemma getChild_addChild (key key' : string) (c m : ModuleNode) :
  getChild key' (addChild key c m) = if decide (key = key') then Some c else getChild key' m.
Proof. unfold getChild, addChild. simpl. apply lookup_insert. Qed.

Lemma getChild_removeChild (key key' : string) (m : ModuleNode) :
  getChild key' (removeChild key m) = if decide (key = key') then None else getChild key' m.
Proof. unfold getChild, removeChild. simpl. apply lookup_delete. Qed.

(** What [at_path] does to the node it reaches, and to the nodes above it. *)
Lemma descend_at_path (p q : list string) (f : ModuleNode → ModuleNode) (m x : ModuleNode) :
  descend p m = Some x →
  descend p (at_path (p ++ q) f m) = Some (at_path q f x).
Proof.
  revert m. induction p as [|k p IH]; intros m; simpl.
  - intros [= ->]. reflexivity.
  - destruct (getChild k m) as [c|] eqn:Hc; simpl; [|discriminate].
    intros Hx. rewrite getChild_addChild, decide_True by reflexivity. simpl.
    apply IH, Hx.
Qed.

Lemma at_path_unresolved (p : list string) (f : ModuleNode → ModuleNode) (m : ModuleNode) :
  descend p m = None → at_path p f m = m.
Proof.
  revert m. induction p as [|k p IH]; intros m; simpl; [discriminate|].
  destruct (getChild k m) as [c|] eqn:Hc; simpl; [|reflexivity].
  intros Hx. rewrite (IH _ Hx). unfold addChild, set_children.
  unfold getChild in Hc. rewrite (insert_id _ _ _ Hc). destruct m; reflexivity.
Qed.

Lemma runtime_at_path (p : list string) (f : ModuleNode → ModuleNode) (m : ModuleNode) :
  (∀ x, runtime (f x) = runtime x) → runtime (at_path p f m) = runtime m.
Proof.
  intros Hf. destruct p as [|k p]; simpl; [apply Hf|].
  destruct (getChild k m); reflexivity.
Qed.

(** [get] in terms of [descend]. *)
Lemma get_from_undefined (path : list string) :
  get_from None path =
  if path is [] then Ret None else Throw (TypeError "undefined.getChild").
Proof. destruct path as [|k p]; [reflexivity|]. unfold get_from. by rewrite reduce_cons. Qed.

Lemma get_from_cons (key : string) (path : list string) (m : ModuleNode) :
  get_from (Some m) (key :: path) = get_from (getChild key m) path.
Proof. unfold get_from. by rewrite reduce_cons. Qed.

Lemma get_from_resolved (path : list string) (m x : ModuleNode) :
  descend path m = Some x → get_from (Some m) path = Ret (Some x).
Proof.
  revert m. induction path as [|k p IH]; intros m; simpl.
  - intros [= ->]. reflexivity.
  - rewrite get_from_cons. destruct (getChild k m) as [c|]; simpl; [apply IH | discriminate].
Qed.

Lemma get_resolved (path : list string) (mc : Collection) (r x : ModuleNode) :
  root mc = Some r → descend path r = Some x → get path mc = Ret (Some x).
Proof. intros Hr Hx. unfold get. rewrite Hr. apply (get_from_resolved _ _ _ Hx). Qed.

Lemma get_from_app (p q : list string) (m x : ModuleNode) :
  descend p m = Some x → get_from (Some m) (p ++ q) = get_from (Some x) q.
Proof.
  intros Hx. unfold get_from. rewrite reduce_app.
  change (reduce _ p (Some m)) with (get_from (Some m) p).
  rewrite (get_from_resolved _ _ _ Hx). reflexivity.
Qed.

(** C5 (as amended).  Let [key] be the first segment of a path that does not
    name a child: the segments [pre] before it resolve to a module [p], and
    [p] has no child [key].  Then [get] returns [undefined] without raising
    exactly when [key] is the last segment; when further segments [post]
    follow, [getChild] is called on [undefined] and [get] raises a
    TypeError. *)
Theorem get_first_missing_segment (mc : Collection) (r p : ModuleNode)
    (pre post : list string) (key : string) :
  root mc = Some r →
  descend pre r = Some p →
  getChild key p = None →
  get (pre ++ key :: post) mc =
  if post is [] then Ret None else Throw (TypeError "undefined.getChild").
Proof.
  intros Hr Hp Hk. unfold get. rewrite Hr.
  rewrite (get_from_app _ _ _ _ Hp), get_from_cons, Hk.
  apply get_from_undefined.
Qed.

End TreeFacts.

(* ===================================================================== *)
(** ** Namespaces *)
(* ===================================================================== *)

Section NamespaceFacts.
Import Mod ModuleCollection NamespaceRule.

Lemma append_cons (ch : Ascii.ascii) (a b : string) :
  String ch a +:+ b = String ch (a +:+ b).
Proof. reflexivity. Qed.

Lemma append_assoc (a b c : string) : (a +:+ b) +:+ c = a +:+ (b +:+ c).
Proof.
  induction a as [|ch a IH]; [reflexivity|].
  rewrite !append_cons. f_equal. exact IH.
Qed.

Lemma append_empty_r (a : string) : a +:+ EmptyString = a.
Proof.
  induction a as [|ch a IH]; [reflexivity|].
  rewrite append_cons. f_equal. exact IH.
Qed.

Lemma concat_empty_cons (a : string) (l : list string) :
  String.concat EmptyString (a :: l) = a +:+ String.concat EmptyString l.
Proof. destruct l; simpl; [by rewrite append_empty_r | reflexivity]. Qed.

Lemma namespace_by_rule_cons (m c : ModuleNode) (key : string) (rest : list string) :
  getChild key m = Some c →
  namespace_by_rule m (key :: rest)
  = (if namespaced c then key +:+ "/" else EmptyString) +:+ namespace_by_rule c rest.
Proof.
  intros Hc. unfold namespace_by_rule. cbn [nodes_on_path]. rewrite Hc.
  cbn [List.filter snd]. destruct (namespaced c).
  - cbn [map fst]. apply concat_empty_cons.
  - reflexivity.
Qed.

(** The accumulator of the walk, started at any node with any prefix. *)
Lemma namespace_walk (path : list string) (m x : ModuleNode) (prefix : string) :
  descend path m = Some x →
  reduce getNamespace_step path (Some m, prefix)
  = Ret (Some x, prefix +:+ namespace_by_rule m path).
Proof.
  revert m prefix. induction path as [|key rest IH]; intros m prefix.
  - intros [= ->]. unfold reduce, namespace_by_rule. cbn. by rewrite append_empty_r.
  - cbn [descend]. destruct (getChild key m) as [c|] eqn:Hc; [|discriminate].
    intros Hx. rewrite reduce_cons. cbn [getNamespace_step]. rewrite Hc.
    rewrite (IH _ _ Hx), (namespace_by_rule_cons _ _ _ _ Hc).
    by rewrite append_assoc.
Qed.

(** C3.  When every segment of [path] names a child, [getNamespace(path)]
    is the concatenation, root to node, of [key + "/"] for exactly the nodes
    on the path whose own [namespaced] flag is true; a node whose flag is
    false contributes nothing, whatever the flags of its ancestors. *)
Theorem getNamespace_by_rule (mc : Collection) (r x : ModuleNode) (path : list string) :
  root mc = Some r →
  descend path r = Some x →
  getNamespace path mc = Ret (namespace_by_rule r path).
Proof.
  intros Hr Hx. unfold getNamespace. rewrite Hr.
  by rewrite (namespace_walk _ _ _ _ Hx).
Qed.

(** One more segment adds the key of the node it reaches when that node is
    namespaced, and nothing otherwise. *)
Lemma namespace_by_rule_snoc (r p c : ModuleNode) (path : list string) (key : string) :
  descend path r = Some p →
  getChild key p = Some c →
  namespace_by_rule r (path ++ [key])
  = namespace_by_rule r path +:+ (if namespaced c then key +:+ "/" else EmptyString).
Proof.
  revert r. induction path as [|k rest IH]; intros r.
  - intros [= ->] Hc. rewrite app_nil_l, (namespace_by_rule_cons _ _ _ _ Hc).
    unfold namespace_by_rule. cbn. by rewrite append_empty_r.
  - cbn [descend]. destruct (getChild k r) as [c'|] eqn:Hc'; [|discriminate].
    intros Hp Hc. rewrite <- app_comm_cons, !(namespace_by_rule_cons _ _ _ _ Hc').
    rewrite (IH _ Hp Hc). by rewrite append_assoc.
Qed.

End NamespaceFacts.

(* ===================================================================== *)
(** ** Registration *)
(* ===================================================================== *)

(** Induction on a declaration and the declarations nested in it. *)
Section RawModuleInduction.
Variable P : RawModule → Prop.
Hypothesis step : ∀ ns st g mu a oms,
  (if oms is Some ms then Forall (λ kr : string * RawModule, P kr.2) ms else True) →
  P (mkRawModule ns st g mu a oms).

Fixpoint RawModule_nested_ind (r : RawModule) : P r :=
  match r with
  | mkRawModule ns st g mu a oms =>
      step ns st g mu a oms
        (match oms as o
               return (if o is Some ms then Forall (λ kr : string * RawModule, P kr.2) ms
                       else True) with
         | Some ms =>
             (fix go (l : list (string * RawModule))
                : Forall (λ kr : string * RawModule, P kr.2) l :=
                match l with
                | [] => List.Forall_nil _
                | kr :: l' =>
                    @List.Forall_cons _ (λ kr : string * RawModule, P kr.2) kr l'
                      (match kr as kr0 return P kr0.2 with
                       | (_, r') => RawModule_nested_ind r'
                       end)
                      (go l')
                end) ms
         | None => I
         end)
  end.
End RawModuleInduction.

Section PreservationFacts.
Context {S : Type}.

Lemma keeps_bind (P : S → Prop) {A B} (m : M S A) (k : A → M S B) :
  keeps P m → (∀ a, keeps P (k a)) → keeps P (bind m k).
Proof.
  intros Hm Hk s Hs. unfold bind.
  destruct (outcome (m s)) as [a|e]; simpl; [|by apply Hm].
  by apply Hk, Hm.
Qed.

Lemma keeps_pure (P : S → Prop) {A} (m : M S A) :
  (∀ s, final (m s) = s) → keeps P m.
Proof. intros H s Hs. by rewrite H. Qed.

Lemma keeps_forEachValue (P : S → Prop) {V} (obj : list (string * V))
    (fn : V → string → M S unit) :
  Forall (λ kv, keeps P (fn kv.2 kv.1)) obj → keeps P (Util.forEachValue obj fn).
Proof.
  unfold Util.forEachValue. induction 1 as [|[k v] l Hkv Hl IH].
  - by apply keeps_pure.
  - apply keeps_bind; [exact Hkv | intros _; exact IH].
Qed.

End PreservationFacts.

Section RegisterFacts.
Import Mod ModuleCollection.
Variable __DEV__ : bool.
Variable JSON_stringify : Value → string.
Variable init_state : FnRef → Value.

#[local] Abbreviation register := (register __DEV__ JSON_stringify init_state).
#[local] Abbreviation unregister := (unregister __DEV__).
#[local] Abbreviation assertRawModule := (assertRawModule JSON_stringify).

Lemma assertRawModule_final {S} (path : list string) (raw : RawModule) (s : S) :
  final (assertRawModule path raw s) = s.
Proof.
  revert s. unfold ModuleCollection.assertRawModule. apply forEach_final.
  intros [key [[get_key assert_fn] expected]] s.
  destruct (get_key raw) as [obj|]; [|reflexivity].
  apply forEachValue_final. clear s. intros v k s.
  unfold bind, lift. simpl. destruct (assert_fn v) as [ok|e]; simpl; [|reflexivity].
  unfold Util.assert. by destruct ok.
Qed.

Lemma register_unfold (path : list string) (rawModule : RawModule) (runtime : bool) :
  register path rawModule runtime =
  (when __DEV__ (assertRawModule path rawModule) ;;;
   (if bool_decide (length path = 0) then
      modify (λ _, mkCollection (Some (Mod.new init_state rawModule runtime)))
    else
      parent <- reads (get (slice_init path)) ;;
      match parent with
      | Some _ =>
          modify (on_root (at_path (slice_init path)
                    (addChild (last_key path) (Mod.new init_state rawModule runtime))))
      | None => throw (TypeError "undefined.addChild")
      end) ;;;
   match raw_modules rawModule with
   | Some ms =>
       Util.forEachValue ms (λ rawChildModule key,
         register (path ++ [key]) rawChildModule runtime)
   | None => ret tt
   end).
Proof. destruct rawModule; reflexivity. Qed.

Lemma node_at_modified_below (p s : list string) (rt : bool) (f : ModuleNode → ModuleNode)
    (mc : Collection) :
  (∀ x, runtime (f x) = runtime x) →
  node_at p rt mc → node_at p rt (on_root (at_path (p ++ s) f) mc).
Proof.
  intros Hf (r & m & Hr & Hm & Hrt). exists (at_path (p ++ s) f r), (at_path s f m).
  split; [unfold on_root; by rewrite Hr|].
  split; [by apply descend_at_path|].
  by rewrite runtime_at_path.
Qed.

(** Registering strictly below [p] leaves the module at [p] in place. *)
Lemma register_keeps_node (p : list string) (rt : bool) (raw : RawModule) :
  ∀ (s : list string) (rt' : bool),
    s ≠ [] → keeps (node_at p rt) (register (p ++ s) raw rt').
Proof.
  induction raw as [ns st g mu a oms IH] using RawModule_nested_ind.
  intros s rt' Hs. rewrite register_unfold.
  apply keeps_bind.
  { apply keeps_pure. intros mc. apply when_final. intros mc'. apply assertRawModule_final. }
  intros _. apply keeps_bind.
  - rewrite bool_decide_false
      by (rewrite length_app; destruct s; [done | simpl; lia]).
    apply keeps_bind; [by apply keeps_pure|].
    intros [parent|]; [|by apply keeps_pure].
    intros mc Hmc. unfold modify. simpl.
    unfold slice_init. rewrite removelast_app by exact Hs.
    by apply node_at_modified_below.
  - intros _. simpl. destruct oms as [ms|]; [|by apply keeps_pure].
    apply keeps_forEachValue. eapply Forall_impl; [exact IH|].
    intros [k rawChild] Hchild. simpl in *. rewrite <- (assoc_L (++)).
    apply Hchild. by destruct s.
Qed.

Lemma node_at_parent (p : list string) (rt : bool) (mc : Collection) :
  p ≠ [] → node_at p rt mc →
  ∃ r parent m, root mc = Some r ∧ descend (slice_init p) r = Some parent
                ∧ getChild (last_key p) parent = Some m ∧ runtime m = rt.
Proof.
  intros Hp (r & m & Hr & Hm & Hrt). rewrite (path_split p Hp), descend_snoc in Hm.
  destruct (descend (slice_init p) r) as [parent|] eqn:Hparent; [|discriminate].
  exists r, parent, m. auto.
Qed.

Lemma isRegistered_node (p : list string) (rt : bool) (mc : Collection) :
  p ≠ [] → node_at p rt mc → isRegistered p mc = Ret true.
Proof.
  intros Hp Hnode.
  destruct (node_at_parent _ _ _ Hp Hnode) as (r & parent & m & Hr & Hpar & Hm & _).
  unfold isRegistered. rewrite (get_resolved _ _ _ _ Hr Hpar).
  unfold hasChild. unfold getChild in Hm. rewrite Hm. by rewrite bool_decide_true.
Qed.

(** [unregister] on a module whose [runtime] flag is false does nothing. *)
Lemma unregister_not_runtime (p : list string) (mc : Collection) :
  p ≠ [] → node_at p false mc → unregister p mc = mkRun (Ret tt) mc [].
Proof.
  intros Hp Hnode.
  destruct (node_at_parent _ _ _ Hp Hnode) as (r & parent & m & Hr & Hpar & Hm & Hrt).
  unfold ModuleCollection.unregister, bind, reads. simpl.
  rewrite (get_resolved _ _ _ _ Hr Hpar). simpl. rewrite Hm, Hrt. reflexivity.
Qed.

(** [unregister] on a module whose [runtime] flag is true detaches it. *)
Lemma unregister_runtime (p : list string) (mc : Collection) :
  p ≠ [] → node_at p true mc →
  outcome (unregister p mc) = Ret tt
  ∧ trace (unregister p mc) = []
  ∧ isRegistered p (final (unregister p mc)) = Ret false.
Proof.
  intros Hp Hnode.
  destruct (node_at_parent _ _ _ Hp Hnode) as (r & parent & m & Hr & Hpar & Hm & Hrt).
  unfold ModuleCollection.unregister, bind, reads. simpl.
  rewrite (get_resolved _ _ _ _ Hr Hpar). simpl. rewrite Hm, Hrt. simpl.
  split; [reflexivity|]. split; [reflexivity|].
  unfold isRegistered.
  erewrite get_resolved; [| unfold on_root; rewrite Hr; reflexivity |].
  2:{ rewrite <- (app_nil_r (slice_init p)) at 2. apply descend_at_path, Hpar. }
  simpl. unfold hasChild. f_equal. apply bool_decide_false.
  pose proof (getChild_removeChild (last_key p) (last_key p) parent) as H.
  rewrite decide_True in H by reflexivity. unfold getChild in H. rewrite H.
  by intros [? ?].
Qed.

(** The state of the tree right after the new module has been attached. *)
Lemma node_at_attached (p : list string) (rt : bool) (rawModule : RawModule)
    (mc : Collection) (r parent : ModuleNode) :
  p ≠ [] → root mc = Some r → descend (slice_init p) r = Some parent →
  node_at p rt
    (on_root (at_path (slice_init p)
                (addChild (last_key p) (Mod.new init_state rawModule rt))) mc).
Proof.
  intros Hp Hr Hpar.
  exists (at_path (slice_init p) (addChild (last_key p) (Mod.new init_state rawModule rt)) r),
         (Mod.new init_state rawModule rt).
  split; [unfold on_root; by rewrite Hr|]. split; [|reflexivity].
  rewrite (path_split p Hp) at 1. rewrite descend_snoc.
  rewrite <- (app_nil_r (slice_init p)) at 2.
  rewrite (descend_at_path _ _ _ _ _ Hpar). simpl.
  rewrite getChild_addChild. by rewrite decide_True.
Qed.

(** After a [register] that returned, the module at [path] is in place and
    carries the [runtime] flag it was registered with. *)
Lemma register_node_at (p : list string) (rt : bool) (rawModule : RawModule)
    (mc : Collection) (r parent : ModuleNode) :
  p ≠ [] → root mc = Some r → descend (slice_init p) r = Some parent →
  outcome (register p rawModule rt mc) = Ret tt →
  node_at p rt (final (register p rawModule rt mc)).
Proof.
  intros Hp Hr Hpar. rewrite register_unfold. intros Hret.
  apply bind_ret_inv in Hret as ([] & _ & Hret & -> & _).
  rewrite when_final by (intros; apply assertRawModule_final).
  rewrite when_final in Hret by (intros; apply assertRawModule_final).
  apply bind_ret_inv in Hret as ([] & Hattach & _ & -> & _).
  rewrite bool_decide_false in * by (destruct p; [done | simpl; lia]).
  assert (final ((parent0 <- reads (get (slice_init p)) ;;
                  match parent0 with
                  | Some _ =>
                      modify (on_root (at_path (slice_init p)
                                (addChild (last_key p) (Mod.new init_state rawModule rt))))
                  | None => throw (TypeError "undefined.addChild")
                  end) mc)
          = on_root (at_path (slice_init p)
                       (addChild (last_key p) (Mod.new init_state rawModule rt))) mc) as ->.
  { unfold bind, reads. simpl. by rewrite (get_resolved _ _ _ _ Hr Hpar). }
  pose proof (node_at_attached p rt rawModule mc r parent Hp Hr Hpar) as Hnode.
  revert Hnode. generalize (on_root (at_path (slice_init p)
                       (addChild (last_key p) (Mod.new init_state rawModule rt))) mc).
  intros mc1 Hnode. destruct (raw_modules rawModule) as [ms|]; [|exact Hnode].
  revert mc1 Hnode. apply keeps_forEachValue. apply Forall_forall.
  intros [k rawChild] _. simpl. by apply register_keeps_node.
Qed.

Lemma assertRawModule_stateless {S} (path : list string) (raw : RawModule) :
  stateless (S:=S) (assertRawModule path raw) (assertRawModule path raw).
Proof.
  unfold ModuleCollection.assertRawModule. apply stateless_forEach.
  intros [key [[get_key assert_fn] expected]].
  destruct (get_key raw) as [obj|]; [|apply stateless_ret].
  apply stateless_forEachValue. intros v k.
  apply stateless_bind; [apply stateless_lift | intros ok; apply stateless_assert].
Qed.

(** C4.  For a non-empty path [p] whose parent prefix resolves: after a
    [register(p, decl, true)] that has returned, [isRegistered(p)] is true,
    and a subsequent [unregister(p)] returns and makes [isRegistered(p)]
    false; after a [register(p, decl, false)] that has returned,
    [isRegistered(p)] is true and [unregister(p)] returns with the module
    tree unchanged and nothing logged. *)
Theorem register_isRegistered_unregister (p : list string) (decl : RawModule) (rt : bool)
    (mc : Collection) (r parent : ModuleNode) :
  p ≠ [] →
  root mc = Some r →
  descend (slice_init p) r = Some parent →
  outcome (register p decl rt mc) = Ret tt →
  let mc' := final (register p decl rt mc) in
  isRegistered p mc' = Ret true
  ∧ (rt = true →
       outcome (unregister p mc') = Ret tt
       ∧ isRegistered p (final (unregister p mc')) = Ret false)
  ∧ (rt = false → unregister p mc' = mkRun (Ret tt) mc' []).
Proof.
  intros Hp Hr Hpar Hret mc'.
  pose proof (register_node_at p rt decl mc r parent Hp Hr Hpar Hret) as Hnode.
  fold mc' in Hnode. split; [by eapply isRegistered_node|]. split.
  - intros ->. destruct (unregister_runtime p mc' Hp Hnode) as (? & _ & ?). auto.
  - intros ->. by apply unregister_not_runtime.
Qed.

End RegisterFacts.

(* ===================================================================== *)
(** ** Hot update *)
(* ===================================================================== *)

Section UpdateFacts.
Import Mod ModuleCollection.
Variable __DEV__ : bool.
Variable JSON_stringify : Value → string.

#[local] Abbreviation update := (update __DEV__ JSON_stringify).
#[local] Abbreviation update_children := (update_children __DEV__).
#[local] Abbreviation assertRawModule := (assertRawModule JSON_stringify).

#[local] Instance same_frame_refl : Reflexive same_frame.
Proof. intros t p. by destruct (descend p t). Qed.

#[local] Instance same_frame_trans : Transitive same_frame.
Proof.
  intros t1 t2 t3 H12 H23 p. specialize (H12 p). specialize (H23 p).
  destruct (descend p t1), (descend p t2), (descend p t3); try done.
  destruct H12, H23. split; congruence.
Qed.

Lemma same_frame_Mod_update (raw : RawModule) (t : ModuleNode) :
  same_frame t (Mod.update raw t).
Proof. intros [|k p]; simpl; [done|]. unfold getChild. simpl. by destruct (_ ≫= _). Qed.

Lemma same_frame_child (key : string) (child child' t : ModuleNode) :
  getChild key t = Some child → same_frame child child' →
  same_frame t (addChild key child' t).
Proof.
  intros Hc Hframe [|k p]; simpl; [done|].
  rewrite getChild_addChild. destruct (decide (key = k)) as [->|Hne].
  - rewrite Hc. simpl. apply Hframe.
  - by destruct (_ ≫= _).
Qed.

Lemma update_unfold (path : list string) (newModule : RawModule) :
  update path newModule =
  (when __DEV__ (assertRawModule path newModule) ;;;
   modify (Mod.update newModule) ;;;
   match raw_modules newModule with
   | Some ms => update_children update path ms
   | None => ret tt
   end).
Proof. destruct newModule; reflexivity. Qed.

Lemma update_children_frame (upd : list string → RawModule → M ModuleNode unit)
    (path : list string) (ms : list (string * RawModule)) :
  Forall (λ kr : string * RawModule, ∀ q, preserves same_frame (upd q kr.2)) ms →
  preserves same_frame (update_children upd path ms).
Proof.
  induction 1 as [|[k rawChild] rest Hk Hrest IH]; intros t; simpl; [reflexivity|].
  destruct (getChild k t) as [child|] eqn:Hc.
  - revert t Hc. 
    assert (∀ t, getChild k t = Some child →
                 same_frame t (final (on_child k child (upd (path ++ [k]) rawChild) t))) as Hon.
    { intros t Hc. unfold on_child. simpl. apply (same_frame_child _ _ _ _ Hc), Hk. }
    intros t Hc. unfold bind.
    destruct (outcome (on_child k child (upd (path ++ [k]) rawChild) t)); simpl.
    + etrans; [by apply Hon | apply IH].
    + by apply Hon.
  - destruct __DEV__; simpl; reflexivity.
Qed.

(** [update] keeps every module in place, with its state and runtime flag. *)
Lemma update_frame (newModule : RawModule) :
  ∀ path, preserves same_frame (update path newModule).
Proof.
  induction newModule as [ns st g mu a oms IH] using RawModule_nested_ind.
  intros path. rewrite update_unfold.
  apply preserves_bind; [apply _| |].
  { apply preserves_pure; [apply _|]. apply when_final. intros; apply assertRawModule_final. }
  intros _. apply preserves_bind; [apply _| |].
  { intros t. apply same_frame_Mod_update. }
  intros _. simpl. destruct oms as [ms|]; [|by apply preserves_pure; [apply _|]].
  by apply update_children_frame.
Qed.

Lemma with_modules_assert {S} (ms : option (list (string * RawModule)))
    (path : list string) (raw : RawModule) :
  @ModuleCollection.assertRawModule JSON_stringify S path (with_modules ms raw)
  = assertRawModule path raw.
Proof. reflexivity. Qed.

Lemma with_modules_Mod_update (ms : option (list (string * RawModule))) (raw : RawModule) :
  Mod.update (with_modules ms raw) = Mod.update raw.
Proof. reflexivity. Qed.

(** The loop over the children stops at the first key that names no child:
    what it has done is what it does on the keys before that one. *)
Lemma update_children_stops (upd : list string → RawModule → M ModuleNode unit)
    (path : list string) (key : string) (rawChild : RawModule)
    (post : list (string * RawModule)) :
  ∀ (pre : list (string * RawModule)) (t : ModuleNode),
    Forall (λ kr : string * RawModule, is_Some (getChild kr.1 t)) pre →
    getChild key t = None →
    update_children upd path (pre ++ (key, rawChild) :: post) t =
    then_log ((if __DEV__ then [new_module_warning key] else [])) (update_children upd path pre t).
Proof.
  induction pre as [|[k rc] pre IH]; intros t Hpre Hkey.
  - simpl. rewrite Hkey. by destruct __DEV__.
  - apply Forall_cons in Hpre as [[child Hc] Hpre]. simpl in Hc.
    rewrite <- app_comm_cons. simpl. rewrite Hc.
    apply bind_then_log. intros _ _. apply IH.
    + unfold on_child. simpl. eapply Forall_impl; [exact Hpre|].
      intros [k' rc'] Hk'. simpl in *. rewrite getChild_addChild.
      by destruct (decide (k = k')).
    + unfold on_child. simpl. rewrite getChild_addChild.
      destruct (decide (k = key)) as [->|]; [congruence | done].
Qed.

(** C6 (as amended).  In a hot update whose declaration lists a child
    module [key] that the current module does not have (the keys listed
    before it being children it has): the update of this branch stops at
    [key]; its result is the one of the update restricted to the earlier
    siblings, which therefore remain updated, followed in a development
    build by the console warning and in a production build by nothing.  No
    module is added or removed anywhere, and every module keeps its state. *)
Theorem update_unknown_child (path : list string) (target : ModuleNode)
    (newModule rawChild : RawModule) (pre post : list (string * RawModule)) (key : string) :
  raw_modules newModule = Some (pre ++ (key, rawChild) :: post) →
  Forall (λ kr : string * RawModule, is_Some (getChild kr.1 target)) pre →
  getChild key target = None →
  let run := update path newModule target in
  let run_pre := update path (with_modules (Some pre) newModule) target in
  run = match outcome run_pre with
        | Ret _ =>
            mkRun (Ret tt) (final run_pre)
                  (trace run_pre ++ (if __DEV__ then [new_module_warning key] else []))
        | Throw e => run_pre
        end
  ∧ (∀ p, is_Some (descend p (final run)) ↔ is_Some (descend p target))
  ∧ (∀ p m m', descend p target = Some m → descend p (final run) = Some m' →
               state m' = state m).
Proof.
  intros Hms Hpre Hkey run run_pre. split; [|split].
  - subst run run_pre. change (update path newModule target
      = then_log ((if __DEV__ then [new_module_warning key] else []))
          (update path (with_modules (Some pre) newModule) target)).
    rewrite !update_unfold.
    rewrite with_modules_assert, with_modules_Mod_update, Hms. simpl raw_modules.
    apply bind_then_log. intros _ _.
    rewrite when_final by (intros; apply assertRawModule_final).
    apply bind_then_log. intros _ _. simpl.
    by apply update_children_stops.
  - intros p. pose proof (update_frame newModule path target p) as H. fold run in H.
    destruct (descend p target), (descend p (final run)); try done;
      split; intros [? ?]; try done; eauto.
  - intros p m m' Hm Hm'. pose proof (update_frame newModule path target p) as H.
    fold run in H. rewrite Hm, Hm' in H. tauto.
Qed.

End UpdateFacts.

(* ===================================================================== *)
(** ** The committing scope *)
(* ===================================================================== *)

Section CommitScopeFacts.
Import Store.

Lemma withCommit_unfold {A} (fn : M t A) (s : t) :
  _withCommit fn s =
  let r := fn (set_committing true s) in
  match outcome r with
  | Ret _ => mkRun (Ret tt) (set_committing (_committing s) (final r)) (trace r)
  | Throw e => mkRun (Throw e) (final r) (trace r)
  end.
Proof.
  unfold _withCommit, bind, gets, modify. simpl.
  destruct (outcome (fn (set_committing true s))); simpl; [|reflexivity].
  by rewrite app_nil_r.
Qed.

(** C8 (as amended).  [_withCommit(fn)] runs [fn] with [_committing] set to
    true.  When [fn] returns, [_committing] is set back to the value it had
    before the call, whatever that value was, and nothing else of what [fn]
    did is undone; in particular a scope that is entered while the flag is
    already true leaves it true.  When [fn] throws, the exception goes
    through and the store stays as [fn] left it: the flag is not set
    back. *)
Theorem withCommit_restores {A} (fn : M t A) (s : t) :
  let inside := fn (set_committing true s) in
  _committing (set_committing true s) = true
  ∧ trace (_withCommit fn s) = trace inside
  ∧ match outcome inside with
    | Ret _ =>
        outcome (_withCommit fn s) = Ret tt
        ∧ final (_withCommit fn s) = set_committing (_committing s) (final inside)
        ∧ _committing (final (_withCommit fn s)) = _committing s
        ∧ (_committing s = true → _committing (final (_withCommit fn s)) = true)
    | Throw e =>
        outcome (_withCommit fn s) = Throw e
        ∧ final (_withCommit fn s) = final inside
    end.
Proof.
  intros inside. subst inside. rewrite withCommit_unfold. cbv zeta.
  split; [reflexivity|].
  destruct (outcome (fn (set_committing true s))) eqn:Hin; simpl; repeat split; auto.
Qed.

End CommitScopeFacts.

(* ===================================================================== *)
(** ** Commit *)
(* ===================================================================== *)

Section EngineFacts.
Import Store.
Variable __DEV__ : bool.
Variable global_w : bool.
Variable ToString : Value → string.
Variable thenable_fate : Value → Fate Value.
Variable call : FnRef → list Arg → t → Outcome Value * t.

#[local] Abbreviation unifyObjectStyle := (unifyObjectStyle __DEV__).
#[local] Abbreviation invoke := (invoke call).
#[local] Abbreviation wrappedMutationHandler := (wrappedMutationHandler call).
#[local] Abbreviation commit := (commit __DEV__ ToString call).
#[local] Abbreviation dispatch := (dispatch __DEV__ global_w ToString thenable_fate call).
#[local] Abbreviation local_commit := (local_commit __DEV__ ToString call).
#[local] Abbreviation local_dispatch :=
  (local_dispatch __DEV__ global_w ToString thenable_fate call).

(** String-style invocation is left as it is. *)
Lemma unifyObjectStyle_string {S} (type : string) (payload options : Value) (s : S) :
  unifyObjectStyle (VStr type) payload options s
  = mkRun (Ret (VStr type, payload, options)) s [].
Proof. unfold Store.unifyObjectStyle. simpl. by destruct __DEV__. Qed.

#[local] Abbreviation run_handlers := (run_handlers call).
#[local] Abbreviation notify := (notify call).
#[local] Abbreviation silent_removed := (silent_removed ToString).

Lemma commit_registered (type : string) (payload options : Value) (s : t)
    (entry : list WrappedMutation) :
  _mutations s !! type = Some entry →
  commit (VStr type) payload options s =
  (_withCommit (run_handlers entry payload) ;;;
   subs <- gets _subscribers ;;
   notify (descriptor (VStr type) payload) subs ;;;
   when (__DEV__ && option_set options "silent") (emit (silent_removed (VStr type))) ;;;
   ret VUndef) s.
Proof.
  intros Hentry. unfold Store.commit.
  rewrite (bind_pure _ _ _ _ (unifyObjectStyle_string _ _ _ _)).
  erewrite bind_pure; [|unfold gets, to_string; by rewrite Hentry].
  reflexivity.
Qed.

Lemma commit_unregistered (type : string) (payload options : Value) (s : t) :
  _mutations s !! type = None →
  commit (VStr type) payload options s
  = mkRun (Ret VUndef) s
      (if __DEV__ then [ConsoleError ("[vuex] unknown mutation type: " +:+ type)] else []).
Proof.
  intros Hentry. unfold Store.commit.
  rewrite (bind_pure _ _ _ _ (unifyObjectStyle_string _ _ _ _)).
  erewrite bind_pure; [|unfold gets, to_string; by rewrite Hentry].
  unfold bind. by destruct __DEV__.
Qed.




Lemma when_emit_run {S} (c : bool) (e : Event) (s : S) :
  when c (emit e) s = mkRun (Ret tt) s (if c then [e] else []).
Proof. by destruct c. Qed.


(** [commit] on a registered type returns when the registered handlers are
    functions, the state of their modules can be reached, and the user's
    functions return. *)
Lemma commit_returns (s : t) (type : string) (payload options : Value)
    (entry : list WrappedMutation) :
  _mutations s !! type = Some entry →
  (∀ w, w ∈ entry → ∃ fn, mutation_handler w = VFun fn) →
  (∀ w s', w ∈ entry →
           ∃ ls, getNestedState (state s') (path (mutation_local w)) = Ret ls) →
  (∀ fn args s', ∃ v, (call fn args s').1 = Ret v) →
  outcome (commit (VStr type) payload options s) = Ret VUndef.
Proof.
  intros Hentry Hfun Hpath Hcall. rewrite (commit_registered _ _ _ _ _ Hentry).
  eapply bind_outcome_ret.
  { rewrite withCommit_unfold. cbv zeta.
    assert (outcome (run_handlers entry payload (set_committing true s)) = Ret tt) as ->;
      [|reflexivity].
    apply forEach_returns. intros w s' Hw.
    destruct (Hfun w Hw) as [fn Hfn]. destruct (Hpath w s' Hw) as [ls Hls].
    unfold Store.wrappedMutationHandler, local_state. rewrite Hfn.
    unfold bind, gets, lift, Store.invoke. simpl. rewrite Hls. simpl.
    destruct (Hcall fn [AVal ls; AVal payload] s') as [v ->]. reflexivity. }
  eapply bind_outcome_ret; [reflexivity|].
  eapply bind_outcome_ret.
  { apply forEach_returns. intros sub s' _.
    unfold bind, gets, Store.invoke. simpl.
    destruct (Hcall sub [AVal (descriptor (VStr type) payload); AVal (state s')] s')
      as [v ->]. reflexivity. }
  eapply bind_outcome_ret; [|reflexivity].
  by rewrite when_emit_run.
Qed.


(** [registerMutation] puts the new handler after the ones already
    registered under the type: the order of an entry is the order of
    registration. *)
Lemma registerMutation_appends (type : string) (handler : Value) (local : Local) (s : t) :
  let s' := final (registerMutation type handler local s) in
  _mutations s' !! type
  = Some (default [] (_mutations s !! type) ++ [mkWrappedMutation handler local])
  ∧ (∀ type', type' ≠ type → _mutations s' !! type' = _mutations s !! type')
  ∧ _subscribers s' = _subscribers s.
Proof.
  simpl. split; [apply lookup_insert_eq|]. split; [|reflexivity].
  intros type' Hne. by apply lookup_insert_ne.
Qed.

Lemma commit_returns_undefined (_type _payload _options : Value) (s : t) (v : Value) :
  outcome (commit _type _payload _options s) = Ret v → v = VUndef.
Proof.
  unfold Store.commit. intros Hret.
  apply bind_ret_inv in Hret as ([[type payload] options] & _ & Hret & _).
  apply bind_ret_inv in Hret as (entry & _ & Hret & _).
  destruct entry as [entry|].
  - apply bind_ret_inv in Hret as ([] & _ & Hret & _).
    apply bind_ret_inv in Hret as (subs & _ & Hret & _).
    apply bind_ret_inv in Hret as ([] & _ & Hret & _).
    apply bind_ret_inv in Hret as ([] & _ & Hret & _).
    by injection Hret.
  - apply bind_ret_inv in Hret as ([] & _ & Hret & _). by injection Hret.
Qed.

(* ===================================================================== *)
(** ** The local context *)
(* ===================================================================== *)

(** C9.  In a module with a non-empty namespace (["user/"] for the module
    at path [["user"]]), a local [commit(type, payload, options)] without
    [options.root], on a type registered under [namespace + type], is the
    call [store.commit(namespace + type, payload, options)]: same outcome,
    same store, same handler calls and subscriber notifications.  With
    [options.root] set it is [store.commit(type, payload, options)]: the
    type goes through without the prefix. *)
Theorem local_commit_addressing (local : Local) (type : string) (payload options : Value)
    (s : t) :
  namespace local ≠ EmptyString →
  (option_set options "root" = false →
   is_Some (_mutations s !! (namespace local +:+ type)) →
   local_commit local (VStr type) payload options s
   = commit (VStr (namespace local +:+ type)) payload options s)
  ∧ (option_set options "root" = true →
     local_commit local (VStr type) payload options s
     = commit (VStr type) payload options s).
Proof.
  intros Hns. apply String.eqb_neq in Hns. unfold Store.local_commit. rewrite Hns.
  rewrite (bind_pure _ _ _ _ (unifyObjectStyle_string _ _ _ _)).
  split.
  - intros -> Hreg. cbn [negb].
    change (to_string ToString (VStr type)) with type.
    erewrite bind_pure; [|reflexivity].
    rewrite (bool_decide_true _ Hreg), andb_false_r.
    apply bind_ret_same. intros v. apply commit_returns_undefined.
  - intros ->. cbn [negb].
    apply bind_ret_same. intros v. apply commit_returns_undefined.
Qed.

(* ===================================================================== *)
(** ** Object-style invocation *)
(* ===================================================================== *)

Lemma unifyObjectStyle_object {S} (obj : Value) (type : string) (second third : Value)
    (s : S) :
  Util.isObject obj = true →
  prop obj "type" = Some (VStr type) →
  type ≠ EmptyString →
  unifyObjectStyle obj second third s = mkRun (Ret (VStr type, obj, second)) s [].
Proof.
  intros Hobj Htype Hne. apply String.eqb_neq in Hne.
  unfold Store.unifyObjectStyle. rewrite Hobj, Htype. simpl. rewrite Hne. simpl.
  by destruct __DEV__.
Qed.

(** C10 (as amended).  For an object [obj] whose [type] property is a
    non-empty string: [unifyObjectStyle(obj, second, third)] yields the type
    [obj.type], the whole object [obj] as payload and the second argument as
    options; [commit(obj, second, third)] is [commit(obj.type, obj, second)],
    so the handlers and the subscribers see [obj] itself, with its [type]
    property, as the payload; and [dispatch(obj, second)] is
    [dispatch(obj.type, obj)]. *)
Theorem object_style_payload_is_object (obj : Value) (type : string) (second third : Value)
    (s : t) :
  Util.isObject obj = true →
  prop obj "type" = Some (VStr type) →
  type ≠ EmptyString →
  unifyObjectStyle obj second third s = mkRun (Ret (VStr type, obj, second)) s []
  ∧ commit obj second third s = commit (VStr type) obj second s
  ∧ dispatch obj second s = dispatch (VStr type) obj s.
Proof.
  intros Hobj Htype Hne. split; [by apply unifyObjectStyle_object|]. split.
  - unfold Store.commit.
    rewrite (bind_pure _ _ _ _ (unifyObjectStyle_object _ _ _ _ _ Hobj Htype Hne)).
    by rewrite (bind_pure _ _ _ _ (unifyObjectStyle_string _ _ _ _)).
  - unfold Store.dispatch.
    rewrite (bind_pure _ _ _ _ (unifyObjectStyle_object _ _ _ _ _ Hobj Htype Hne)).
    by rewrite (bind_pure _ _ _ _ (unifyObjectStyle_string _ _ _ _)).
Qed.

(* ===================================================================== *)
(** ** Dispatch *)
(* ===================================================================== *)





(** C1.  [dispatch] on a registered action type, in a global scope where
    the identifier [w] is not bound: the expression statement [w;] that
    follows the lookup raises a ReferenceError before any subscriber or
    handler is called; nothing is returned, nothing has changed. *)
Theorem dispatch_stray_identifier (s : t) (type : string) (payload : Value)
    (entry : list WrappedAction) :
  global_w = false →
  _actions s !! type = Some entry →
  dispatch (VStr type) payload s = mkRun (Throw (ReferenceError "w")) s [].
Proof.
  intros Hw Hentry. unfold Store.dispatch.
  rewrite (bind_pure _ _ _ _ (unifyObjectStyle_string _ _ _ _)).
  erewrite bind_pure; [|unfold gets, to_string; by rewrite Hentry].
  unfold bind, read_w. rewrite Hw. reflexivity.
Qed.

End EngineFacts.

(* ===================================================================== *)
(** ** Subscriptions *)
(* ===================================================================== *)

Section GenericSubscribeFacts.
Import Store.
Context {A K : Type} `{EqDecision K} (key : A → K).

#[local] Abbreviation same_key := (same_key key).

Lemma indexOf_None (fn : A) (subs : list A) :
  indexOf same_key fn subs = None ↔ key fn ∉ map key subs.
Proof.
  induction subs as [|x subs IH]; simpl.
  - split; [intros _; apply not_elem_of_nil | done].
  - unfold same_key at 1. rewrite not_elem_of_cons. case_bool_decide as Hx.
    + split; [done | intros [Hne _]; congruence].
    + destruct (indexOf same_key fn subs) eqn:Hi; simpl.
      * split; [done | intros [_ Hin]; by apply IH in Hin].
      * split; [intros _; split; [congruence | by apply IH] | done].
Qed.

Lemma indexOf_is_Some (fn : A) (subs : list A) :
  is_Some (indexOf same_key fn subs) ↔ key fn ∈ map key subs.
Proof.
  destruct (indexOf same_key fn subs) eqn:Hi.
  - split; [intros _ | by eauto].
    destruct (decide (key fn ∈ map key subs)) as [|Hn]; [done|].
    apply indexOf_None in Hn. congruence.
  - split; [intros [? ?]; done|]. intros Hin. by apply indexOf_None in Hi.
Qed.

Lemma filter_all (P : A → Prop) `{∀ x, Decision (P x)} (l : list A) :
  Forall P l → filter P l = l.
Proof.
  induction 1 as [|x l Hx Hl IH]; [reflexivity|].
  by rewrite filter_cons_True, IH.
Qed.

(** The closure removes the first entry with the identity of [fn]; in a list
    without duplicates that is the only one. *)
Lemma unsubscribe_filter (fn : A) (subs : list A) :
  NoDup (map key subs) →
  unsubscribe same_key fn subs = filter (λ x, key x ≠ key fn) subs.
Proof.
  unfold unsubscribe. induction subs as [|x subs IH]; [reflexivity|].
  intros Hnd. apply NoDup_cons in Hnd as [Hx Hnd]. simpl.
  unfold same_key at 1. case_bool_decide as Hk.
  - rewrite filter_cons_False by (intros Hne; by apply Hne). simpl.
    symmetry. apply filter_all. apply Forall_forall. intros y Hy Heq.
    apply Hx. rewrite Hk, <- Heq. apply list_elem_of_fmap. by exists y.
  - rewrite filter_cons_True by exact Hk. specialize (IH Hnd).
    destruct (indexOf same_key fn subs); simpl; by rewrite <- IH.
Qed.

Lemma unsubscribe_gone (fn : A) (subs : list A) :
  NoDup (map key subs) → key fn ∉ map key (unsubscribe same_key fn subs).
Proof.
  intros Hnd. rewrite (unsubscribe_filter _ _ Hnd).
  intros (y & Hy & Hin)%list_elem_of_fmap. apply list_elem_of_filter in Hin as [Hne _].
  by apply Hne.
Qed.

(** The guard of [genericSubscribe]. *)
Lemma genericSubscribe_list (fn : A) (subs : list A) (options : Value) :
  (genericSubscribe same_key fn subs options).1
  = if decide (key fn ∈ map key subs) then subs
    else if option_set options "prepend" then fn :: subs else subs ++ [fn].
Proof.
  unfold genericSubscribe. simpl. destruct (decide (key fn ∈ map key subs)) as [Hin|Hn].
  - apply indexOf_is_Some in Hin as [i ->]. reflexivity.
  - apply indexOf_None in Hn as ->. reflexivity.
Qed.

Lemma genericSubscribe_NoDup (fn : A) (subs : list A) (options : Value) :
  NoDup (map key subs) → NoDup (map key (genericSubscribe same_key fn subs options).1).
Proof.
  intros Hnd. rewrite genericSubscribe_list.
  destruct (decide (key fn ∈ map key subs)) as [Hin|Hn]; [done|].
  destruct (option_set options "prepend").
  - simpl. by apply NoDup_cons.
  - rewrite map_app. apply NoDup_app. split; [done|]. split.
    + intros k Hk Hk'. apply list_elem_of_singleton in Hk'. by subst.
    + apply NoDup_singleton.
Qed.

End GenericSubscribeFacts.

Section SubscriptionFacts.
Import Store.

Lemma map_id_list {X} (l : list X) : map id l = l.
Proof. induction l as [|x l IH]; simpl; by rewrite ?IH. Qed.

(** C7.  What the two calls do.  [subscribe(fn, options)] with a function
    [fn], and [subscribeAction(o, options)] with a subscriber object [o]:
    the subscriber is put at the end of its list, or at the front when
    [options.prepend] is set, unless the identical reference is already in
    the list, which is then left as it is.  [subscribeAction(fn, options)]
    with a function [fn] does not keep that guard: it wraps [fn] in a new
    object [{ before: fn }] on each call before the list is searched, so the
    object is never found and is always added, also when [fn] was
    subscribed before.  In each case the function returned removes the
    entry of that call from the list as it is then, so that it is no longer
    among the subscribers that are notified. *)
Theorem subscribe_guard_and_unsubscribe (s : t) (options : Value) :
  (∀ fn : FnRef,
     ∃ unsub : M t unit,
       subscribe fn options s
       = mkRun (Ret unsub)
           (set_subscribers
              (if decide (fn ∈ _subscribers s) then _subscribers s
               else if option_set options "prepend" then fn :: _subscribers s
                    else _subscribers s ++ [fn]) s) []
       ∧ ∀ s2, NoDup (_subscribers s2) →
               unsub s2
               = mkRun (Ret tt)
                   (set_subscribers (filter (λ x, x ≠ fn) (_subscribers s2)) s2) [])
  ∧ (∀ o : ActionSub,
       ∃ unsub : M t unit,
         subscribeAction (SubscriberObj o) options s
         = mkRun (Ret unsub)
             (set_actionSubscribers
                (if decide (sub_id o ∈ map sub_id (_actionSubscribers s))
                 then _actionSubscribers s
                 else if option_set options "prepend" then o :: _actionSubscribers s
                      else _actionSubscribers s ++ [o]) s) []
         ∧ ∀ s2, NoDup (map sub_id (_actionSubscribers s2)) →
                 unsub s2
                 = mkRun (Ret tt)
                     (set_actionSubscribers
                        (filter (λ x, sub_id x ≠ sub_id o) (_actionSubscribers s2)) s2) [])
  ∧ (∀ fn : FnRef,
       (∀ n, Allocated n ∈ map sub_id (_actionSubscribers s) → n < allocated s) →
       let wrapper := mkActionSub (Allocated (allocated s)) (VFun fn) VUndef VUndef in
       ∃ unsub : M t unit,
         subscribeAction (SubscriberFn fn) options s
         = mkRun (Ret unsub)
             (set_actionSubscribers
                (if option_set options "prepend" then wrapper :: _actionSubscribers s
                 else _actionSubscribers s ++ [wrapper])
                (set_allocated (S (allocated s)) s)) []
         ∧ ∀ s2, NoDup (map sub_id (_actionSubscribers s2)) →
                 unsub s2
                 = mkRun (Ret tt)
                     (set_actionSubscribers
                        (filter (λ x, sub_id x ≠ Allocated (allocated s))
                                (_actionSubscribers s2)) s2) []).
Proof.
  split; [|split].
  - intros fn. eexists. split.
    + unfold subscribe.
      pose proof (genericSubscribe_list id fn (_subscribers s) options) as Hl.
      rewrite map_id_list in Hl. unfold id in Hl.
      change (same_key (λ x : FnRef, x)) with same_function in Hl.
      destruct (genericSubscribe same_function fn (_subscribers s) options) as [l u] eqn:Hg.
      simpl in Hl. subst l. unfold genericSubscribe in Hg. injection Hg as _ <-.
      reflexivity.
    + intros s2 Hnd. unfold modify. do 2 f_equal.
      apply (unsubscribe_filter id). by rewrite map_id_list.
  - intros o. eexists. split.
    + unfold subscribeAction.
      pose proof (genericSubscribe_list sub_id o (_actionSubscribers s) options) as Hl.
      change (same_key sub_id) with same_object in Hl.
      destruct (genericSubscribe same_object o (_actionSubscribers s) options) as [l u] eqn:Hg.
      simpl in Hl. subst l. unfold genericSubscribe in Hg. injection Hg as _ <-.
      reflexivity.
    + intros s2 Hnd. unfold modify. do 2 f_equal.
      by apply (unsubscribe_filter sub_id).
  - intros fn Hfresh wrapper. eexists. split.
    + unfold subscribeAction.
      pose proof (genericSubscribe_list sub_id wrapper (_actionSubscribers s) options) as Hl.
      change (same_key sub_id) with same_object in Hl.
      rewrite decide_False in Hl by (intros Hin; apply Hfresh in Hin; simpl in Hin; lia).
      fold wrapper. simpl _actionSubscribers.
      destruct (genericSubscribe same_object wrapper (_actionSubscribers s) options)
        as [l u] eqn:Hg.
      simpl in Hl. subst l. unfold genericSubscribe in Hg. injection Hg as _ <-.
      reflexivity.
    + intros s2 Hnd. unfold modify. do 2 f_equal.
      by apply (unsubscribe_filter sub_id).
Qed.

(** The identities of the allocated subscriber objects in the list are
    below the allocation counter: [subscribeAction] keeps it so, for a
    function and for an object the caller made. *)
Lemma subscribeAction_allocation (fn : Subscriber) (options : Value) (s : t) :
  (if fn is SubscriberObj o then ∃ n, sub_id o = UserObject n else True) →
  (∀ n, Allocated n ∈ map sub_id (_actionSubscribers s) → n < allocated s) →
  let s' := final (subscribeAction fn options s) in
  ∀ n, Allocated n ∈ map sub_id (_actionSubscribers s') → n < allocated s'.
Proof.
  intros Huser Hinv s' n. subst s'. unfold subscribeAction.
  destruct fn as [f|o].
  - pose proof (genericSubscribe_list sub_id
                  (mkActionSub (Allocated (allocated s)) (VFun f) VUndef VUndef)
                  (_actionSubscribers s) options) as Hl.
    change (Store.same_key sub_id) with same_object in Hl.
    change (_actionSubscribers (set_allocated (S (allocated s)) s))
      with (_actionSubscribers s).
    destruct (genericSubscribe same_object _ (_actionSubscribers s) options) as [l u].
    cbn [fst] in Hl. cbn [final _actionSubscribers set_actionSubscribers allocated
                          set_allocated].
    rewrite Hl. clear Hl. case_decide; [intros Hin; apply Hinv in Hin; lia|].
    destruct (option_set options "prepend").
    + cbn [map sub_id].
      intros [Heq|Hin]%elem_of_cons; [injection Heq as ->; lia | apply Hinv in Hin; lia].
    + rewrite map_app. intros [Hin|Hin]%elem_of_app; [apply Hinv in Hin; lia|].
      apply list_elem_of_singleton in Hin. injection Hin as ->. lia.
  - destruct Huser as [k Hk].
    pose proof (genericSubscribe_list sub_id o (_actionSubscribers s) options) as Hl.
    change (Store.same_key sub_id) with same_object in Hl.
    destruct (genericSubscribe same_object o (_actionSubscribers s) options) as [l u].
    cbn [fst] in Hl. cbn [final _actionSubscribers set_actionSubscribers allocated].
    rewrite Hl. clear Hl. case_decide; [apply Hinv|].
    destruct (option_set options "prepend").
    + cbn [map]. intros [Heq|Hin]%elem_of_cons; [congruence | by apply Hinv].
    + rewrite map_app. intros [Hin|Hin]%elem_of_app; [by apply Hinv|].
      apply list_elem_of_singleton in Hin. simpl in Hin. congruence.
Qed.

End SubscriptionFacts.

(* ===================================================================== *)
(** * The theorems on concrete inputs *)
(* ===================================================================== *)

Section Concrete.
Import Mod ModuleCollection NamespaceRule Store Demo.

Local Ltac evaluate := vm_compute; reflexivity.
Local Ltac evaluate_all :=
  intros; repeat match goal with |- _ ∧ _ => split end; evaluate.

(** ** The module tree *)

(** C3 on the tree [a (namespaced) / b / c (namespaced)]: the namespace of
    [["a"; "b"; "c"]] is ["a/c/"]. *)
Lemma getNamespace_by_rule_witness :
  getNamespace ["a"; "b"; "c"] nested = Ret "a/c/".
Proof.
  refine (eq_trans (getNamespace_by_rule nested _ _ ["a"; "b"; "c"] _ _) _).
  - vm_compute. reflexivity.
  - vm_compute. reflexivity.
  - evaluate.
Defined.

(** C5, the claim as stated: in the same tree the path [["a"; "zz"; "c"]]
    has a segment, ["zz"], that names no child, and [get] does not return
    [undefined]: it raises a TypeError. *)
Lemma get_inner_missing_segment_raises :
  (root nested ≫= descend ["a"; "zz"]) = None
  ∧ get ["a"; "zz"; "c"] nested = Throw (TypeError "undefined.getChild")
  ∧ get ["a"; "zz"; "c"] nested ≠ Ret None.
Proof. split; [evaluate|]. split; [evaluate|]. vm_compute. discriminate. Qed.

(** C5 as amended, on the same tree: ["zz"] last, and ["zz"] followed by
    ["c"]. *)
Lemma get_first_missing_segment_witness :
  get ["a"; "zz"] nested = Ret None
  ∧ get ["a"; "zz"; "c"] nested = Throw (TypeError "undefined.getChild").
Proof.
  split.
  - refine (get_first_missing_segment nested _ _ ["a"] [] "zz" _ _ _);
      vm_compute; reflexivity.
  - refine (get_first_missing_segment nested _ _ ["a"] ["c"] "zz" _ _ _);
      vm_compute; reflexivity.
Defined.

(** C4 on the same tree, in a development build: a module registered at
    [["a"; "x"]] at run time. *)
Lemma register_isRegistered_unregister_witness :
  let registered :=
    final (register true JSON_stringify init_state ["a"; "x"] leaf_decl true nested) in
  let declared :=
    final (register true JSON_stringify init_state ["a"; "x"] leaf_decl false nested) in
  isRegistered ["a"; "x"] nested = Ret false
  ∧ isRegistered ["a"; "x"] registered = Ret true
  ∧ isRegistered ["a"; "x"] (final (unregister true ["a"; "x"] registered)) = Ret false
  ∧ unregister true ["a"; "x"] declared = mkRun (Ret tt) declared [].
Proof.
  intros registered declared. split; [evaluate|].
  assert (["a"; "x"] ≠ []) as Hp by discriminate.
  destruct (register_isRegistered_unregister true JSON_stringify init_state
              ["a"; "x"] leaf_decl true nested _ _ Hp
              ltac:(vm_compute; reflexivity) ltac:(vm_compute; reflexivity)
              ltac:(vm_compute; reflexivity))
    as (Hreg & Hrun & _).
  destruct (register_isRegistered_unregister true JSON_stringify init_state
              ["a"; "x"] leaf_decl false nested _ _ Hp
              ltac:(vm_compute; reflexivity) ltac:(vm_compute; reflexivity)
              ltac:(vm_compute; reflexivity))
    as (_ & _ & Hnoop).
  split; [exact Hreg|]. split; [exact (proj2 (Hrun eq_refl))|]. exact (Hnoop eq_refl).
Defined.

(** In a development build a declaration with a getter that is not a
    function is refused before anything is attached. *)
Example register_refuses_malformed_declaration :
  let malformed := mkRawModule VUndef VUndef (Some [("g", VNum 0)]) None None None in
  register true JSON_stringify init_state ["a"; "x"] malformed true nested
  = mkRun (Throw (Error ("[vuex] getters should be function but " +:+ dq +:+ "getters.g"
                         +:+ dq +:+ " in module " +:+ dq +:+ "a.x" +:+ dq +:+ " is 0.")))
          nested []
  ∧ outcome (register false JSON_stringify init_state ["a"; "x"] malformed true nested)
    = Ret tt.
Proof. evaluate_all. Qed.

(** ** Hot update *)

(** C6, the claim as stated: in a production build the branch is given up
    without any diagnostic. *)
Lemma update_production_no_diagnostic :
  raw_modules hot_decl
  = Some ([("a", decl false [])] ++ ("zz", decl true []) :: [("b", decl true [])])
  ∧ is_Some (getChild "a" siblings_root)
  ∧ getChild "zz" siblings_root = None
  ∧ trace (update false JSON_stringify [] hot_decl siblings_root) = [].
Proof.
  split; [reflexivity|]. split; [vm_compute; eauto|]. split; evaluate.
Qed.

(** C6 as amended, on this update in a development build: the result is
    the one of the update by the declaration that lists [a] only, then the
    warning; [a] has lost its namespace, [b] has not got one, and there is
    no module [zz]. *)
Lemma update_unknown_child_witness :
  let run := update true JSON_stringify [] hot_decl siblings_root in
  run = mkRun (Ret tt)
          (final (update true JSON_stringify []
                    (with_modules (Some [("a", decl false [])]) hot_decl) siblings_root))
          [new_module_warning "zz"]
  ∧ (namespaced <$> descend ["a"] siblings_root) = Some true
  ∧ (namespaced <$> descend ["a"] (final run)) = Some false
  ∧ (namespaced <$> descend ["b"] (final run)) = Some false
  ∧ descend ["zz"] (final run) = None.
Proof.
  intros run.
  destruct (update_unknown_child true JSON_stringify [] siblings_root hot_decl (decl true [])
              [("a", decl false [])] [("b", decl true [])] "zz"
              eq_refl
              ltac:(repeat constructor; vm_compute; eauto)
              ltac:(vm_compute; reflexivity))
    as (Hrun & _ & _).
  split; [exact Hrun|]. evaluate_all.
Defined.

(** ** The store *)

#[local] Abbreviation commit := (Store.commit true ToString call).
#[local] Abbreviation dispatch w := (Store.dispatch true w ToString thenable_fate call).
#[local] Abbreviation local_commit := (Store.local_commit true ToString call).

(** C1 on the store [Demo.store]: two actions are registered under
    ["both"], one under ["one"], and neither [dispatch] returns a promise
    when [w] is not bound. *)
Lemma dispatch_stray_identifier_witness :
  dispatch false (VStr "both") VUndef store = mkRun (Throw (ReferenceError "w")) store []
  ∧ dispatch false (VStr "one") VUndef store = mkRun (Throw (ReferenceError "w")) store [].
Proof.
  split.
  - refine (dispatch_stray_identifier true false ToString thenable_fate call store
              "both" VUndef _ eq_refl _). vm_compute. reflexivity.
  - refine (dispatch_stray_identifier true false ToString thenable_fate call store
              "one" VUndef _ eq_refl _). vm_compute. reflexivity.
Defined.

(** Were [w] bound: the promise of ["both"] is fulfilled with the list of
    the two values, in registration order, when the later of the two
    handlers is; the promise of ["one"] with the value itself. *)
Example dispatch_past_w_aggregates :
  outcome (dispatch true (VStr "both") VUndef store)
  = Ret (VPromise (Fulfilled 3 (VArr [VNum 1; VNum 2])))
  ∧ trace (dispatch true (VStr "both") VUndef store)
    = [Call 5 [ACtx EmptyString (state store) (state store); AVal VUndef];
       Call 6 [ACtx EmptyString (state store) (state store); AVal VUndef]]
  ∧ outcome (dispatch true (VStr "one") VUndef store)
    = Ret (VPromise (Fulfilled 0 (VNum 1))).
Proof. evaluate_all. Qed.



(** C8, the claim as stated: a function that throws leaves [_committing]
    at true although it was false before the call. *)
Lemma withCommit_throw_leaves_flag :
  let fn : M Store.t unit := throw (Error "boom") in
  _committing store = false
  ∧ outcome (_withCommit fn store) = Throw (Error "boom")
  ∧ _committing (final (_withCommit fn store)) = true.
Proof. evaluate_all. Qed.

(** A scope nested in another one, entered with the flag at false: after
    the inner scope the outer one still sees true, after the outer one the
    flag is false again. *)
Example withCommit_nested :
  let inner := _withCommit (modify (set_state VNull)) in
  let outer := _withCommit (inner ;;; gets _committing) in
  outcome ((inner ;;; gets _committing) (set_committing true store)) = Ret true
  ∧ _committing (final (outer store)) = false
  ∧ state (final (outer store)) = VNull.
Proof. evaluate_all. Qed.

(** C9 on [Demo.store], where [user/setName] is registered: the local
    commit of the module [user], without options and with [{ root: true }]. *)
Lemma local_commit_addressing_witness :
  local_commit user_local (VStr "setName") (VStr "Ann") VUndef store
  = commit (VStr "user/setName") (VStr "Ann") VUndef store
  ∧ local_commit user_local (VStr "bump") VUndef (VObj [("root", VBool true)]) store
    = commit (VStr "bump") VUndef (VObj [("root", VBool true)]) store.
Proof.
  assert (namespace user_local ≠ EmptyString) as Hns by discriminate.
  split.
  - apply (proj1 (local_commit_addressing true ToString call user_local "setName"
                    (VStr "Ann") VUndef store Hns)); [reflexivity|].
    vm_compute. eauto.
  - apply (proj2 (local_commit_addressing true ToString call user_local "bump"
                    VUndef (VObj [("root", VBool true)]) store Hns)). reflexivity.
Defined.

Example local_commit_calls_the_namespaced_handler :
  trace (local_commit user_local (VStr "setName") (VStr "Ann") VUndef store)
  = [Call 3 [AVal (VObj [("name", VNull)]); AVal (VStr "Ann")];
     Call 3 [AVal (descriptor (VStr "user/setName") (VStr "Ann")); AVal (state store)];
     Call 4 [AVal (descriptor (VStr "user/setName") (VStr "Ann")); AVal (state store)]].
Proof. evaluate. Qed.

(** C10, the claim as stated: an object whose [type] is the empty string,
    under which a handler is registered.  In a development build [commit]
    throws, in a production build it looks up the object itself as the
    type; in neither is the handler called, while the string-style call
    with the same type and payload calls it. *)
Lemma commit_object_style_empty_type :
  let obj := VObj [("type", VStr EmptyString)] in
  Util.isObject obj = true
  ∧ prop obj "type" = Some (VStr EmptyString)
  ∧ is_Some (_mutations store !! EmptyString)
  ∧ commit obj VUndef VUndef store
    = mkRun (Throw (Error "[vuex] expects string as the type, but found object.")) store []
  ∧ Store.commit false ToString call obj VUndef VUndef store = mkRun (Ret VUndef) store []
  ∧ trace (commit (VStr EmptyString) obj VUndef store)
    = [Call 1 [AVal (state store); AVal obj];
       Call 3 [AVal (descriptor (VStr EmptyString) obj); AVal (VObj [("count", VNum 1)])];
       Call 4 [AVal (descriptor (VStr EmptyString) obj); AVal (VObj [("count", VNum 1)])]].
Proof.
  intros obj. split; [reflexivity|]. split; [reflexivity|]. split; [vm_compute; eauto|].
  evaluate_all.
Qed.

(** C10 as amended, on [Demo.store]: an object-style commit of type
    ["bump"] with [{ silent: true }] as second argument. *)
Lemma object_style_payload_is_object_witness :
  let obj := VObj [("type", VStr "bump"); ("amount", VNum 5)] in
  let options := VObj [("silent", VBool true)] in
  commit obj options VNull store = commit (VStr "bump") obj options store
  ∧ Store.dispatch true true ToString thenable_fate call obj VNull store
    = Store.dispatch true true ToString thenable_fate call (VStr "bump") obj store.
Proof.
  intros obj options.
  exact (proj2 (object_style_payload_is_object true true ToString thenable_fate call
                  obj "bump" options VNull store eq_refl eq_refl ltac:(discriminate))).
Defined.

Example commit_object_style_trace :
  let obj := VObj [("type", VStr "bump"); ("amount", VNum 5)] in
  trace (commit obj (VObj [("silent", VBool true)]) VNull store)
  = [Call 1 [AVal (state store); AVal obj];
     Call 2 [AVal (VObj [("count", VNum 1)]); AVal obj];
     Call 3 [AVal (descriptor (VStr "bump") obj); AVal (VObj [("count", VNum 2)])];
     Call 4 [AVal (descriptor (VStr "bump") obj); AVal (VObj [("count", VNum 2)])];
     silent_removed ToString (VStr "bump")].
Proof. evaluate. Qed.

(** C7, the failing input: the same function given to [subscribeAction]
    twice is in the list twice, and the function returned by the second
    call removes one of the two entries only. *)
Lemma subscribeAction_function_twice :
  let once := final (subscribeAction (SubscriberFn 3) VUndef store) in
  let run := subscribeAction (SubscriberFn 3) VUndef once in
  let twice := final run in
  map before (_actionSubscribers once) = [VFun 3]
  ∧ map before (_actionSubscribers twice) = [VFun 3; VFun 3]
  ∧ match outcome run with
    | Ret unsubscribe => map before (_actionSubscribers (final (unsubscribe twice))) = [VFun 3]
    | Throw _ => False
    end.
Proof. evaluate_all. Qed.

(** C7 on [Demo.store], whose mutation subscribers are [3] and [4]:
    subscribing [4] again changes nothing, subscribing [8] with
    [{ prepend: true }] puts it first, and its unsubscribe function takes
    it out again; the function [3] given to [subscribeAction] a second time
    is added a second time. *)
Lemma subscribe_guard_and_unsubscribe_witness :
  let prepend := VObj [("prepend", VBool true)] in
  let once := final (subscribeAction (SubscriberFn 3) VUndef store) in
  _subscribers (final (subscribe 4 prepend store)) = [3; 4]
  ∧ _subscribers (final (subscribe 8 prepend store)) = [8; 3; 4]
  ∧ (∃ unsubscribe,
       outcome (subscribe 8 prepend store) = Ret unsubscribe
       ∧ _subscribers (final (unsubscribe (final (subscribe 8 prepend store)))) = [3; 4])
  ∧ map before (_actionSubscribers once) = [VFun 3]
  ∧ map before (_actionSubscribers (final (subscribeAction (SubscriberFn 3) VUndef once)))
    = [VFun 3; VFun 3].
Proof.
  intros prepend once.
  destruct (proj1 (subscribe_guard_and_unsubscribe store prepend) 4) as (u4 & H4 & _).
  destruct (proj1 (subscribe_guard_and_unsubscribe store prepend) 8) as (u8 & H8 & Hu8).
  split; [rewrite H4; evaluate|]. split; [rewrite H8; evaluate|].
  split.
  { exists u8. split; [by rewrite H8|].
    rewrite Hu8; [rewrite H8; evaluate|].
    rewrite H8. apply (bool_decide_unpack _). vm_compute. exact I. }
  split; [evaluate|].
  destruct (proj2 (proj2 (subscribe_guard_and_unsubscribe once VUndef)) 3)
    as (u & Hagain & _).
  { intros n Hin. vm_compute in Hin. apply list_elem_of_singleton in Hin.
    injection Hin as ->. vm_compute. lia. }
  rewrite Hagain. evaluate.
Defined.

End Concrete.

(* ===================================================================== *)
(** * Further properties of the module tree *)
(* ===================================================================== *)

Section MissingSegmentFacts.
Import Mod ModuleCollection.
Variable __DEV__ : bool.

#[local] Abbreviation unregister := (unregister __DEV__).

(** X1.  [getNamespace] raises a TypeError as soon as a segment of the path
    names no child, also when that segment is the last one: where [get]
    returns [undefined] for a path whose last segment is missing,
    [getNamespace] reads [namespaced] of the [undefined] it has just
    obtained. *)
Theorem getNamespace_missing_segment (mc : Collection) (r p : ModuleNode)
    (pre post : list string) (key : string) :
  root mc = Some r →
  descend pre r = Some p →
  getChild key p = None →
  getNamespace (pre ++ key :: post) mc = Throw (TypeError "undefined.namespaced").
Proof.
  intros Hr Hp Hk. unfold getNamespace. rewrite Hr, reduce_app.
  rewrite (namespace_walk _ _ _ _ Hp), reduce_cons. cbn [getNamespace_step].
  by rewrite Hk.
Qed.

(** X2.  [unregister] of a path whose parent is in the tree and has no child
    under the last key does nothing: it returns, the tree is the same, and
    the only effect is the console warning of a development build;
    [isRegistered] of that path is false. *)
Theorem unregister_absent_child (path : list string) (mc : Collection)
    (r parent : ModuleNode) :
  root mc = Some r →
  descend (slice_init path) r = Some parent →
  getChild (last_key path) parent = None →
  unregister path mc
  = mkRun (Ret tt) mc
      (if __DEV__
       then [ConsoleWarn ("[vuex] trying to unregister module '" +:+ last_key path
                          +:+ "', which is not registered")]
       else [])
  ∧ isRegistered path mc = Ret false.
Proof.
  intros Hr Hpar Hk. split.
  - unfold ModuleCollection.unregister, bind, reads. simpl.
    rewrite (get_resolved _ _ _ _ Hr Hpar). simpl. rewrite Hk.
    by destruct __DEV__.
  - unfold isRegistered. rewrite (get_resolved _ _ _ _ Hr Hpar).
    unfold hasChild. unfold getChild in Hk. by rewrite Hk.
Qed.

(** X3.  On a path whose parent is not in the tree, [key] being the first
    segment that names no child: [unregister] raises a TypeError and leaves
    the tree as it is, whereas [isRegistered] returns false when [key] is
    the last segment of the parent path and raises only when segments
    follow it. *)
Theorem unregister_missing_parent (mc : Collection) (r p : ModuleNode)
    (pre post : list string) (key last : string) :
  root mc = Some r →
  descend pre r = Some p →
  getChild key p = None →
  let path := pre ++ key :: post ++ [last] in
  unregister path mc = mkRun (Throw (TypeError "undefined.getChild")) mc []
  ∧ isRegistered path mc
    = if post is [] then Ret false else Throw (TypeError "undefined.getChild").
Proof.
  intros Hr Hp Hk path.
  assert (slice_init path = pre ++ key :: post) as Hinit.
  { subst path. rewrite app_comm_cons, (assoc_L (++)). apply slice_init_snoc. }
  assert (get (pre ++ key :: post) mc
          = if post is [] then Ret None else Throw (TypeError "undefined.getChild")) as Hget.
  { unfold get. rewrite Hr, (get_from_app _ _ _ _ Hp), get_from_cons, Hk.
    apply get_from_undefined. }
  split.
  - unfold ModuleCollection.unregister, bind, reads. simpl. rewrite Hinit, Hget.
    by destruct post.
  - unfold isRegistered. rewrite Hinit, Hget. by destruct post.
Qed.

(** X4.  For a non-empty path, [isRegistered] agrees with [get]: whenever
    [get(path)] returns, [isRegistered(path)] returns whether what it
    returned is a module.  The empty path is different: [get([])] is the
    root, but [isRegistered([])] asks the root for a child under the key
    [undefined], so it is false on a tree that has a root and no module of
    that name. *)
Theorem isRegistered_agrees_with_get (mc : Collection) :
  (∀ (path : list string) (found : option ModuleNode),
     path ≠ [] → get path mc = Ret found →
     isRegistered path mc = Ret (bool_decide (is_Some found)))
  ∧ (∀ r, root mc = Some r → getChild "undefined" r = None →
          get [] mc = Ret (Some r) ∧ isRegistered [] mc = Ret false).
Proof.
  split.
  - intros path found Hne. rewrite (path_split path Hne) at 1.
    unfold isRegistered, get, get_from. rewrite reduce_app.
    destruct (reduce _ (slice_init path) (root mc)) as [[parent|]|e]; try discriminate.
    rewrite reduce_cons. intros [= <-]. reflexivity.
  - intros r Hr Hk. split; [unfold get; by rewrite Hr|].
    unfold isRegistered, get. rewrite Hr. simpl. unfold hasChild.
    unfold getChild in Hk. cbn. by rewrite Hk.
Qed.

End MissingSegmentFacts.

(* ===================================================================== *)
(** ** What [register] builds *)
(* ===================================================================== *)

Section PreservesLoop.
Context {S : Type}.

Lemma preserves_forEach (R : S → S → Prop) `{!Reflexive R} `{!Transitive R} {A}
    (fn : A → M S unit) (l : list A) :
  (∀ x, preserves R (fn x)) → preserves R (forEach fn l).
Proof.
  intros H. induction l as [|x l IH].
  - by apply preserves_pure.
  - simpl. apply preserves_bind; [done | apply H | intros _; exact IH].
Qed.

Lemma bind_throw_run {A B} (m : M S A) (k : A → M S B) (s s' : S) (e : Exn)
    (tr : list Event) :
  m s = mkRun (Throw e) s' tr → bind m k s = mkRun (Throw e) s' tr.
Proof. intros H. unfold bind. by rewrite H. Qed.

Lemma try_catch_outcome {A} (m : M S A) (h : Exn → M S A) (s : S) :
  outcome (try_catch m h s)
  = match outcome (m s) with
    | Ret a => Ret a
    | Throw e => outcome (h e (final (m s)))
    end.
Proof. unfold try_catch. destruct (outcome (m s)) eqn:H; [exact H | reflexivity]. Qed.

Lemma preserves_forEachValue (R : S → S → Prop) `{!Reflexive R} `{!Transitive R} {V}
    (obj : list (string * V)) (fn : V → string → M S unit) :
  Forall (λ kv, preserves R (fn kv.2 kv.1)) obj → preserves R (Util.forEachValue obj fn).
Proof.
  unfold Util.forEachValue. induction 1 as [|[k v] l Hkv Hl IH].
  - by apply preserves_pure.
  - apply preserves_bind; [done | exact Hkv | intros _; exact IH].
Qed.

End PreservesLoop.

Lemma raw_child_snoc (key k0 : string) (c0 : RawModule) (l : list (string * RawModule)) :
  raw_child key (l ++ [(k0, c0)]) = if String.eqb k0 key then Some c0 else raw_child key l.
Proof.
  induction l as [|[k c] l IH]; simpl; [by destruct (String.eqb k0 key)|].
  rewrite IH. destruct (String.eqb k0 key); [reflexivity|].
  by destruct (raw_child key l).
Qed.

Section RegisterTreeFacts.
Import Mod ModuleCollection.
Variable __DEV__ : bool.
Variable JSON_stringify : Value → string.
Variable init_state : FnRef → Value.

#[local] Abbreviation register := (register __DEV__ JSON_stringify init_state).
#[local] Abbreviation assertRawModule := (assertRawModule JSON_stringify).

(** A change made at or below [p ++ s] that leaves alone the child [key] of the module
    at [p] leaves alone what is found under that child. *)
Lemma descend_at_path_other (p q s : list string) (key : string)
    (f : ModuleNode → ModuleNode) (r : ModuleNode) :
  match s with
  | [] => ∀ x, getChild key (f x) = getChild key x
  | k' :: _ => k' ≠ key
  end →
  descend (p ++ key :: q) (at_path (p ++ s) f r) = descend (p ++ key :: q) r.
Proof.
  intros Hs. revert r. induction p as [|a p IH]; intros r.
  - simpl. destruct s as [|k' s]; simpl; [by rewrite Hs|].
    destruct (getChild k' r) as [c|]; [|reflexivity].
    rewrite getChild_addChild. by rewrite decide_False.
  - simpl. destruct (getChild a r) as [c|] eqn:Hc; simpl; [|by rewrite Hc].
    rewrite getChild_addChild, decide_True by reflexivity. simpl. apply IH.
Qed.

Lemma shell_at_modified_below (p s : list string) (x c : ModuleNode) (key : string)
    (mc : Collection) :
  shell_at p x mc → shell_at p x (on_root (at_path (p ++ s) (addChild key c)) mc).
Proof.
  intros (m & Hm & Hx). unfold resolve in *.
  destruct (root mc) as [r|] eqn:Hr; [|discriminate]. simpl in Hm.
  exists (at_path s (addChild key c) m). split.
  - unfold on_root. rewrite Hr. simpl. by apply descend_at_path.
  - rewrite <- Hx. destruct s as [|k s]; simpl; [reflexivity|].
    by destruct (getChild k m).
Qed.

(** Registering strictly below [p] leaves the module at [p] what it is,
    its children apart. *)
Lemma register_keeps_shell (p : list string) (x : ModuleNode) (raw : RawModule) :
  ∀ (s : list string) (rt : bool),
    s ≠ [] → keeps (shell_at p x) (register (p ++ s) raw rt).
Proof.
  induction raw as [ns st g mu a oms IH] using RawModule_nested_ind.
  intros s rt Hs. rewrite register_unfold.
  apply keeps_bind.
  { apply keeps_pure. intros mc. apply when_final. intros mc'. apply assertRawModule_final. }
  intros _. apply keeps_bind.
  - rewrite bool_decide_false
      by (rewrite length_app; destruct s; [done | simpl; lia]).
    apply keeps_bind; [by apply keeps_pure|].
    intros [parent|]; [|by apply keeps_pure].
    intros mc Hmc. unfold modify. simpl.
    unfold slice_init. rewrite removelast_app by exact Hs.
    by apply shell_at_modified_below.
  - intros _. simpl. destruct oms as [ms|]; [|by apply keeps_pure].
    apply keeps_forEachValue. eapply Forall_impl; [exact IH|].
    intros [k rawChild] Hchild. simpl in *. rewrite <- (assoc_L (++)).
    apply Hchild. by destruct s.
Qed.

#[local] Instance same_at_refl (t : list string) : Reflexive (same_at t).
Proof. by intros mc. Qed.

#[local] Instance same_at_trans (t : list string) : Transitive (same_at t).
Proof. unfold same_at. intros a b c Hab Hbc. congruence. Qed.

(** Registering at or below the sibling [k0] of [key] leaves alone what is
    found under [key]. *)
Lemma register_elsewhere (p q : list string) (key k0 : string) (raw : RawModule) :
  k0 ≠ key →
  ∀ (s : list string) (rt : bool),
    preserves (same_at (p ++ key :: q)) (register (p ++ k0 :: s) raw rt).
Proof.
  intros Hne. induction raw as [ns st g mu a oms IH] using RawModule_nested_ind.
  intros s rt. rewrite register_unfold.
  apply preserves_bind; [apply _| |].
  { apply preserves_pure; [apply _|]. apply when_final. intros; apply assertRawModule_final. }
  intros _. apply preserves_bind; [apply _| |].
  - rewrite bool_decide_false by (rewrite length_app; simpl; lia).
    apply preserves_bind; [apply _| |].
    { apply preserves_pure; [apply _|]. by intros mc. }
    intros [parent|]; [|apply preserves_pure; [apply _ | by intros mc]].
    intros mc. unfold modify, same_at, resolve, on_root. simpl.
    destruct (root mc) as [r|]; [|reflexivity]. simpl.
    destruct s as [|k1 s].
    + rewrite slice_init_snoc, last_key_snoc. rewrite <- (app_nil_r p) at 2.
      apply descend_at_path_other. intros x.
      rewrite getChild_addChild. by rewrite decide_False.
    + unfold slice_init. rewrite removelast_app by done.
      by apply descend_at_path_other.
  - intros _. simpl. destruct oms as [ms|]; [|by apply preserves_pure; [apply _|]].
    apply preserves_forEachValue; [apply _ | apply _ |].
    eapply Forall_impl; [exact IH|].
    intros [k rawChild] Hchild. simpl in *. rewrite <- (assoc_L (++)). simpl.
    apply Hchild.
Qed.

Lemma get_from_Some (path : list string) (start : option ModuleNode) (x : ModuleNode) :
  get_from start path = Ret (Some x) → start ≫= descend path = Some x.
Proof.
  revert start. induction path as [|k path IH]; intros start.
  - unfold get_from, reduce. simpl. intros [= ->]. reflexivity.
  - destruct start as [m|].
    + rewrite get_from_cons. intros H. apply IH in H. exact H.
    + by rewrite get_from_undefined.
Qed.

(** The step of [register] that attaches the new module object. *)
#[local] Abbreviation attach p newModule :=
  (if bool_decide (length p = 0) then
     modify (λ _, mkCollection (Some newModule))
   else
     parent <- reads (get (slice_init p)) ;;
     match parent with
     | Some _ =>
         modify (on_root (at_path (slice_init p) (addChild (last_key p) newModule)))
     | None => throw (TypeError "undefined.addChild")
     end).

Lemma attach_resolve (p : list string) (newModule : ModuleNode) (mc : Collection) :
  outcome (attach p newModule mc) = Ret tt →
  resolve p (final (attach p newModule mc)) = Some newModule.
Proof.
  case_bool_decide as Hp.
  - intros _. destruct p; [reflexivity | discriminate].
  - assert (p ≠ []) as Hne by (intros ->; by apply Hp).
    unfold bind, reads. simpl.
    destruct (get (slice_init p) mc) as [[parent|]|e] eqn:Hget; simpl; try discriminate.
    intros _. apply get_from_Some in Hget.
    unfold resolve, on_root. destruct (root mc) as [r|]; [|discriminate]. simpl in *.
    rewrite (path_split p Hne) at 1. rewrite descend_snoc.
    rewrite <- (app_nil_r (slice_init p)) at 2.
    rewrite (descend_at_path _ _ _ _ _ Hget). simpl.
    rewrite getChild_addChild. by rewrite decide_True.
Qed.

(** The loop of [register] over the nested declarations, [l1] being the
    ones already registered and [l2] the ones to come. *)
Lemma register_children_built (p : list string) (x : ModuleNode) (rt : bool)
    (l2 : list (string * RawModule)) :
  Forall (λ kr : string * RawModule,
            ∀ p' mc', outcome (register p' kr.2 rt mc') = Ret tt →
                      ∀ q, match raw_descend q kr.2 with
                           | Some child =>
                               shell_at (p' ++ q) (Mod.new init_state child rt)
                                 (final (register p' kr.2 rt mc'))
                           | None => resolve (p' ++ q) (final (register p' kr.2 rt mc')) = None
                           end) l2 →
  ∀ (l1 : list (string * RawModule)) (mc : Collection),
    shell_at p x mc →
    (∀ k q, match raw_child k l1 ≫= raw_descend q with
            | Some child => shell_at (p ++ k :: q) (Mod.new init_state child rt) mc
            | None => resolve (p ++ k :: q) mc = None
            end) →
    outcome (Util.forEachValue l2 (λ rawChildModule key,
               register (p ++ [key]) rawChildModule rt) mc) = Ret tt →
    let mc' := final (Util.forEachValue l2 (λ rawChildModule key,
                        register (p ++ [key]) rawChildModule rt) mc) in
    shell_at p x mc'
    ∧ ∀ k q, match raw_child k (l1 ++ l2) ≫= raw_descend q with
             | Some child => shell_at (p ++ k :: q) (Mod.new init_state child rt) mc'
             | None => resolve (p ++ k :: q) mc' = None
             end.
Proof.
  induction 1 as [|[k0 c0] rest Hc0 Hrest IH]; intros l1 mc Hshell Hbuilt Hret.
  - simpl. by rewrite app_nil_r.
  - unfold Util.forEachValue in Hret |- *.
    apply bind_ret_inv in Hret as ([] & Hfirst & Hloop & Hfinal & _).
    cbv zeta. rewrite Hfinal. clear Hfinal.
    change (l1 ++ (k0, c0) :: rest) with (l1 ++ [(k0, c0)] ++ rest).
    rewrite (assoc_L (++)). apply IH; [| |exact Hloop].
    + by apply register_keeps_shell.
    + intros k q. rewrite raw_child_snoc.
      destruct (String.eqb k0 k) eqn:Hk.
      * apply String.eqb_eq in Hk as <-. simpl in Hc0 |- *.
        specialize (Hc0 (p ++ [k0]) mc Hfirst q).
        by rewrite <- (assoc_L (++)) in Hc0.
      * apply String.eqb_neq in Hk.
        pose proof (register_elsewhere p q k k0 c0 Hk [] rt mc) as Hsame.
        unfold same_at in Hsame. specialize (Hbuilt k q).
        unfold shell_at in *. by rewrite Hsame.
Qed.

(** X5.  A [register(path, decl, runtime)] that returns has put, at [path]
    and below it, exactly the modules of the declaration: under
    [path ++ q] there is a module precisely when the declaration has a
    nested declaration under the keys [q], and that module carries this
    nested declaration, the state it gives and the [runtime] flag of the
    call.  Whatever was at [path] before is gone, and every nested module
    is as removable as the one at [path]. *)
Theorem register_builds_declared_tree (decl : RawModule) :
  ∀ (p : list string) (rt : bool) (mc : Collection),
    outcome (register p decl rt mc) = Ret tt →
    ∀ q, match raw_descend q decl with
         | Some child =>
             ∃ m, resolve (p ++ q) (final (register p decl rt mc)) = Some m
                  ∧ set_children ∅ m = Mod.new init_state child rt
         | None => resolve (p ++ q) (final (register p decl rt mc)) = None
         end.
Proof.
  induction decl as [ns st g mu a oms IH] using RawModule_nested_ind.
  intros p rt mc. set (raw := mkRawModule ns st g mu a oms) in *.
  rewrite register_unfold. intros Hret.
  apply bind_ret_inv in Hret as ([] & _ & Hret & -> & _).
  rewrite when_final in * by (intros; apply assertRawModule_final).
  apply bind_ret_inv in Hret as ([] & Hattach & Hloop & -> & _).
  apply attach_resolve in Hattach.
  revert Hattach Hloop.
  generalize (final (attach p (Mod.new init_state raw rt) mc)). intros mc1 Hattach Hloop.
  assert (shell_at p (Mod.new init_state raw rt) mc1) as Hshell.
  { exists (Mod.new init_state raw rt). by split. }
  assert (∀ k q, match raw_child k [] ≫= raw_descend q with
                 | Some child => shell_at (p ++ k :: q) (Mod.new init_state child rt) mc1
                 | None => resolve (p ++ k :: q) mc1 = None
                 end) as Hnone.
  { intros k q. simpl. unfold resolve in *.
    destruct (root mc1) as [r|]; [|reflexivity]. simpl in *.
    by rewrite descend_app, Hattach. }
  set (ms := default [] oms).
  assert (Forall (λ kr : string * RawModule,
            ∀ p' mc', outcome (register p' kr.2 rt mc') = Ret tt →
                      ∀ q, match raw_descend q kr.2 with
                           | Some child =>
                               shell_at (p' ++ q) (Mod.new init_state child rt)
                                 (final (register p' kr.2 rt mc'))
                           | None => resolve (p' ++ q) (final (register p' kr.2 rt mc')) = None
                           end) ms) as Hms.
  { subst ms. destruct oms as [ms|]; [|constructor]. simpl in IH |- *.
    eapply Forall_impl; [exact IH|]. intros kr Hkr p' mc'. apply Hkr. }
  assert (match raw_modules raw with
          | Some ms' =>
              Util.forEachValue ms' (λ rawChildModule key,
                register (p ++ [key]) rawChildModule rt)
          | None => ret tt
          end = Util.forEachValue ms (λ rawChildModule key,
                  register (p ++ [key]) rawChildModule rt)) as Hsame.
  { subst ms. by destruct oms. }
  rewrite Hsame in *. clear Hsame.
  destruct (register_children_built p _ rt ms Hms [] mc1 Hshell Hnone Hloop)
    as [Hp Hbelow].
  intros [|k q].
  - rewrite app_nil_r. exact Hp.
  - specialize (Hbelow k q). simpl in Hbelow.
    assert (raw_descend (k :: q) raw = raw_child k ms ≫= raw_descend q) as ->.
    { subst ms. simpl. by destruct oms. }
    exact Hbelow.
Qed.

End RegisterTreeFacts.

(* ===================================================================== *)
(** * Further properties of commit and dispatch *)
(* ===================================================================== *)

Section DispatchLookup.
Import Store.
Variable __DEV__ : bool.
Variable global_w : bool.
Variable ToString : Value → string.
Variable thenable_fate : Value → Fate Value.
Variable call : FnRef → list Arg → t → Outcome Value * t.

#[local] Abbreviation dispatch := (dispatch __DEV__ global_w ToString thenable_fate call).

Lemma dispatch_unregistered (type : string) (payload : Value) (s : t) :
  _actions s !! type = None →
  dispatch (VStr type) payload s
  = mkRun (Ret VUndef) s
      (if __DEV__ then [ConsoleError ("[vuex] unknown action type: " +:+ type)] else []).
Proof.
  intros Hentry. unfold Store.dispatch.
  rewrite (bind_pure _ _ _ _ (unifyObjectStyle_string _ _ _ _ _)).
  erewrite bind_pure; [|unfold gets, to_string; by rewrite Hentry].
  unfold bind. by destruct __DEV__.
Qed.

End DispatchLookup.

Section EngineEdgeFacts.
Import Store.
Variable __DEV__ : bool.
Variable global_w : bool.
Variable ToString : Value → string.
Variable thenable_fate : Value → Fate Value.
Variable call : FnRef → list Arg → t → Outcome Value * t.

#[local] Abbreviation commit := (commit __DEV__ ToString call).
#[local] Abbreviation dispatch := (dispatch __DEV__ global_w ToString thenable_fate call).
#[local] Abbreviation local_commit := (local_commit __DEV__ ToString call).
#[local] Abbreviation local_dispatch :=
  (local_dispatch __DEV__ global_w ToString thenable_fate call).
#[local] Abbreviation run_handlers := (run_handlers call).

(** X6.  [commit] on a type under which no mutation is registered calls
    nothing, neither a handler nor a subscriber, leaves the store as it is
    and returns [undefined]; a development build logs one console error
    naming the type, a production build is silent. *)
Theorem commit_unknown_type (type : string) (payload options : Value) (s : t) :
  _mutations s !! type = None →
  commit (VStr type) payload options s
  = mkRun (Ret VUndef) s
      (if __DEV__ then [ConsoleError ("[vuex] unknown mutation type: " +:+ type)] else []).
Proof. apply commit_unregistered. Qed.

(** X7.  [dispatch] on a type under which no action is registered returns
    [undefined], not a promise, whether or not the identifier [w] is bound:
    no subscriber and no handler is called, the store is as it was, and a
    development build logs one console error naming the type. *)
Theorem dispatch_unknown_type (type : string) (payload : Value) (s : t) :
  _actions s !! type = None →
  dispatch (VStr type) payload s
  = mkRun (Ret VUndef) s
      (if __DEV__ then [ConsoleError ("[vuex] unknown action type: " +:+ type)] else []).
Proof. apply dispatch_unregistered. Qed.

(** X8.  In a module with a non-empty namespace, a local [commit] or
    [dispatch] without [options.root] on a type that is not registered
    under [namespace + type] returns [undefined] and leaves the store as it
    is.  A development build stops in the local function, with one console
    error that names the local and the global type; a production build
    goes on to [store.commit] or [store.dispatch], which finds nothing and
    is silent. *)
Theorem local_unknown_type (local : Local) (type : string) (payload options : Value)
    (s : t) :
  namespace local ≠ EmptyString →
  option_set options "root" = false →
  (_mutations s !! (namespace local +:+ type) = None →
   local_commit local (VStr type) payload options s
   = mkRun (Ret VUndef) s
       (if __DEV__
        then [ConsoleError ("[vuex] unknown local mutation type: " +:+ type
                            +:+ ", global type: " +:+ (namespace local +:+ type))]
        else []))
  ∧ (_actions s !! (namespace local +:+ type) = None →
     local_dispatch local (VStr type) payload options s
     = mkRun (Ret VUndef) s
         (if __DEV__
          then [ConsoleError ("[vuex] unknown local action type: " +:+ type
                              +:+ ", global type: " +:+ (namespace local +:+ type))]
          else [])).
Proof.
  intros Hns Hroot. apply String.eqb_neq in Hns. split; intros Hentry.
  - unfold Store.local_commit. rewrite Hns.
    rewrite (bind_pure _ _ _ _ (unifyObjectStyle_string _ _ _ _ _)).
    rewrite Hroot. cbn [negb]. change (to_string ToString (VStr type)) with type.
    erewrite bind_pure; [|unfold gets; by rewrite Hentry].
    rewrite bool_decide_false by (by intros [? ?]).
    destruct __DEV__; simpl; [reflexivity|]. unfold bind.
    by rewrite (commit_unregistered false ToString call _ _ _ _ Hentry).
  - unfold Store.local_dispatch. rewrite Hns.
    rewrite (bind_pure _ _ _ _ (unifyObjectStyle_string _ _ _ _ _)).
    rewrite Hroot. cbn [negb]. change (to_string ToString (VStr type)) with type.
    erewrite bind_pure; [|unfold gets; by rewrite Hentry].
    rewrite bool_decide_false by (by intros [? ?]).
    destruct __DEV__; simpl; [reflexivity|].
    exact (dispatch_unregistered false global_w ToString thenable_fate call _ _ _ Hentry).
Qed.

(** X9.  A type that is neither a string nor an object with a truthy
    [type] property: a development build refuses it in
    [unifyObjectStyle], so that [commit] and [dispatch] throw the assertion
    error before any registry is read, nothing is called and the store is
    untouched; a production build has no such check, and an object whose
    [type] property is a truthy non-string is refused in the same way. *)
Theorem type_must_be_string (type payload options : Value) (s : t) :
  __DEV__ = true →
  let unified := if Util.isObject type && truthy (default VUndef (prop type "type"))
                 then default VUndef (prop type "type") else type in
  typeof unified ≠ "string" →
  let refusal := Error ("[vuex] expects string as the type, but found "
                        +:+ typeof unified +:+ ".") in
  commit type payload options s = mkRun (Throw refusal) s []
  ∧ dispatch type payload s = mkRun (Throw refusal) s [].
Proof.
  intros Hdev unified Hty refusal. apply String.eqb_neq in Hty.
  assert (∀ third, unifyObjectStyle __DEV__ type payload third s
                   = mkRun (Throw refusal) s []) as Hunify.
  { intros third. unfold unifyObjectStyle. subst unified refusal.
    destruct (Util.isObject type && truthy (default VUndef (prop type "type")));
      rewrite Hdev; unfold bind, when, Util.assert; rewrite Hty; reflexivity. }
  split.
  - unfold Store.commit, bind. by rewrite Hunify.
  - unfold Store.dispatch, bind. by rewrite Hunify.
Qed.

(** X10.  The exception of a handler goes through [commit]: once a handler
    has thrown, no later handler and no subscriber is called, and the
    store is left as the handlers left it, [_committing] included, which
    stays true when the user's functions do not touch it. *)
Theorem commit_handler_exception (s : t) (type : string) (payload options : Value)
    (entry : list WrappedMutation) (e : Exn) :
  _mutations s !! type = Some entry →
  outcome (run_handlers entry payload (set_committing true s)) = Throw e →
  let handlers := run_handlers entry payload (set_committing true s) in
  commit (VStr type) payload options s = mkRun (Throw e) (final handlers) (trace handlers)
  ∧ ((∀ fn args s', _committing (call fn args s').2 = _committing s') →
     _committing (final handlers) = true).
Proof.
  intros Hentry Hthrow handlers. split.
  - rewrite (commit_registered _ _ _ _ _ _ _ _ Hentry).
    apply bind_throw_run. rewrite withCommit_unfold. cbv zeta.
    subst handlers. by rewrite Hthrow.
  - intros Hkeep. subst handlers.
    change true with (_committing (set_committing true s)) at 2.
    generalize (set_committing true s). clear Hthrow Hentry. intros s0.
    enough (preserves (λ s1 s2, _committing s2 = _committing s1)
              (run_handlers entry payload)) as H by exact (H s0).
    apply preserves_forEach;
      [by intros s1 | intros s1 s2 s3 H12 H23; congruence |].
    intros w s1. unfold wrappedMutationHandler, local_state.
      destruct (mutation_handler w); try reflexivity;
        unfold bind, gets, lift; simpl;
        destruct (getNestedState (state s1) (path (mutation_local w))); simpl;
        try reflexivity.
      unfold invoke. simpl. rewrite <- (Hkeep f [AVal a; AVal payload] s1).
      by destruct (call f [AVal a; AVal payload] s1).1.
Qed.

Lemma notify_action_subscribers_returns (which : ActionSub → Value) (label : string)
    (args : Value → list Arg) (s : t) :
  outcome (notify_action_subscribers __DEV__ call which label args s) = Ret tt.
Proof.
  unfold notify_action_subscribers. rewrite try_catch_outcome.
  destruct (outcome _) as [[]|e]; [reflexivity|].
  by destruct __DEV__.
Qed.

Lemma forEach_app_run {A} (fn : A → M t unit) (pre rest : list A) (s : t) :
  outcome (forEach fn pre s) = Ret tt →
  forEach fn (pre ++ rest) s
  = mkRun (outcome (forEach fn rest (final (forEach fn pre s))))
      (final (forEach fn rest (final (forEach fn pre s))))
      (trace (forEach fn pre s) ++ trace (forEach fn rest (final (forEach fn pre s)))).
Proof.
  revert s. induction pre as [|x pre IH]; intros s.
  - intros _. simpl. by destruct (forEach fn rest s).
  - change (forEach fn ((x :: pre) ++ rest)) with (fn x ;;; forEach fn (pre ++ rest)).
    change (forEach fn (x :: pre)) with (fn x ;;; forEach fn pre).
    unfold bind. destruct (outcome (fn x s)) as [[]|e]; [|discriminate].
    cbn [outcome final trace]. intros Hpre. rewrite (IH _ Hpre).
    cbn [outcome final trace]. by rewrite (assoc_L (++)).
Qed.

(** X11.  The three loops over the action subscribers never let an
    exception out: the loop always returns.  The [try] encloses the whole
    loop.  When every subscriber returns, all of them have been called, in
    the order of the list.  Otherwise the first subscriber that throws ends
    the loop, wherever it is in the list: the subscribers before it have
    been called, the subscribers after it are not called for this dispatch,
    and the exception is logged by a development build and dropped by a
    production build. *)
Theorem action_subscriber_errors_are_caught (which : ActionSub → Value) (label : string)
    (args : Value → list Arg) (s : t) :
  let notified := List.filter (λ sub, truthy (which sub)) (_actionSubscribers s) in
  let one := λ sub, st <- gets state ;; call_subscriber call (which sub) (args st) in
  outcome (notify_action_subscribers __DEV__ call which label args s) = Ret tt
  ∧ (outcome (forEach one notified s) = Ret tt →
     notify_action_subscribers __DEV__ call which label args s
     = mkRun (Ret tt) (final (forEach one notified s)) (trace (forEach one notified s)))
  ∧ ∀ earlier sub later fn e s',
      notified = earlier ++ sub :: later →
      outcome (forEach one earlier s) = Ret tt →
      let s1 := final (forEach one earlier s) in
      which sub = VFun fn →
      call fn (args (state s1)) s1 = (Throw e, s') →
      notify_action_subscribers __DEV__ call which label args s
      = mkRun (Ret tt) s'
          (trace (forEach one earlier s)
           ++ Call fn (args (state s1))
           :: if __DEV__
              then [ConsoleWarn ("[vuex] error in " +:+ label +:+ " action subscribers: ");
                    ConsoleErrorExn e]
              else []).
Proof.
  intros notified one. split; [apply notify_action_subscribers_returns|].
  assert ((subs <- gets _actionSubscribers ;;
           forEach (λ sub, st <- gets state ;; call_subscriber call (which sub) (args st))
                   (List.filter (λ sub, truthy (which sub)) subs)) s
          = forEach one notified s) as Hloop.
  { by rewrite (bind_pure _ _ _ (_actionSubscribers s)). }
  unfold notify_action_subscribers, try_catch. cbv zeta. rewrite !Hloop. split.
  - intros Hret. rewrite Hret. rewrite <- (Run_eta (forEach one notified s)) at 1.
    by rewrite Hret.
  - intros earlier sub later fn e s' Hsubs Hearlier.
    set (s1 := final (forEach one earlier s)). intros Hfn Hcall.
    rewrite Hsubs, (forEach_app_run one _ _ _ Hearlier).
    fold s1.
    assert (one sub s1 = mkRun (Throw e) s' [Call fn (args (state s1))]) as Hone.
    { unfold one, bind, gets, call_subscriber. simpl. rewrite Hfn.
      unfold bind, invoke. simpl. by rewrite Hcall. }
    assert (forEach one (sub :: later) s1
            = mkRun (Throw e) s' [Call fn (args (state s1))]) as ->.
    { change (forEach one (sub :: later)) with (one sub ;;; forEach one later).
      rewrite (bind_throw _ _ _ e) by (by rewrite Hone). by rewrite Hone. }
    cbn [outcome final trace].
    destruct __DEV__; simpl; by rewrite <- ?(assoc_L (++)), ?app_nil_r.
Qed.

(** X12.  The wrapped action handler, when it returns, has called the
    user's handler once, with the context bundle of its module and the
    payload, and has made a thenable of the result: the result itself when
    it is a thenable, and otherwise a promise already fulfilled with it.
    Without the devtool hook it returns that thenable.  With the devtool
    hook set it returns [res.catch(...)]: for a promise, a promise of the
    same fate; for a thenable of the user, what the [catch] method of that
    thenable returns or throws when called with the error callback, which
    need not be a thenable. *)
Theorem wrapped_action_result (w : WrappedAction) (payload : Value) (s : t) (v : Value) :
  outcome (wrappedActionHandler call w payload s) = Ret v →
  ∃ fn ls res s1,
    action_handler w = VFun fn
    ∧ getNestedState (state s) (path (action_local w)) = Ret ls
    ∧ let args := [ACtx (namespace (action_local w)) ls (state s); AVal payload] in
      let made := if Util.isPromise res then res else VPromise (Fulfilled 0 res) in
      call fn args s = (Ret res, s1)
      ∧ Util.isPromise made = true
      ∧ (_devtoolHook s1 = false →
         wrappedActionHandler call w payload s = mkRun (Ret made) s1 [Call fn args])
      ∧ (∀ p, _devtoolHook s1 = true → made = VPromise p →
              wrappedActionHandler call w payload s
              = mkRun (Ret (VPromise p)) s1 [Call fn args])
      ∧ (_devtoolHook s1 = true → (∀ p, made ≠ VPromise p) →
         ∃ catch,
           prop made "catch" = Some (VFun catch)
           ∧ wrappedActionHandler call w payload s
             = mkRun (call catch [AThis made; ADevtoolError] s1).1
                 (call catch [AThis made; ADevtoolError] s1).2
                 [Call fn args; Call catch [AThis made; ADevtoolError]]).
Proof.
  unfold wrappedActionHandler, local_state.
  destruct (action_handler w) as [| |b|z|str|fn|items|fields|p] eqn:Hh;
    try discriminate;
    unfold bind, gets, lift; simpl;
    destruct (getNestedState (state s) (path (action_local w))) as [ls|e] eqn:Hls;
    simpl; try discriminate.
  unfold invoke. simpl.
  destruct (call fn [ACtx (namespace (action_local w)) ls (state s); AVal payload] s)
    as [[res|e] s1] eqn:Hcall; simpl; [|discriminate].
  intros Hret. exists fn, ls, res, s1.
  split; [reflexivity|]. split; [reflexivity|]. cbv zeta.
  split; [exact Hcall|]. revert Hret.
  generalize (Call fn [ACtx (namespace (action_local w)) ls (state s); AVal payload]).
  intros called.
  assert (Util.isPromise (if Util.isPromise res then res else VPromise (Fulfilled 0 res))
          = true) as Hmade by (by destruct (Util.isPromise res) eqn:Hres).
  revert Hmade. generalize (if Util.isPromise res then res else VPromise (Fulfilled 0 res)).
  intros made Hmade Hret.
  split; [exact Hmade|]. split; [|split].
  - intros Hhook. by rewrite Hhook.
  - intros p Hhook ->. by rewrite Hhook.
  - intros Hhook Hnot. rewrite Hhook in Hret |- *.
    assert (∃ catch, prop made "catch" = Some (VFun catch)) as [catch Hcatch].
    { destruct made as [| |b|z|str|f|items|fields|p]; try discriminate Hmade;
        try (by destruct (Hnot p));
        (destruct (prop _ "catch") as [[| |?|?|?|catch|?|?|?]|]; try discriminate Hret;
         by exists catch). }
    exists catch. split; [exact Hcatch|].
    destruct made as [| |b|z|str|f|items|fields|p]; try discriminate Hmade;
      try (by destruct (Hnot p)); rewrite Hcatch; reflexivity.
Qed.


End EngineEdgeFacts.

(* ===================================================================== *)
(** * Further properties of the subscriptions *)
(* ===================================================================== *)

Section UnsubscribeFacts.
Import Store.
Context {A K : Type} `{EqDecision K} (key : A → K).

#[local] Abbreviation same_key := (same_key key).

Lemma unsubscribe_NoDup (fn : A) (subs : list A) :
  NoDup (map key subs) → NoDup (map key (unsubscribe same_key fn subs)).
Proof.
  intros Hnd. rewrite (unsubscribe_filter key _ _ Hnd).
  eapply sublist_NoDup; [exact Hnd|]. apply fmap_sublist, sublist_filter.
Qed.

Lemma unsubscribe_elem_of (fn x : A) (subs : list A) :
  NoDup (map key subs) → x ∈ unsubscribe same_key fn subs → x ∈ subs.
Proof.
  intros Hnd. rewrite (unsubscribe_filter key _ _ Hnd).
  by intros [_ ?]%list_elem_of_filter.
Qed.

Lemma unsubscribe_twice (fn : A) (subs : list A) :
  NoDup (map key subs) →
  unsubscribe same_key fn (unsubscribe same_key fn subs) = unsubscribe same_key fn subs.
Proof.
  intros Hnd.
  rewrite (unsubscribe_filter key fn (unsubscribe same_key fn subs))
    by by apply unsubscribe_NoDup.
  rewrite (unsubscribe_filter key _ _ Hnd).
  by apply list_filter_filter_l.
Qed.

Lemma unsubscribe_fresh (fn : A) (subs : list A) :
  key fn ∉ map key subs →
  unsubscribe same_key fn (subs ++ [fn]) = subs
  ∧ unsubscribe same_key fn (fn :: subs) = subs.
Proof.
  intros Hfresh. split.
  - unfold unsubscribe, Store.same_key. induction subs as [|x subs IH]; simpl.
    + by rewrite bool_decide_true.
    + apply not_elem_of_cons in Hfresh as [Hne Hfresh].
      rewrite bool_decide_false by congruence.
      specialize (IH Hfresh).
      destruct (indexOf _ fn (subs ++ [fn])); simpl in *; f_equal; exact IH.
  - unfold unsubscribe, Store.same_key. simpl. by rewrite bool_decide_true.
Qed.

End UnsubscribeFacts.

Section SubscriptionInvariant.
Import Store.

(** X14.  The subscriber lists never hold a subscriber twice.  This holds
    of a store without subscribers, and [subscribe], [subscribeAction]
    (with a function, or with an object the caller made) and the
    unsubscribe functions they return all keep it, whatever the options;
    the objects [subscribeAction] allocates for functions stay distinct
    from one another. *)
Theorem subscriptions_stay_duplicate_free (s : t) (options : Value) :
  (_subscribers s = [] → _actionSubscribers s = [] → subscribers_wf s)
  ∧ (subscribers_wf s →
     (∀ fn unsub,
        outcome (subscribe fn options s) = Ret unsub →
        subscribers_wf (final (subscribe fn options s))
        ∧ ∀ s2, subscribers_wf s2 → subscribers_wf (final (unsub s2)))
     ∧ (∀ sub unsub,
          (if sub is SubscriberObj o then ∃ n, sub_id o = UserObject n else True) →
          outcome (subscribeAction sub options s) = Ret unsub →
          subscribers_wf (final (subscribeAction sub options s))
          ∧ ∀ s2, subscribers_wf s2 → subscribers_wf (final (unsub s2)))).
Proof.
  split.
  { intros Hs Ha. unfold subscribers_wf. rewrite Hs, Ha. simpl.
    split; [constructor|]. split; [constructor|]. intros n Hn. by apply elem_of_nil in Hn. }
  intros (Hsubs & Hasubs & Halloc). split.
  - intros fn unsub. unfold subscribe.
    pose proof (genericSubscribe_NoDup id fn (_subscribers s) options) as Hnd.
    rewrite !map_id_list in Hnd. specialize (Hnd Hsubs).
    change (Store.same_key id) with same_function in Hnd.
    destruct (genericSubscribe same_function fn (_subscribers s) options) as [l u] eqn:Hg.
    simpl. intros [= <-]. split; [by repeat split|].
    intros s2 (Hsubs2 & Hasubs2 & Halloc2). unfold modify. simpl.
    unfold genericSubscribe in Hg. injection Hg as _ <-.
    split; [|by split]. simpl.
    pose proof (unsubscribe_NoDup id fn (_subscribers s2)) as Hnd2.
    rewrite !map_id_list in Hnd2. by apply Hnd2.
  - intros sub unsub Huser Hret.
    pose proof (subscribeAction_allocation sub options s Huser Halloc) as Halloc'.
    cbv zeta in Halloc'. revert Hret Halloc'. unfold subscribeAction.
    set (entry := match sub with
                  | SubscriberFn f =>
                      (mkActionSub (Allocated (allocated s)) (VFun f) VUndef VUndef,
                       set_allocated (S (allocated s)) s)
                  | SubscriberObj o => (o, s)
                  end).
    assert (_actionSubscribers entry.2 = _actionSubscribers s
            ∧ _subscribers entry.2 = _subscribers s) as [Hsame Hsame'].
    { subst entry. by destruct sub. }
    destruct entry as [subs s1]. simpl in Hsame, Hsame'.
    pose proof (genericSubscribe_NoDup sub_id subs (_actionSubscribers s1) options) as Hnd.
    rewrite <- Hsame in Hasubs. specialize (Hnd Hasubs).
    change (Store.same_key sub_id) with same_object in Hnd.
    destruct (genericSubscribe same_object subs (_actionSubscribers s1) options)
      as [l u] eqn:Hg.
    simpl. intros [= <-] Halloc'. split.
    { split; [simpl; by rewrite Hsame'|]. split; [exact Hnd | exact Halloc']. }
    intros s2 (Hsubs2 & Hasubs2 & Halloc2). unfold modify. simpl.
    unfold genericSubscribe in Hg. injection Hg as _ <-.
    split; [exact Hsubs2|]. simpl. split; [by apply unsubscribe_NoDup|].
    intros n (y & Hy & Hin)%list_elem_of_fmap.
    apply (unsubscribe_elem_of sub_id) in Hin; [|exact Hasubs2].
    apply Halloc2. apply list_elem_of_fmap. by exists y.
Qed.

(** X15.  Subscribing a function that is not yet a subscriber and then
    calling the function returned restores the store, with or without
    [options.prepend]; and calling an unsubscribe function a second time
    changes nothing. *)
Theorem subscribe_unsubscribe_round_trip (s : t) (fn : FnRef) (options : Value)
    (unsub : M t unit) :
  outcome (subscribe fn options s) = Ret unsub →
  (fn ∉ _subscribers s → final (unsub (final (subscribe fn options s))) = s)
  ∧ ∀ s2, NoDup (_subscribers s2) →
          final (unsub (final (unsub s2))) = final (unsub s2).
Proof.
  unfold subscribe.
  pose proof (genericSubscribe_list id fn (_subscribers s) options) as Hl.
  rewrite map_id_list in Hl. unfold id in Hl.
  change (Store.same_key (λ x : FnRef, x)) with same_function in Hl.
  destruct (genericSubscribe same_function fn (_subscribers s) options) as [l u] eqn:Hg.
  simpl in Hl. unfold genericSubscribe in Hg. injection Hg as _ <-.
  simpl. intros [= <-]. split.
  - intros Hfresh. rewrite decide_False in Hl by exact Hfresh. unfold modify. simpl.
    destruct (unsubscribe_fresh id fn (_subscribers s)) as [Hend Hfront].
    { by rewrite map_id_list. }
    change (Store.same_key id) with same_function in Hend, Hfront.
    subst l. destruct (option_set options "prepend"); rewrite ?Hend, ?Hfront;
      by destruct s.
  - intros s2 Hnd. unfold modify. simpl.
    pose proof (unsubscribe_twice id fn (_subscribers s2)) as Htwice.
    rewrite map_id_list in Htwice. specialize (Htwice Hnd).
    change (Store.same_key id) with same_function in Htwice.
    unfold set_subscribers. simpl. by rewrite Htwice.
Qed.

End SubscriptionInvariant.

(* ===================================================================== *)
(** * Further properties of the state tree and of the assertions *)
(* ===================================================================== *)

Section NestedStateFacts.
Import Store.

(** X16.  [getNestedState] walks the state by the keys of the path: a walk
    along [p ++ q] is the walk along [p] followed by the walk along [q]
    from where it arrived.  When the walk along [pre] arrives at an object
    that has no own property [key], or has [undefined] there, and [key] is
    not one of the keys that an object inherits from [Object.prototype] or
    gets from Vue, the walk along [pre ++ [key]] returns [undefined] without
    raising, and any longer path raises a TypeError, as reading a property
    of [undefined] does.  Under an inherited key such as [constructor] or
    [toString] the walk finds the inherited property instead, which is no
    part of this statement. *)
Theorem getNestedState_missing_key (state : Value) :
  (∀ p q, getNestedState state (p ++ q)
          = match getNestedState state p with
            | Ret v => getNestedState v q
            | Throw e => Throw e
            end)
  ∧ (∀ pre post key fields,
       getNestedState state pre = Ret (VObj fields) →
       key ∉ hidden_keys →
       field key fields = VUndef →
       getNestedState state (pre ++ key :: post)
       = if post is [] then Ret VUndef else Throw (TypeError "state[key]")).
Proof.
  split.
  - intros p q. unfold getNestedState. apply reduce_app.
  - intros pre post key fields Hpre _ Hkey. unfold getNestedState in *.
    rewrite reduce_app, Hpre, reduce_cons. simpl. rewrite Hkey.
    destruct post as [|k post]; [reflexivity|]. by rewrite reduce_cons.
Qed.

End NestedStateFacts.

Section AssertionFacts.
Import Mod ModuleCollection.
Variable __DEV__ : bool.
Variable JSON_stringify : Value → string.
Variable init_state : FnRef → Value.

#[local] Abbreviation register := (register __DEV__ JSON_stringify init_state).
#[local] Abbreviation assertRawModule := (assertRawModule JSON_stringify).

Lemma forEach_unit_returns {A} (fn : A → M unit unit) (l : list A) :
  outcome (forEach fn l tt) = Ret tt ↔ Forall (λ x, outcome (fn x tt) = Ret tt) l.
Proof.
  induction l as [|x l IH].
  - split; [constructor | reflexivity].
  - rewrite Forall_cons, <- IH. clear IH. simpl. unfold bind at 1.
    destruct (fn x tt) as [[[]|e] [] tr]; simpl.
    + split; [intros H; split; [reflexivity | exact H] | intros [_ H]; exact H].
    + split; [discriminate | intros [[=] _]].
Qed.

(** One loop of [assertRawModule] returns exactly when the assertion holds
    of every value. *)
Lemma assert_loop_returns (assert_fn : Value → Outcome bool) (message : string → Value → string)
    (obj : list (string * Value)) :
  outcome (Util.forEachValue obj (λ value type,
             ok <- lift (assert_fn value) ;; Util.assert ok (message type value)) tt) = Ret tt
  ↔ Forall (λ kv : string * Value, assert_fn kv.2 = Ret true) obj.
Proof.
  unfold Util.forEachValue. induction obj as [|[k v] obj IH].
  - split; [constructor | reflexivity].
  - rewrite Forall_cons. simpl. rewrite <- IH. clear IH.
    unfold bind at 1. unfold bind at 1. unfold lift at 1. simpl.
    destruct (assert_fn v) as [[]|e]; simpl.
    + split; [intros H; split; [reflexivity | exact H] | intros [_ H]; exact H].
    + split; [discriminate | intros [[=] _]].
    + split; [discriminate | intros [[=] _]].
Qed.

(** X17.  A declaration that passes the assertions of a development build
    is well formed: when [assertRawModule] returns, each of the getters and
    of the mutations of the declaration is a function, and each of its
    actions is a function or an object whose [handler] is a function. *)
Theorem assertRawModule_accepts (path : list string) (decl : RawModule) :
  outcome (assertRawModule path decl tt) = Ret tt
  → Forall (λ kv : string * Value, typeof kv.2 = "function") (default [] (raw_getters decl))
    ∧ Forall (λ kv : string * Value, typeof kv.2 = "function")
             (default [] (raw_mutations decl))
    ∧ Forall (λ kv : string * Value,
                typeof kv.2 = "function"
                ∨ (typeof kv.2 = "object"
                   ∧ ∃ h, prop kv.2 "handler" = Some h ∧ typeof h = "function"))
             (default [] (raw_actions decl)).
Proof.
  assert (∀ (get_key : RawModule → option (list (string * Value)))
            (assert_fn : Value → Outcome bool) (key expected : string),
            outcome (match get_key decl with
                     | None => ret tt
                     | Some obj =>
                         Util.forEachValue obj (λ value type,
                           ok <- lift (assert_fn value) ;;
                           Util.assert ok
                             (makeAssertionMessage JSON_stringify path key type value
                                expected))
                     end tt) = Ret tt
            ↔ Forall (λ kv : string * Value, assert_fn kv.2 = Ret true)
                     (default [] (get_key decl))) as Hpart.
  { intros get_key assert_fn key expected. destruct (get_key decl) as [obj|]; simpl.
    - apply (assert_loop_returns assert_fn
               (λ type value, makeAssertionMessage JSON_stringify path key type value
                                expected)).
    - split; [constructor | reflexivity]. }
  assert (∀ v, functionAssert v = Ret true ↔ typeof v = "function") as Hfun.
  { intros v. unfold functionAssert. rewrite <- String.eqb_eq.
    destruct (String.eqb (typeof v) "function"); split; congruence. }
  assert (∀ v, objectAssert v = Ret true
               ↔ typeof v = "function"
                 ∨ (typeof v = "object"
                    ∧ ∃ h, prop v "handler" = Some h ∧ typeof h = "function")) as Hobj.
  { intros v. unfold objectAssert.
    destruct (String.eqb (typeof v) "function") eqn:Hf.
    { apply String.eqb_eq in Hf. split; [by left | reflexivity]. }
    apply String.eqb_neq in Hf.
    destruct (String.eqb (typeof v) "object") eqn:Ho.
    - apply String.eqb_eq in Ho. destruct (prop v "handler") as [h|].
      + destruct (String.eqb (typeof h) "function") eqn:Hh.
        * apply String.eqb_eq in Hh. split; [|reflexivity]. intros _. right. eauto.
        * apply String.eqb_neq in Hh. split; [discriminate|].
          intros [?|(_ & h' & [= <-] & ?)]; done.
      + split; [discriminate|]. intros [?|(_ & h' & [=] & ?)]. done.
    - apply String.eqb_neq in Ho. split; [discriminate|].
      intros [?|(? & _)]; done. }
  unfold ModuleCollection.assertRawModule, assertTypes.
  rewrite forEach_unit_returns, !Forall_cons.
  rewrite (Hpart raw_getters functionAssert), (Hpart raw_mutations functionAssert),
    (Hpart raw_actions objectAssert).
  intros (Hg & Hm & Ha & _).
  split; [|split]; (eapply Forall_impl; [eassumption|]); intros kv Hkv;
    by first [apply Hfun | apply Hobj].
Qed.

(** X18.  A development build checks a declaration before it touches the
    module tree: when an assertion fails on the declaration itself,
    [register] throws what the assertion threw and the tree is the one
    before the call, and so does the hot [update] of a module. *)
Theorem register_validates_first (p : list string) (decl : RawModule) (rt : bool)
    (mc : Collection) (target : ModuleNode) (e : Exn) :
  __DEV__ = true →
  outcome (assertRawModule p decl tt) = Throw e →
  register p decl rt mc = mkRun (Throw e) mc []
  ∧ update __DEV__ JSON_stringify p decl target = mkRun (Throw e) target [].
Proof.
  intros Hdev Hthrow. split.
  - rewrite register_unfold, Hdev. apply bind_throw_run. simpl.
    rewrite (assertRawModule_stateless _ p decl mc). f_equal. exact Hthrow.
  - rewrite update_unfold, Hdev. apply bind_throw_run. simpl.
    rewrite (assertRawModule_stateless _ p decl target). f_equal. exact Hthrow.
Qed.

End AssertionFacts.

(* ===================================================================== *)
(** * What a hot update replaces *)
(* ===================================================================== *)

Section UpdateReplaces.
Import Mod ModuleCollection.
Variable __DEV__ : bool.
Variable JSON_stringify : Value → string.

#[local] Abbreviation update := (update __DEV__ JSON_stringify).
#[local] Abbreviation update_children := (update_children __DEV__).
#[local] Abbreviation assertRawModule := (assertRawModule JSON_stringify).

Lemma covered_unfold (target : ModuleNode) (newModule : RawModule) :
  covered target newModule
  ↔ match raw_modules newModule with
    | Some ms =>
        NoDup (map fst ms)
        ∧ Forall (λ kc : string * RawModule,
                    ∃ child, getChild kc.1 target = Some child ∧ covered child kc.2) ms
    | None => True
    end.
Proof.
  destruct newModule as [ns st g mu a [ms|]]; simpl; [|reflexivity].
  apply and_iff_compat_l. induction ms as [|[k c] ms IH]; simpl.
  - split; [constructor | done].
  - rewrite Forall_cons, <- IH. simpl. apply and_iff_compat_r.
    destruct (getChild k target) as [child|].
    + split; [by eexists | by intros (? & [= <-] & ?)].
    + split; [done | by intros (? & [=] & _)].
Qed.

Lemma raw_child_elem_of (key : string) (c : RawModule) (ms : list (string * RawModule)) :
  raw_child key ms = Some c → (key, c) ∈ ms.
Proof.
  induction ms as [|[k c'] ms IH]; simpl; [discriminate|].
  destruct (raw_child key ms) as [c''|].
  - intros [= ->]. right. by apply IH.
  - destruct (String.eqb k key) eqn:Hk; [|discriminate].
    apply String.eqb_eq in Hk as ->. intros [= ->]. by left.
Qed.

(** What the module is apart from its children. *)
#[local] Abbreviation same_shell t t' :=
  (_rawModule t' = _rawModule t ∧ state t' = state t ∧ runtime t' = runtime t).

(** The loop over the listed children, when every key is known and listed
    once: each listed child is updated once, from what it was; the other
    children and the module itself are left alone. *)
Lemma update_children_each (upd : list string → RawModule → M ModuleNode unit)
    (path : list string) (ms : list (string * RawModule)) :
  ∀ t : ModuleNode,
    NoDup (map fst ms) →
    Forall (λ kc : string * RawModule, is_Some (getChild kc.1 t)) ms →
    outcome (update_children upd path ms t) = Ret tt →
    let t' := final (update_children upd path ms t) in
    (∀ k c x, (k, c) ∈ ms → getChild k t = Some x →
              outcome (upd (path ++ [k]) c x) = Ret tt
              ∧ getChild k t' = Some (final (upd (path ++ [k]) c x)))
    ∧ (∀ k, k ∉ map fst ms → getChild k t' = getChild k t)
    ∧ same_shell t t'.
Proof.
  induction ms as [|[k0 c0] rest IH]; intros t Hnd Hknown Hret.
  - simpl. split; [|done]. intros k c x Hin. by apply elem_of_nil in Hin.
  - apply NoDup_cons in Hnd as [Hk0 Hnd]. apply Forall_cons in Hknown as [[x0 Hx0] Hknown].
    simpl in Hx0, Hret |- *. rewrite Hx0 in Hret |- *.
    apply bind_ret_inv in Hret as ([] & Hfirst & Hloop & Hfinal & _).
    rewrite Hfinal. clear Hfinal. unfold on_child in Hfirst, Hloop |- *. simpl in *.
    set (t1 := addChild k0 (final (upd (path ++ [k0]) c0 x0)) t) in *.
    assert (∀ k, k ≠ k0 → getChild k t1 = getChild k t) as Hother.
    { intros k Hne. subst t1. rewrite getChild_addChild. by rewrite decide_False. }
    destruct (IH t1 Hnd) as (Heach & Hrest & Hshell); [|exact Hloop|].
    { rewrite Forall_forall in Hknown |- *. intros [k c] Hin. simpl.
      rewrite Hother; [exact (Hknown _ Hin)|].
      intros ->. apply Hk0. apply list_elem_of_fmap. by exists (k0, c). }
    split; [|split].
    + intros k c x [[= -> ->]|Hin]%elem_of_cons Hx.
      * rewrite Hx0 in Hx. injection Hx as <-. split; [exact Hfirst|].
        rewrite (Hrest k0 Hk0). subst t1. rewrite getChild_addChild.
        by rewrite decide_True.
      * assert (k ≠ k0) as Hne.
        { intros ->. apply Hk0. apply list_elem_of_fmap. by exists (k0, c). }
        apply (Heach k c x Hin). by rewrite Hother.
    + intros k Hk. apply not_elem_of_cons in Hk as [Hne Hk].
      rewrite (Hrest k Hk). by apply Hother.
    + destruct Hshell as (-> & -> & ->). by subst t1.
Qed.

(** The update, module by module, when each module has a declaration of its
    own: [Mod.update] has it so. *)
Lemma update_reaches (newModule : RawModule) :
  ∀ (path : list string) (target : ModuleNode),
    covered target newModule →
    outcome (update path newModule target) = Ret tt →
    ∀ q child m,
      raw_descend q newModule = Some child →
      descend q target = Some m →
      ∃ m', descend q (final (update path newModule target)) = Some m'
            ∧ _rawModule m' = _rawModule (Mod.update child m)
            ∧ state m' = state m
            ∧ runtime m' = runtime m.
Proof.
  induction newModule as [ns st g mu a oms IH] using RawModule_nested_ind.
  intros path target Hcov. set (raw := mkRawModule ns st g mu a oms) in *.
  rewrite update_unfold. intros Hret.
  apply bind_ret_inv in Hret as ([] & _ & Hret & -> & _).
  rewrite when_final in * by (intros; apply assertRawModule_final).
  apply bind_ret_inv in Hret as ([] & _ & Hloop & -> & _).
  unfold modify in Hloop |- *. cbn [final] in Hloop |- *.
  set (ms := default [] oms).
  assert (match raw_modules raw with
          | Some ms' => update_children update path ms'
          | None => ret tt
          end = update_children update path ms) as Hsame by (subst ms; by destruct oms).
  rewrite Hsame in *. clear Hsame.
  apply covered_unfold in Hcov.
  assert (NoDup (map fst ms)
          ∧ Forall (λ kc : string * RawModule,
                      ∃ x, getChild kc.1 target = Some x ∧ covered x kc.2) ms)
    as [Hnd Hknown].
  { subst ms. destruct oms as [ms|]; [exact Hcov|]. split; constructor. }
  assert (Forall (λ kr : string * RawModule,
            ∀ path target, covered target kr.2 →
              outcome (update path kr.2 target) = Ret tt →
              ∀ q child m, raw_descend q kr.2 = Some child → descend q target = Some m →
                ∃ m', descend q (final (update path kr.2 target)) = Some m'
                      ∧ _rawModule m' = _rawModule (Mod.update child m)
                      ∧ state m' = state m ∧ runtime m' = runtime m) ms) as Hms.
  { subst ms. destruct oms as [ms|]; [exact IH | constructor]. }
  clear IH Hcov.
  destruct (update_children_each update path ms (Mod.update raw target) Hnd)
    as (Heach & _ & Hraw & Hstate & Hrt); [|exact Hloop|].
  { eapply Forall_impl; [exact Hknown|]. intros [k c] (x & Hx & _). by exists x. }
  intros [|k q] child m.
  - intros [= <-] [= <-]. eexists. split; [reflexivity|]. by rewrite Hraw, Hstate, Hrt.
  - intros Hchild Hm.
    assert (raw_descend (k :: q) raw = raw_child k ms ≫= raw_descend q) as Heq
      by (subst ms; simpl; by destruct oms).
    rewrite Heq in Hchild. clear Heq.
    destruct (raw_child k ms) as [c|] eqn:Hc; [|discriminate]. simpl in Hchild.
    apply raw_child_elem_of in Hc.
    cbn [descend] in Hm |- *.
    destruct (getChild k target) as [x|] eqn:Hx; [|discriminate]. simpl in Hm.
    destruct (Heach k c x Hc Hx) as [Hupd ->]. simpl.
    rewrite Forall_forall in Hms, Hknown.
    destruct (Hknown _ Hc) as (x' & Hx' & Hcov). simpl in Hx'.
    rewrite Hx in Hx'. injection Hx' as <-.
    exact (Hms _ Hc (path ++ [k]) x Hcov Hupd q child m Hchild Hm).
Qed.

(** X19.  A hot update with a declaration all of whose listed modules are
    in the tree reaches every one of them.  [Module.update] writes into the
    declaration object that the module holds; when the modules of the tree
    hold declaration objects of their own, none of them shared with another
    module or with another place of the new declaration, the module found
    under the keys [q] is updated with the declaration nested under the same
    keys: its [namespaced] becomes the one of that declaration, also when
    that declaration has none; its actions, mutations and getters become
    those of that declaration where it has them and stay where it has none;
    its state, its runtime flag and its place in the tree are left as they
    were. *)
Theorem update_replaces_handlers (newModule : RawModule) (path : list string)
    (target : ModuleNode) :
  covered target newModule →
  unshared_declarations target newModule →
  outcome (update path newModule target) = Ret tt →
  ∀ q child m,
    raw_descend q newModule = Some child →
    descend q target = Some m →
    ∃ m', descend q (final (update path newModule target)) = Some m'
          ∧ raw_namespaced (_rawModule m') = raw_namespaced child
          ∧ raw_actions (_rawModule m')
            = (if raw_actions child is Some a then Some a else raw_actions (_rawModule m))
          ∧ raw_mutations (_rawModule m')
            = (if raw_mutations child is Some mu then Some mu
               else raw_mutations (_rawModule m))
          ∧ raw_getters (_rawModule m')
            = (if raw_getters child is Some g then Some g else raw_getters (_rawModule m))
          ∧ state m' = state m
          ∧ runtime m' = runtime m.
Proof.
  intros Hcov _ Hret q child m Hchild Hm.
  destruct (update_reaches newModule path target Hcov Hret q child m Hchild Hm)
    as (m' & Hm' & Hraw & Hstate & Hruntime).
  exists m'. rewrite Hraw. by repeat split.
Qed.

End UpdateReplaces.

(* ===================================================================== *)
(** * The further properties on concrete inputs *)
(* ===================================================================== *)

Section ConcreteMore.
Import Mod ModuleCollection Store Demo Demo2.

Local Ltac evaluate := vm_compute; reflexivity.

(** ** The module tree *)

(** X1 on the tree [a (namespaced) / b / c (namespaced)]: the last segment
    of [["a"; "zz"]] names no child; [get] returns [undefined],
    [getNamespace] raises. *)
Lemma getNamespace_missing_segment_witness :
  get ["a"; "zz"] nested = Ret None
  ∧ getNamespace ["a"; "zz"] nested = Throw (TypeError "undefined.namespaced").
Proof.
  split; [evaluate|].
  refine (getNamespace_missing_segment nested _ _ ["a"] [] "zz" _ _ _);
    vm_compute; reflexivity.
Defined.

(** X2 on the same tree, in a development build. *)
Lemma unregister_absent_child_witness :
  unregister true ["a"; "zz"] nested
  = mkRun (Ret tt) nested
      [ConsoleWarn "[vuex] trying to unregister module 'zz', which is not registered"]
  ∧ isRegistered ["a"; "zz"] nested = Ret false.
Proof.
  refine (unregister_absent_child true ["a"; "zz"] nested _ _ _ _ _);
    vm_compute; reflexivity.
Defined.

(** X3 on the same tree: the parent [["a"; "zz"]] of [["a"; "zz"; "c"]] is
    not there. *)
Lemma unregister_missing_parent_witness :
  unregister true ["a"; "zz"; "c"] nested
  = mkRun (Throw (TypeError "undefined.getChild")) nested []
  ∧ isRegistered ["a"; "zz"; "c"] nested = Ret false.
Proof.
  refine (unregister_missing_parent true nested _ _ ["a"] [] "zz" "c" _ _ _);
    vm_compute; reflexivity.
Defined.

(** X4 on the same tree. *)
Lemma isRegistered_agrees_with_get_witness :
  isRegistered ["a"; "b"] nested = Ret true
  ∧ isRegistered ["a"; "zz"] nested = Ret false
  ∧ isRegistered [] nested = Ret false.
Proof.
  destruct (isRegistered_agrees_with_get nested) as [Hpath Hroot].
  split; [|split].
  - refine (eq_trans (Hpath ["a"; "b"] _ ltac:(discriminate) ltac:(vm_compute; reflexivity)) _).
    evaluate.
  - exact (Hpath ["a"; "zz"] None ltac:(discriminate) ltac:(vm_compute; reflexivity)).
  - refine (proj2 (Hroot _ _ _)); vm_compute; reflexivity.
Defined.

(** X5 on the declaration of that tree, registered at the root of an empty
    collection: the module at [["a"; "b"]] is the one declared there, and
    there is nothing at [["a"; "zz"]]. *)
Lemma register_builds_declared_tree_witness :
  (∃ m, resolve ["a"; "b"] nested = Some m
        ∧ set_children ∅ m
          = Mod.new init_state (decl false [("c", decl true [])]) false)
  ∧ resolve ["a"; "zz"] nested = None.
Proof.
  pose proof (register_builds_declared_tree true JSON_stringify init_state nested_decl
                [] false (mkCollection None) ltac:(vm_compute; reflexivity)) as H.
  split; [exact (H ["a"; "b"]) | exact (H ["a"; "zz"])].
Defined.

(** ** Commit and dispatch *)

#[local] Abbreviation commit := (Store.commit true ToString call).
#[local] Abbreviation dispatch w := (Store.dispatch true w ToString thenable_fate call).

(** X6 on [Demo.store], in a development build. *)
Lemma commit_unknown_type_witness :
  commit (VStr "nope") (VNum 1) VUndef store
  = mkRun (Ret VUndef) store [ConsoleError "[vuex] unknown mutation type: nope"].
Proof.
  exact (commit_unknown_type true ToString call "nope" (VNum 1) VUndef store
           ltac:(vm_compute; reflexivity)).
Defined.

(** X7 on [Demo.store], where [w] is bound and where it is not. *)
Lemma dispatch_unknown_type_witness :
  dispatch true (VStr "nope") (VNum 1) store
  = mkRun (Ret VUndef) store [ConsoleError "[vuex] unknown action type: nope"]
  ∧ dispatch false (VStr "nope") (VNum 1) store
    = mkRun (Ret VUndef) store [ConsoleError "[vuex] unknown action type: nope"].
Proof.
  split.
  - exact (dispatch_unknown_type true true ToString thenable_fate call "nope" (VNum 1) store
             ltac:(vm_compute; reflexivity)).
  - exact (dispatch_unknown_type true false ToString thenable_fate call "nope" (VNum 1) store
             ltac:(vm_compute; reflexivity)).
Defined.

(** X8 on [Demo.store]: the module [user] has no mutation and no action
    [ghost]. *)
Lemma local_unknown_type_witness :
  Store.local_commit true ToString call user_local (VStr "ghost") (VNum 1) VUndef store
  = mkRun (Ret VUndef) store
      [ConsoleError "[vuex] unknown local mutation type: ghost, global type: user/ghost"]
  ∧ Store.local_commit false ToString call user_local (VStr "ghost") (VNum 1) VUndef store
    = mkRun (Ret VUndef) store []
  ∧ Store.local_dispatch true false ToString thenable_fate call user_local
      (VStr "ghost") (VNum 1) VUndef store
    = mkRun (Ret VUndef) store
        [ConsoleError "[vuex] unknown local action type: ghost, global type: user/ghost"].
Proof.
  assert (namespace user_local ≠ EmptyString) as Hns by discriminate.
  split; [|split].
  - exact (proj1 (local_unknown_type true false ToString thenable_fate call user_local
                    "ghost" (VNum 1) VUndef store Hns eq_refl)
             ltac:(vm_compute; reflexivity)).
  - exact (proj1 (local_unknown_type false false ToString thenable_fate call user_local
                    "ghost" (VNum 1) VUndef store Hns eq_refl)
             ltac:(vm_compute; reflexivity)).
  - exact (proj2 (local_unknown_type true false ToString thenable_fate call user_local
                    "ghost" (VNum 1) VUndef store Hns eq_refl)
             ltac:(vm_compute; reflexivity)).
Defined.

(** X9 on [Demo.store]: the number [42] as a type, and an object whose
    [type] is [42]. *)
Lemma type_must_be_string_witness :
  commit (VNum 42) VUndef VUndef store
  = mkRun (Throw (Error "[vuex] expects string as the type, but found number.")) store []
  ∧ dispatch true (VObj [("type", VNum 42)]) VUndef store
    = mkRun (Throw (Error "[vuex] expects string as the type, but found number.")) store [].
Proof.
  split.
  - exact (proj1 (type_must_be_string true true ToString thenable_fate call
                    (VNum 42) VUndef VUndef store eq_refl ltac:(discriminate))).
  - exact (proj2 (type_must_be_string true true ToString thenable_fate call
                    (VObj [("type", VNum 42)]) VUndef VUndef store eq_refl
                    ltac:(discriminate))).
Defined.

Lemma Demo_call_keeps_committing (fn : FnRef) (args : list Arg) (s : Store.t) :
  _committing (call fn args s).2 = _committing s.
Proof. do 8 (destruct fn as [|fn]; [reflexivity|]). reflexivity. Qed.

(** X10 on [Demo2.failing_store], whose handler under ["bad"] throws: the
    two subscribers are not called and [_committing] stays true. *)
Lemma commit_handler_exception_witness :
  commit (VStr "bad") (VNum 1) VUndef failing_store
  = mkRun (Throw (Thrown (VStr "boom"))) (set_committing true failing_store)
      [Call 9 [AVal (state failing_store); AVal (VNum 1)]]
  ∧ _committing (final (commit (VStr "bad") (VNum 1) VUndef failing_store)) = true.
Proof.
  destruct (commit_handler_exception true ToString call failing_store "bad" (VNum 1) VUndef
              [mkWrappedMutation (VFun 9) root_local] (Thrown (VStr "boom"))
              ltac:(vm_compute; reflexivity) ltac:(vm_compute; reflexivity))
    as [Hrun Hflag].
  split.
  - refine (eq_trans Hrun _). evaluate.
  - rewrite Hrun. exact (Hflag Demo_call_keeps_committing).
Defined.

(** X11 on [Demo2.late_thrower_store], in a development build: the first
    [before] subscriber returns, the second one throws, the third one is
    not called. *)
Lemma action_subscriber_errors_are_caught_witness :
  notify_action_subscribers true call before "before"
    (λ st, [AVal (VStr "x"); AVal st]) late_thrower_store
  = mkRun (Ret tt) late_thrower_store
      [Call 3 [AVal (VStr "x"); AVal (state late_thrower_store)];
       Call 9 [AVal (VStr "x"); AVal (state late_thrower_store)];
       ConsoleWarn "[vuex] error in before action subscribers: ";
       ConsoleErrorExn (Thrown (VStr "boom"))].
Proof.
  refine (proj2 (proj2 (action_subscriber_errors_are_caught true call before "before"
                          (λ st, [AVal (VStr "x"); AVal st]) late_thrower_store))
            [mkActionSub (Allocated 0) (VFun 3) VUndef VUndef]
            (mkActionSub (Allocated 1) (VFun 9) VUndef VUndef)
            [mkActionSub (Allocated 2) (VFun 4) VUndef VUndef]
            9 (Thrown (VStr "boom")) late_thrower_store _ _ _ _);
    vm_compute; reflexivity.
Defined.

(** X12 on [Demo.store], where the devtool hook is not set: the handler
    [5] returns the number [1]. *)
Lemma wrapped_action_result_witness :
  wrappedActionHandler call (mkWrappedAction (VFun 5) user_local) (VStr "p") store
  = mkRun (Ret (VPromise (Fulfilled 0 (VNum 1)))) store
      [Call 5 [ACtx "user/" (VObj [("name", VNull)]) (state store); AVal (VStr "p")]].
Proof.
  destruct (wrapped_action_result call (mkWrappedAction (VFun 5) user_local) (VStr "p")
              store (VPromise (Fulfilled 0 (VNum 1))) ltac:(vm_compute; reflexivity))
    as (fn & ls & res & s1 & Hfn & Hls & Hcall & _ & Hplain & _).
  injection Hfn as <-.
  assert (Ret ls = Ret (VObj [("name", VNull)])) as Heq
    by (rewrite <- Hls; vm_compute; reflexivity).
  injection Heq as ->.
  assert ((Ret res, s1) = (Ret (VNum 1), store)) as Heq
    by (rewrite <- Hcall; vm_compute; reflexivity).
  injection Heq as -> ->. exact (Hplain eq_refl).
Defined.


(** ** Subscriptions *)

(** X14 from a store without subscribers: after [subscribe(3)] and the
    function it returns. *)
Lemma subscriptions_stay_duplicate_free_witness :
  subscribers_wf (final (subscribe 3 VUndef empty_store))
  ∧ subscribers_wf (final (subscribeAction (SubscriberFn 3) VUndef empty_store)).
Proof.
  destruct (subscriptions_stay_duplicate_free empty_store VUndef) as [Hinit Hstep].
  destruct (Hstep (Hinit eq_refl eq_refl)) as [Hsub Hact].
  split.
  - exact (proj1 (Hsub 3 _ eq_refl)).
  - exact (proj1 (Hact (SubscriberFn 3) _ I eq_refl)).
Defined.

(** X15 on [Demo.store], whose subscribers are [3] and [4]: subscribing [7]
    in front and unsubscribing it. *)
Lemma subscribe_unsubscribe_round_trip_witness :
  ∃ unsub, outcome (subscribe 7 (VObj [("prepend", VBool true)]) store) = Ret unsub
           ∧ _subscribers (final (subscribe 7 (VObj [("prepend", VBool true)]) store))
             = [7; 3; 4]
           ∧ final (unsub (final (subscribe 7 (VObj [("prepend", VBool true)]) store)))
             = store.
Proof.
  eexists. split; [reflexivity|]. split; [evaluate|].
  refine (proj1 (subscribe_unsubscribe_round_trip store 7 (VObj [("prepend", VBool true)])
                   _ eq_refl) _).
  vm_compute. intros Hin. 
  repeat (apply elem_of_cons in Hin as [Hin|Hin]; [discriminate|]).
  by apply elem_of_nil in Hin.
Defined.

(** ** The state tree and the assertions *)

(** X16 on the state of [Demo.store]: [user] has no property [age]. *)
Lemma getNestedState_missing_key_witness :
  getNestedState (state store) ["user"; "age"] = Ret VUndef
  ∧ getNestedState (state store) ["user"; "age"; "unit"] = Throw (TypeError "state[key]").
Proof.
  destruct (getNestedState_missing_key (state store)) as [_ Hmissing].
  split.
  - exact (Hmissing ["user"] [] "age" [("name", VNull)]
             ltac:(vm_compute; reflexivity)
             ltac:(apply (bool_decide_unpack _); vm_compute; exact I) eq_refl).
  - exact (Hmissing ["user"] ["unit"] "age" [("name", VNull)]
             ltac:(vm_compute; reflexivity)
             ltac:(apply (bool_decide_unpack _); vm_compute; exact I) eq_refl).
Defined.

(** X17 on two declarations: one with a mutation and an action that are
    functions, which passes, and one with a getter that is a number, which
    by the theorem cannot pass. *)
Lemma assertRawModule_accepts_witness :
  (outcome (assertRawModule JSON_stringify ["a"] leaf_decl tt) = Ret tt
   ∧ Forall (λ kv : string * Value, typeof kv.2 = "function")
            (default [] (raw_mutations leaf_decl)))
  ∧ outcome (assertRawModule JSON_stringify ["a"] malformed_decl tt) ≠ Ret tt.
Proof.
  split.
  - split; [vm_compute; reflexivity|].
    exact (proj1 (proj2 (assertRawModule_accepts JSON_stringify ["a"] leaf_decl
                           ltac:(vm_compute; reflexivity)))).
  - intros Hok.
    apply (assertRawModule_accepts JSON_stringify ["a"] malformed_decl) in Hok
      as [Hgetters _].
    apply Forall_cons in Hgetters as [Hg _]. discriminate Hg.
Defined.

(** X18 on the second of them, registered at [["a"; "x"]] of the tree
    [a / b / c]. *)
Lemma register_validates_first_witness :
  register true JSON_stringify init_state ["a"; "x"] malformed_decl true nested
  = mkRun (Throw (Error ("[vuex] getters should be function but " +:+ dq +:+ "getters.g"
                         +:+ dq +:+ " in module " +:+ dq +:+ "a.x" +:+ dq +:+ " is 0.")))
          nested [].
Proof.
  refine (proj1 (register_validates_first true JSON_stringify init_state ["a"; "x"]
                   malformed_decl true nested siblings_root _ eq_refl _)).
  vm_compute. reflexivity.
Defined.

(** The modules of the tree [a (namespaced), b] with their declarations,
    and the declarations that [Demo2.reload_decl] holds. *)
Lemma siblings_modules (x : list string) (mx : ModuleNode) :
  descend x siblings_root = Some mx →
  (x = [] ∧ _rawModule mx = siblings_decl)
  ∨ (x = ["a"] ∧ _rawModule mx = decl true [])
  ∨ (x = ["b"] ∧ _rawModule mx = decl false []).
Proof.
  set (a := default siblings_root (getChild "a" siblings_root)).
  set (b := default siblings_root (getChild "b" siblings_root)).
  assert (_children siblings_root = <["a" := a]> (<["b" := b]> ∅)) as Hroot
    by (vm_compute; reflexivity).
  assert (_children a = ∅ ∧ _children b = ∅) as [Ha Hb] by (split; vm_compute; reflexivity).
  assert (_rawModule siblings_root = siblings_decl ∧ _rawModule a = decl true []
          ∧ _rawModule b = decl false []) as (Hr0 & Hra & Hrb)
    by (repeat split; vm_compute; reflexivity).
  clearbody a b. revert Hroot Hr0. generalize siblings_root. intros r Hroot Hr0.
  assert (∀ m y, _children m = ∅ → descend y m = Some mx → y = [] ∧ mx = m) as Hleaf.
  { intros m [|k y] Hm; [by intros [= <-]|].
    change (descend (k :: y) m) with (getChild k m ≫= descend y).
    unfold getChild. by rewrite Hm, lookup_empty. }
  destruct x as [|k x]; [intros [= <-]; by left|].
  change (descend (k :: x) r) with (getChild k r ≫= descend x).
  unfold getChild. rewrite Hroot.
  destruct (decide (k = "a")) as [->|Hka].
  { rewrite lookup_insert_eq. intros [-> ->]%(Hleaf a x Ha). right. by left. }
  rewrite lookup_insert_ne by done.
  destruct (decide (k = "b")) as [->|Hkb].
  { rewrite lookup_insert_eq. intros [-> ->]%(Hleaf b x Hb). right. by right. }
  rewrite lookup_insert_ne by done. by rewrite lookup_empty.
Qed.

Lemma reload_declarations (q : list string) (child : RawModule) :
  raw_descend q reload_decl = Some child →
  (q = [] ∧ child = reload_decl)
  ∨ (q = ["a"]
     ∧ child = mkRawModule VUndef VUndef None (Some [("increment", VFun 2)]) None None)
  ∨ (q = ["b"] ∧ child = decl false []).
Proof.
  assert (∀ c y, raw_modules c = None → raw_descend y c = Some child → y = [] ∧ child = c)
    as Hleaf.
  { intros c [|k y] Hc; [by intros [= <-]|]. simpl. by rewrite Hc. }
  destruct q as [|k q]; [intros [= <-]; by left|].
  change (raw_descend (k :: q) reload_decl)
    with (raw_child k [("a", mkRawModule VUndef VUndef None
                               (Some [("increment", VFun 2)]) None None);
                       ("b", decl false [])] ≫= raw_descend q).
  destruct (raw_child k _) as [c|] eqn:Hc; [|discriminate].
  apply raw_child_elem_of in Hc. simpl.
  apply elem_of_cons in Hc as [[= -> ->]|Hc].
  { intros [-> ->]%Hleaf; [|reflexivity]. right. by left. }
  apply elem_of_cons in Hc as [[= -> ->]|Hc]; [|by apply elem_of_nil in Hc].
  intros [-> ->]%Hleaf; [|reflexivity]. right. by right.
Qed.

(** X19 on the tree [a (namespaced), b] updated with [Demo2.reload_decl]:
    the module [a] has the new mutation, is no longer namespaced and has
    the state it had. *)
Lemma update_replaces_handlers_witness :
  ∃ m', descend ["a"] (final (update true JSON_stringify [] reload_decl siblings_root))
        = Some m'
        ∧ raw_mutations (_rawModule m') = Some [("increment", VFun 2)]
        ∧ namespaced m' = false
        ∧ (Mod.state <$> descend ["a"] siblings_root) = Some (Mod.state m').
Proof.
  assert (covered siblings_root reload_decl) as Hcov.
  { apply covered_unfold. split.
    - apply (bool_decide_unpack _). vm_compute. exact I.
    - repeat constructor; simpl; (eexists; split; [vm_compute; reflexivity | exact I]). }
  assert (unshared_declarations siblings_root reload_decl) as Hunshared.
  { split.
    - intros x y mx my Hx Hy Hne Heq.
      apply siblings_modules in Hx as [[-> Hx]|[[-> Hx]|[-> Hx]]];
        apply siblings_modules in Hy as [[-> Hy]|[[-> Hy]|[-> Hy]]];
        try done; rewrite Hx, Hy in Heq; discriminate Heq.
    - intros x q mx child Hx Hq Hne Heq.
      apply siblings_modules in Hx as [[-> Hx]|[[-> Hx]|[-> Hx]]];
        apply reload_declarations in Hq as [[-> Hq]|[[-> Hq]|[-> Hq]]];
        try done; rewrite Hx, Hq in Heq; discriminate Heq. }
  destruct (update_replaces_handlers true JSON_stringify reload_decl [] siblings_root Hcov
              Hunshared ltac:(vm_compute; reflexivity) ["a"]
              (mkRawModule VUndef VUndef None (Some [("increment", VFun 2)]) None None)
              (default siblings_root (descend ["a"] siblings_root))
              eq_refl ltac:(vm_compute; reflexivity))
    as (m' & Hm' & Hns & _ & Hmu & _ & Hstate & _).
  exists m'. split; [exact Hm'|].
  split; [exact Hmu|]. split; [unfold namespaced; by rewrite Hns|].
  rewrite Hstate. vm_compute. reflexivity.
Defined.

End ConcreteMore.

(* ===================================================================== *)
(** * Writes into the state tree *)
(* ===================================================================== *)

Lemma field_set_field (k k' : string) (v : Value) (fs : list (string * Value)) :
  field k' (set_field k v fs) = if decide (k = k') then v else field k' fs.
Proof.
  induction fs as [|[k0 v0] fs IH]; simpl.
  - destruct (decide (k = k')) as [->|Hne].
    + by rewrite String.eqb_refl.
    + apply not_eq_sym in Hne. apply String.eqb_neq in Hne. by rewrite Hne.
  - destruct (String.eqb k k0) eqn:Hk0; simpl.
    + apply String.eqb_eq in Hk0 as <-.
      destruct (decide (k = k')) as [->|Hne].
      * by rewrite String.eqb_refl.
      * apply not_eq_sym in Hne. apply String.eqb_neq in Hne. by rewrite Hne.
    + destruct (String.eqb k' k0) eqn:Hk'; [|exact IH].
      apply String.eqb_eq in Hk' as ->. apply String.eqb_neq in Hk0.
      by rewrite decide_False.
Qed.

Lemma field_remove_field (k k' : string) (fs : list (string * Value)) :
  field k' (remove_field k fs) = if decide (k = k') then VUndef else field k' fs.
Proof.
  unfold remove_field. induction fs as [|[k0 v0] fs IH]; simpl; [by destruct (decide _)|].
  destruct (String.eqb k k0) eqn:Hk0; simpl.
  - apply String.eqb_eq in Hk0 as <-. rewrite IH.
    destruct (decide (k = k')) as [->|Hne]; [reflexivity|].
    apply not_eq_sym in Hne. apply String.eqb_neq in Hne. by rewrite Hne.
  - rewrite IH. destruct (String.eqb k' k0) eqn:Hk'; [|reflexivity].
    apply String.eqb_eq in Hk' as ->. apply String.eqb_neq in Hk0.
    by rewrite decide_False.
Qed.

Section NestedStateWrites.
Import Store.

Lemma getNestedState_cons (st : Value) (k : string) (p : list string) :
  getNestedState st (k :: p)
  = match prop st k with
    | Some v => getNestedState v p
    | None => Throw (TypeError "state[key]")
    end.
Proof. unfold getNestedState. rewrite reduce_cons. by destruct (prop st k). Qed.

Lemma getNestedState_app (st : Value) (p q : list string) :
  getNestedState st (p ++ q)
  = match getNestedState st p with
    | Ret v => getNestedState v q
    | Throw e => Throw e
    end.
Proof. unfold getNestedState. apply reduce_app. Qed.

Lemma object_walk_app (st : Value) (p q : list string) :
  object_walk st (p ++ q)
  ↔ object_walk st p
    ∧ ∃ v, getNestedState st p = Ret v ∧ object_walk v q.
Proof.
  revert st. induction p as [|k p IH]; intros st; simpl.
  - split; [intros H; split; [done|]; by exists st | by intros (_ & v & [= <-] & H)].
  - destruct st; try (split; [done | by intros [[] _]]).
    rewrite getNestedState_cons. simpl. apply IH.
Qed.

Lemma object_walk_snoc (st : Value) (p : list string) (k : string) :
  object_walk st (p ++ [k])
  ↔ object_walk st p ∧ ∃ fs, getNestedState st p = Ret (VObj fs).
Proof.
  rewrite object_walk_app. apply and_iff_compat_l. split.
  - intros (v & Hv & Hwalk). simpl in Hwalk. destruct v; try done. by eexists.
  - intros (fs & Hfs). exists (VObj fs). by split.
Qed.

Lemma get_put_nested (st : Value) (p : list string) (v : Value) :
  object_walk st p → getNestedState (put_nested st p v) p = Ret v.
Proof.
  revert st. induction p as [|k p IH]; intros st; simpl; [reflexivity|].
  destruct st; try done. intros Hwalk.
  rewrite getNestedState_cons. simpl. rewrite field_set_field, decide_True by reflexivity.
  by apply IH.
Qed.

Lemma object_walk_put_nested (st : Value) (p : list string) (v : Value) :
  object_walk st p → object_walk (put_nested st p v) p.
Proof.
  revert st. induction p as [|k p IH]; intros st; simpl; [done|].
  destruct st; try done. intros Hwalk.
  rewrite field_set_field, decide_True by reflexivity. by apply IH.
Qed.

Lemma put_nested_snoc (st : Value) (p : list string) (k : string) (v : Value)
    (fs : list (string * Value)) :
  getNestedState st p = Ret (VObj fs) → object_walk st p →
  put_nested st p (VObj (set_field k v fs)) = put_nested st (p ++ [k]) v.
Proof.
  revert st. induction p as [|k0 p IH]; intros st; simpl.
  - intros [= ->] _. reflexivity.
  - destruct st; try done. rewrite getNestedState_cons. simpl.
    intros Hget Hwalk. by rewrite (IH _ Hget Hwalk).
Qed.

Lemma put_nested_beside (st : Value) (path : list string) (v : Value) :
  object_walk st path → same_beside path st (put_nested st path v).
Proof.
  intros Hwalk common k k' rest rest' -> Hne. revert st Hwalk.
  induction common as [|a common IH]; intros st; simpl.
  - destruct st; try done. intros _. rewrite !getNestedState_cons. simpl.
    by rewrite field_set_field, decide_False.
  - destruct st; try done. intros Hwalk. rewrite !getNestedState_cons. simpl.
    rewrite field_set_field, decide_True by reflexivity. by apply IH.
Qed.

(** A write of the object at [parent] that keeps every property but
    [name] is not seen along the paths that leave [parent ++ [name]]. *)
Lemma put_parent_beside (st : Value) (parent : list string) (name : string)
    (fs fs' : list (string * Value)) :
  object_walk st parent →
  getNestedState st parent = Ret (VObj fs) →
  (∀ k, k ≠ name → field k fs' = field k fs) →
  same_beside (parent ++ [name]) st (put_nested st parent (VObj fs')).
Proof.
  intros Hwalk Hget Hfields common k k' rest rest' Hpath Hne.
  revert st common Hwalk Hget Hpath.
  induction parent as [|a parent IH]; intros st common Hwalk Hget Hpath.
  - injection Hget as ->. destruct common as [|c common]; simpl in Hpath.
    + injection Hpath as <- _. simpl. rewrite !getNestedState_cons. simpl.
      by rewrite Hfields by done.
    + injection Hpath as _ Hpath. by destruct common.
  - simpl in Hwalk. destruct st; try done. rewrite getNestedState_cons in Hget.
    simpl in Hget. destruct common as [|c common]; simpl in Hpath |- *.
    + injection Hpath as <- _. rewrite !getNestedState_cons. simpl.
      by rewrite field_set_field, decide_False.
    + injection Hpath as <- Hpath. rewrite !getNestedState_cons. simpl.
      rewrite field_set_field, decide_True by reflexivity. by apply IH.
Qed.

End NestedStateWrites.

(* ===================================================================== *)
(** * The installation of the module tree *)
(* ===================================================================== *)

Section InstanceFacts.
Import Mod ModuleCollection Store StoreModules.

Lemma on_modules_reads {A} (f : Collection → Outcome A) (s : Instance) :
  on_modules (reads f) s = mkRun (f (_modules s)) s [].
Proof. unfold on_modules, reads. simpl. by destruct s. Qed.

Lemma module_size_child (m c : ModuleNode) (k : string) :
  getChild k m = Some c → module_size c < module_size m.
Proof.
  intros Hc. destruct m as [rt ks raw st]. unfold getChild in Hc. simpl in *.
  rewrite (map_fold_delete_L _ _ k c ks); [lia| |exact Hc].
  intros. lia.
Qed.

(** Induction on a module and the modules below it. *)
Lemma ModuleNode_nested_ind (P : ModuleNode → Prop) :
  (∀ m, (∀ k c, getChild k m = Some c → P c) → P m) → ∀ m, P m.
Proof.
  intros step m. remember (module_size m) as n eqn:Hn. revert m Hn.
  induction (lt_wf n) as [n _ IH]. intros m ->.
  apply step. intros k c Hc. eapply IH; [|reflexivity]. by eapply module_size_child.
Qed.

(** The states of the modules of a tree are objects when the state of its
    root is one and the states of the modules of the trees under its
    children are. *)
Lemma states_are_objects_by_children (m : ModuleNode) :
  (∃ own, Mod.state m = VObj own) →
  Forall (λ kc, ∀ q x, descend q kc.2 = Some x → ∃ own, Mod.state x = VObj own)
    (map_to_list (_children m)) →
  ∀ q x, descend q m = Some x → ∃ own, Mod.state x = VObj own.
Proof.
  intros Hown Hchildren [|k q] x.
  - by intros [= <-].
  - change (descend (k :: q) m) with (getChild k m ≫= descend q).
    destruct (getChild k m) as [c|] eqn:Hc; [|discriminate]. simpl.
    unfold getChild in Hc. apply elem_of_map_to_list in Hc.
    exact (proj1 (Forall_forall _ _) Hchildren (k, c) Hc q x).
Qed.

End InstanceFacts.

(** A computation that appends to the entries of a registry. *)
Section Appends.
Import StoreModules.
Context {W : Type} (registry : Instance → gmap string (list W)).
Context (Inv : Instance → Prop).

#[local] Abbreviation adds := (adds registry Inv).

Lemma adds_eq (type : string) (m : M Instance unit) (a b : list W) :
  adds type m a → a = b → adds type m b.
Proof. by intros Hm <-. Qed.

Lemma adds_nothing (type : string) (m : M Instance unit) :
  (∀ s, Inv s → Inv (final (m s)) ∧ registry (final (m s)) = registry s) →
  adds type m [].
Proof.
  intros Hm s Hs _. destruct (Hm s Hs) as [Hinv Hreg]. split; [exact Hinv|].
  by rewrite Hreg, app_nil_r.
Qed.

Lemma adds_bind (type : string) (m k : M Instance unit) (a b : list W) :
  adds type m a → adds type k b → adds type (m ;;; k) (a ++ b).
Proof.
  intros Hm Hk s Hs Hret.
  apply bind_ret_inv in Hret as ([] & Hfirst & Hsecond & -> & _).
  destruct (Hm s Hs Hfirst) as (Hinv1 & Heq1).
  destruct (Hk _ Hinv1 Hsecond) as (Hinv2 & Heq2).
  split; [exact Hinv2|]. by rewrite Heq2, Heq1, (assoc_L (++)).
Qed.

Lemma adds_ret (type : string) : adds type (ret tt) [].
Proof. apply adds_nothing. by intros s Hs. Qed.

Lemma adds_forEach {A} (type : string) (fn : A → M Instance unit) (g : A → list W)
    (l : list A) :
  (∀ x, x ∈ l → adds type (fn x) (g x)) →
  adds type (forEach fn l) (concat (map g l)).
Proof.
  induction l as [|x l IH]; intros Hfn; [apply adds_ret|].
  simpl. apply adds_bind; [apply Hfn; by left|].
  apply IH. intros y Hy. apply Hfn. by right.
Qed.

Lemma adds_forEachValue {V} (type : string) (fn : V → string → M Instance unit)
    (g : string * V → list W) (obj : list (string * V)) :
  (∀ k v, (k, v) ∈ obj → adds type (fn v k) (g (k, v))) →
  adds type (Util.forEachValue obj fn) (concat (map g obj)).
Proof.
  unfold Util.forEachValue. induction obj as [|[k v] obj IH]; intros Hfn; [apply adds_ret|].
  simpl. apply adds_bind; [apply Hfn; by left|].
  apply IH. intros k' v' Hin. apply Hfn. by right.
Qed.

End Appends.

Lemma or_iff_both (A B C D : Prop) : (A ↔ B) → (C ↔ D) → (A ∨ C ↔ B ∨ D).
Proof. tauto. Qed.

Lemma concat_map_omap {A B} (f : A → option B) (l : list A) :
  concat (map (λ x, match f x with Some y => [y] | None => [] end) l) = omap f l.
Proof.
  induction l as [|x l IH]; [reflexivity|]. simpl. rewrite IH. by destruct (f x).
Qed.

Lemma elem_of_concat_map {A B} (g : A → list B) (l : list A) (y : B) :
  y ∈ concat (map g l) ↔ ∃ x, x ∈ l ∧ y ∈ g x.
Proof.
  induction l as [|x l IH]; simpl.
  - split; [by intros ?%elem_of_nil | by intros (x & ?%elem_of_nil & _)].
  - rewrite elem_of_app, IH. split.
    + intros [Hy|(x' & Hin & Hy)]; [exists x; split; [by left|done]|].
      exists x'. split; [by right|done].
    + intros (x' & [->|Hin]%elem_of_cons & Hy); [by left|]. right. by exists x'.
Qed.

Section UnchangedFacts.
Import Store StoreModules.

#[local] Instance unchanged_refl {S X} (f : S → X) : Reflexive (unchanged f).
Proof. by intros s. Qed.

#[local] Instance unchanged_trans {S X} (f : S → X) : Transitive (unchanged f).
Proof. unfold unchanged. intros a b c Hab Hbc. congruence. Qed.

Lemma preserves_unchanged_bind {S X A B} (f : S → X) (m : M S A) (k : A → M S B) :
  preserves (unchanged f) m → (∀ a, preserves (unchanged f) (k a)) →
  preserves (unchanged f) (bind m k).
Proof. apply preserves_bind. apply _. Qed.

Lemma preserves_unchanged_pure {S X A} (f : S → X) (m : M S A) :
  (∀ s, final (m s) = s) → preserves (unchanged f) m.
Proof. apply preserves_pure. apply _. Qed.

Lemma preserves_unchanged_when {S X} (f : S → X) (c : bool) (m : M S unit) :
  preserves (unchanged f) m → preserves (unchanged f) (when c m).
Proof. intros Hm. destruct c; [exact Hm | by apply preserves_unchanged_pure]. Qed.

Lemma preserves_unchanged_forEachValue {S X V} (f : S → X) (obj : list (string * V))
    (fn : V → string → M S unit) :
  (∀ v k, preserves (unchanged f) (fn v k)) →
  preserves (unchanged f) (Util.forEachValue obj fn).
Proof.
  intros Hfn. apply preserves_forEachValue; [apply _ | apply _ |].
  apply Forall_forall. intros [k v] _. apply Hfn.
Qed.

Lemma preserves_unchanged_forEach {S X A} (f : S → X) (fn : A → M S unit) (l : list A) :
  (∀ x, preserves (unchanged f) (fn x)) → preserves (unchanged f) (forEach fn l).
Proof. apply preserves_forEach; apply _. Qed.

Lemma preserves_unchanged_withCommit {X A} (g : Store.t → X) (fn : M Store.t A) :
  (∀ b e, g (set_committing b e) = g e) →
  preserves (unchanged g) fn → preserves (unchanged g) (_withCommit fn).
Proof.
  intros Hg Hfn. unfold _withCommit.
  apply preserves_unchanged_bind; [by apply preserves_unchanged_pure|]. intros committing.
  apply preserves_unchanged_bind; [intros e; apply Hg|]. intros _.
  apply preserves_unchanged_bind; [exact Hfn|]. intros _.
  intros e. apply Hg.
Qed.

(** Code of the engine leaves alone what is not in the engine, and what it
    leaves alone in the engine. *)
Lemma preserves_on_engine_outside {X A} (f : Instance → X) (m : M Store.t A) :
  (∀ e s, f (set_engine e s) = f s) → preserves (unchanged f) (on_engine m).
Proof. intros Hf s. unfold on_engine, unchanged. simpl. apply Hf. Qed.

Lemma preserves_on_engine {X A} (g : Store.t → X) (m : M Store.t A) :
  preserves (unchanged g) m → preserves (unchanged (λ s, g (engine s))) (on_engine m).
Proof. intros Hm s. unfold on_engine, unchanged. simpl. apply Hm. Qed.

End UnchangedFacts.

Section InstallFacts.
Import Mod ModuleCollection NamespaceRule Store StoreModules.
Variable __DEV__ : bool.
Variable Vue_set : Value → list string → string → Value → Outcome Value.
Variable in_operator : string → Value → Outcome bool.
Variable children_keys : list string → ModuleNode → list string.
(** [Object.keys(module._children)] lists the keys of the children. *)
Hypothesis children_keys_spec :
  ∀ p m k, k ∈ children_keys p m ↔ is_Some (getChild k m).

#[local] Set Warnings "-inconsistent-scopes".

#[local] Abbreviation installModule :=
  (StoreModules.installModule __DEV__ Vue_set in_operator children_keys).
#[local] Abbreviation registerGetter := (StoreModules.registerGetter __DEV__).

(** The steps of [installModule], in the order of the source. *)
#[local] Abbreviation record_namespace module namespace path :=
  (when (namespaced module)
     (known <- gets (λ s, _modulesNamespaceMap s !! namespace) ;;
      when (bool_decide (is_Some known) && __DEV__)
        (emit (ConsoleError ("[vuex] duplicate namespace " +:+ namespace
                             +:+ " for the namespaced module " +:+ join "/" path))) ;;;
      modify (λ s, set_modulesNamespaceMap
                     (<[namespace := makeLocalContext namespace path]>
                        (_modulesNamespaceMap s)) s))).

#[local] Abbreviation graft_state module path hot :=
  (when (negb (bool_decide (length path = 0)) && negb hot)
     (rootState <- gets (λ s, Store.state (engine s)) ;;
      parentState <- lift (getNestedState rootState (slice_init path)) ;;
      on_engine
        (_withCommit
           (when __DEV__
              (present <- lift (in_operator (last_key path) parentState) ;;
               when present
                 (emit (ConsoleWarn ("[vuex] state field " +:+ dq +:+ last_key path +:+ dq
                                     +:+ " was overridden by a module with the same name at "
                                     +:+ dq +:+ join "." path +:+ dq)))) ;;;
            rootState' <- lift (Vue_set rootState (slice_init path) (last_key path)
                                  (Mod.state module)) ;;
            modify (set_state rootState'))))).

#[local] Abbreviation register_mutations module namespace path :=
  (forEachMutation (λ mutation key,
     on_engine (registerMutation (namespace +:+ key) mutation
                  (makeLocalContext namespace path))) module).

#[local] Abbreviation register_actions module namespace path :=
  (forEachAction (λ action key,
     match prop action "root", prop action "handler" with
     | Some root, Some handler =>
         on_engine (registerAction (if truthy root then key else namespace +:+ key)
                      (if truthy handler then handler else action)
                      (makeLocalContext namespace path))
     | _, _ => throw (TypeError "action.root")
     end) module).

#[local] Abbreviation register_getters module namespace path :=
  (forEachGetter (λ getter key,
     registerGetter (namespace +:+ key) getter (makeLocalContext namespace path)) module).

#[local] Abbreviation install_children module path hot :=
  (forEachChild (children_keys path module)
     (λ child key, installModule (path ++ [key]) child hot) module).

Lemma installModule_unfold (path : list string) (module : ModuleNode) (hot : bool) :
  installModule path module hot =
  (namespace <- on_modules (reads (getNamespace path)) ;;
   record_namespace module namespace path ;;;
   graft_state module path hot ;;;
   register_mutations module namespace path ;;;
   register_actions module namespace path ;;;
   register_getters module namespace path ;;;
   install_children module path hot).
Proof. destruct module; reflexivity. Qed.

Lemma getNamespace_resolved (mc : Collection) (r x : ModuleNode) (path : list string) :
  root mc = Some r → descend path r = Some x →
  getNamespace path mc = Ret (namespace_by_rule r path).
Proof.
  intros Hr Hx. unfold getNamespace. rewrite Hr.
  by rewrite (namespace_walk _ _ _ _ Hx).
Qed.

(** What each step leaves alone. *)
Lemma record_namespace_frame {X} (f : Instance → X) (module : ModuleNode)
    (namespace : string) (path : list string) :
  (∀ m s, f (set_modulesNamespaceMap m s) = f s) →
  preserves (unchanged f) (record_namespace module namespace path).
Proof.
  intros Hf. apply preserves_unchanged_when.
  apply preserves_unchanged_bind; [by apply preserves_unchanged_pure|]. intros known.
  apply preserves_unchanged_bind.
  { apply preserves_unchanged_when. by apply preserves_unchanged_pure. }
  intros _ s. apply Hf.
Qed.

Lemma graft_state_frame_outside {X} (f : Instance → X) (module : ModuleNode)
    (path : list string) (hot : bool) :
  (∀ e s, f (set_engine e s) = f s) →
  preserves (unchanged f) (graft_state module path hot).
Proof.
  intros Hf. apply preserves_unchanged_when.
  apply preserves_unchanged_bind; [by apply preserves_unchanged_pure|]. intros rootState.
  apply preserves_unchanged_bind; [by apply preserves_unchanged_pure|]. intros parentState.
  by apply preserves_on_engine_outside.
Qed.

Lemma graft_state_frame_engine {X} (g : Store.t → X) (module : ModuleNode)
    (path : list string) (hot : bool) :
  (∀ b e, g (set_committing b e) = g e) →
  (∀ v e, g (set_state v e) = g e) →
  preserves (unchanged (λ s, g (engine s))) (graft_state module path hot).
Proof.
  intros Hc Hs. apply preserves_unchanged_when.
  apply preserves_unchanged_bind; [by apply preserves_unchanged_pure|]. intros rootState.
  apply preserves_unchanged_bind; [by apply preserves_unchanged_pure|]. intros parentState.
  apply preserves_on_engine. apply preserves_unchanged_withCommit; [exact Hc|].
  apply preserves_unchanged_bind.
  { apply preserves_unchanged_when.
    apply preserves_unchanged_bind; [by apply preserves_unchanged_pure|]. intros present.
    apply preserves_unchanged_when. by apply preserves_unchanged_pure. }
  intros _. apply preserves_unchanged_bind; [by apply preserves_unchanged_pure|].
  intros rootState' e. apply Hs.
Qed.

(** The root of the module tree is [r]. *)
#[local] Abbreviation rooted r := (λ s : Instance, root (_modules s) = Some r).
#[local] Abbreviation mutations_of := (λ s : Instance, _mutations (engine s)).
#[local] Abbreviation actions_of := (λ s : Instance, _actions (engine s)).

Lemma adds_frame {W} (registry : Instance → gmap string (list W)) (r : ModuleNode)
    (type : string) (m : M Instance unit) :
  preserves (unchanged _modules) m → preserves (unchanged registry) m →
  adds registry (rooted r) type m [].
Proof.
  intros Hmod Hreg. apply adds_nothing. intros s Hs.
  split; [by rewrite (Hmod s) | apply Hreg].
Qed.

Lemma adds_registerMutation (r : ModuleNode) (type T : string) (handler : Value)
    (local : Local) :
  adds mutations_of (rooted r) type (on_engine (registerMutation T handler local))
    (if String.eqb T type then [mkWrappedMutation handler local] else []).
Proof.
  intros s Hs _. split; [exact Hs|]. simpl.
  destruct (String.eqb_spec T type) as [->|Hne].
  - by rewrite lookup_insert_eq.
  - rewrite lookup_insert_ne by exact Hne. by rewrite app_nil_r.
Qed.

Lemma adds_registerAction (r : ModuleNode) (type T : string) (handler : Value)
    (local : Local) :
  adds actions_of (rooted r) type (on_engine (registerAction T handler local))
    (if String.eqb T type then [mkWrappedAction handler local] else []).
Proof.
  intros s Hs _. split; [exact Hs|]. simpl.
  destruct (String.eqb_spec T type) as [->|Hne].
  - by rewrite lookup_insert_eq.
  - rewrite lookup_insert_ne by exact Hne. by rewrite app_nil_r.
Qed.

Lemma in_install_order_unfold {W} (own : string → list string → ModuleNode → list W)
    (r : ModuleNode) (path : list string) (module : ModuleNode) :
  in_install_order children_keys own r path module
  = own (namespace_by_rule r path) path module
    ++ concat (map (λ key, match getChild key module with
                           | Some child =>
                               in_install_order children_keys own r (path ++ [key]) child
                           | None => []
                           end)
                 (children_keys path module)).
Proof.
  destruct module as [runtime children raw st]. cbn [in_install_order]. f_equal. f_equal.
  apply map_ext. intros key. rewrite map_lookup_imap. unfold getChild. simpl.
  by destruct (children !! key).
Qed.

Lemma register_mutations_frame {X} (f : Instance → X) (module : ModuleNode)
    (namespace : string) (path : list string) :
  (∀ m s, f (set_engine (set_mutations m (engine s)) s) = f s) →
  preserves (unchanged f) (register_mutations module namespace path).
Proof.
  intros Hf. unfold forEachMutation.
  destruct (raw_mutations (_rawModule module)) as [mu|];
    [|by apply preserves_unchanged_pure].
  apply preserves_unchanged_forEachValue. intros v k s. apply Hf.
Qed.

Lemma register_actions_frame {X} (f : Instance → X) (module : ModuleNode)
    (namespace : string) (path : list string) :
  (∀ a s, f (set_engine (set_actions a (engine s)) s) = f s) →
  preserves (unchanged f) (register_actions module namespace path).
Proof.
  intros Hf. unfold forEachAction.
  destruct (raw_actions (_rawModule module)) as [acts|];
    [|by apply preserves_unchanged_pure].
  apply preserves_unchanged_forEachValue. intros v k.
  destruct (prop v "root"), (prop v "handler"); try by apply preserves_unchanged_pure.
  intros s. apply Hf.
Qed.

Lemma register_getters_frame {X} (f : Instance → X) (module : ModuleNode)
    (namespace : string) (path : list string) :
  (∀ g s, f (set_wrappedGetters g s) = f s) →
  preserves (unchanged f) (register_getters module namespace path).
Proof.
  intros Hf. unfold forEachGetter.
  destruct (raw_getters (_rawModule module)) as [g|];
    [|by apply preserves_unchanged_pure].
  apply preserves_unchanged_forEachValue. intros v k. unfold StoreModules.registerGetter.
  apply preserves_unchanged_bind; [by apply preserves_unchanged_pure|].
  intros [known|].
  - apply preserves_unchanged_when. by apply preserves_unchanged_pure.
  - intros s. apply Hf.
Qed.

Lemma forEachChild_lookup {S} (fn : ModuleNode → string → M S unit) (m : ModuleNode)
    (key : string) :
  default (ret tt) (map_imap (λ key child, Some (fn child key)) (Mod._children m) !! key)
  = match getChild key m with
    | Some child => fn child key
    | None => ret tt
    end.
Proof. rewrite map_lookup_imap. unfold getChild. by destruct (_children m !! key). Qed.

Lemma mutation_of_unfold (r : ModuleNode) (path : list string) (module : ModuleNode)
    (type : string) (w : WrappedMutation) :
  mutation_of r path module type w
  ↔ (∃ mu key handler,
       raw_mutations (_rawModule module) = Some mu
       ∧ (key, handler) ∈ mu
       ∧ namespace_by_rule r path +:+ key = type
       ∧ w = mkWrappedMutation handler (mkLocal (namespace_by_rule r path) path))
    ∨ (∃ k child, getChild k module = Some child
                  ∧ mutation_of r (path ++ [k]) child type w).
Proof.
  unfold mutation_of. split.
  - intros (q & x & mu & key & handler & Hx & Hmu & Hin & Htype & Hw).
    destruct q as [|k q].
    + injection Hx as <-. rewrite app_nil_r in Htype, Hw. left. by exists mu, key, handler.
    + simpl in Hx. destruct (getChild k module) as [child|] eqn:Hchild; [|discriminate].
      right. exists k, child. split; [exact Hchild|]. exists q, x, mu, key, handler.
      rewrite <- (assoc_L (++)). by repeat split.
  - intros [(mu & key & handler & Hmu & Hin & Htype & Hw)
           |(k & child & Hchild & q & x & mu & key & handler & Hx & Hmu & Hin & Htype & Hw)].
    + exists [], module, mu, key, handler. rewrite app_nil_r. by repeat split.
    + exists (k :: q), x, mu, key, handler. simpl. rewrite Hchild.
      rewrite <- (assoc_L (++)) in Htype, Hw. by repeat split.
Qed.

(** The mutations that the installation of the tree under [module]
    registers, in the order in which it registers them. *)
Lemma installModule_adds_mutations (r : ModuleNode) (hot : bool) (type : string)
    (module : ModuleNode) :
  ∀ path, descend path r = Some module →
          adds mutations_of (rooted r) type (installModule path module hot)
            (in_install_order children_keys (own_mutations type) r path module).
Proof.
  induction module as [module IH] using ModuleNode_nested_ind.
  intros path Hpath s Hs. rewrite installModule_unfold.
  rewrite (bind_pure _ _ _ (namespace_by_rule r path))
    by (rewrite on_modules_reads; by rewrite (getNamespace_resolved _ _ _ _ Hs Hpath)).
  revert s Hs. rewrite in_install_order_unfold. set (namespace := namespace_by_rule r path).
  change (adds mutations_of (rooted r) type
            (record_namespace module namespace path ;;;
             graft_state module path hot ;;;
             register_mutations module namespace path ;;;
             register_actions module namespace path ;;;
             register_getters module namespace path ;;;
             install_children module path hot)
            ([] ++ [] ++ own_mutations type namespace path module ++ [] ++ []
             ++ concat (map (λ key, match getChild key module with
                                    | Some child =>
                                        in_install_order children_keys (own_mutations type) r
                                          (path ++ [key]) child
                                    | None => []
                                    end)
                          (children_keys path module)))).
  apply adds_bind; [apply adds_frame; by apply record_namespace_frame|].
  apply adds_bind.
  { apply adds_frame; [by apply graft_state_frame_outside|].
    by apply (graft_state_frame_engine _mutations). }
  apply adds_bind.
  { unfold forEachMutation, own_mutations.
    destruct (raw_mutations (_rawModule module)) as [mu|]; [|apply adds_ret].
    eapply adds_eq.
    - apply (adds_forEachValue _ _ _ _
               (λ kv, if String.eqb (namespace +:+ kv.1) type
                      then [mkWrappedMutation kv.2 (makeLocalContext namespace path)]
                      else [])).
      intros k v _. apply adds_registerMutation.
    - simpl. rewrite <- concat_map_omap. f_equal. apply map_ext. intros [k v]. simpl.
      by destruct (String.eqb _ _). }
  apply adds_bind; [apply adds_frame; by apply register_actions_frame|].
  apply adds_bind; [apply adds_frame; by apply register_getters_frame|].
  unfold forEachChild.
  apply (adds_forEach _ _ _ _
           (λ key, match getChild key module with
                   | Some child =>
                       in_install_order children_keys (own_mutations type) r
                         (path ++ [key]) child
                   | None => []
                   end)).
  intros key _. rewrite forEachChild_lookup.
  destruct (getChild key module) as [child|] eqn:Hchild; [|apply adds_ret].
  apply (IH key child Hchild). rewrite descend_snoc, Hpath. exact Hchild.
Qed.

(** The modules whose mutations these are. *)
Lemma in_install_order_mutations (r : ModuleNode) (type : string) (module : ModuleNode) :
  ∀ path w,
    w ∈ in_install_order children_keys (own_mutations type) r path module
    ↔ mutation_of r path module type w.
Proof.
  induction module as [module IH] using ModuleNode_nested_ind.
  intros path w. rewrite in_install_order_unfold, mutation_of_unfold, elem_of_app.
  apply or_iff_both.
  - unfold own_mutations. rewrite list_elem_of_omap. split.
    + intros ([key handler] & Hin & Hw). simpl in Hw.
      destruct (String.eqb_spec (namespace_by_rule r path +:+ key) type) as [Htype|];
        [|discriminate].
      injection Hw as <-.
      destruct (raw_mutations (_rawModule module)) as [mu|]; [|by apply elem_of_nil in Hin].
      by exists mu, key, handler.
    + intros (mu & key & handler & Hmu & Hin & Htype & ->).
      exists (key, handler). rewrite Hmu. split; [exact Hin|]. simpl.
      by rewrite (proj2 (String.eqb_eq _ _) Htype).
  - rewrite elem_of_concat_map. split.
    + intros (key & _ & Hw).
      destruct (getChild key module) as [child|] eqn:Hchild; [|by apply elem_of_nil in Hw].
      exists key, child. split; [exact Hchild|]. by apply (IH key child Hchild).
    + intros (key & child & Hchild & Hw). exists key.
      split; [apply children_keys_spec; by rewrite Hchild|].
      rewrite Hchild. by apply (IH key child Hchild).
Qed.

Lemma action_of_unfold (r : ModuleNode) (path : list string) (module : ModuleNode)
    (type : string) (w : WrappedAction) :
  action_of r path module type w
  ↔ (∃ acts key action root handler,
       raw_actions (_rawModule module) = Some acts
       ∧ (key, action) ∈ acts
       ∧ prop action "root" = Some root
       ∧ prop action "handler" = Some handler
       ∧ (if truthy root then key else namespace_by_rule r path +:+ key) = type
       ∧ w = mkWrappedAction (if truthy handler then handler else action)
               (mkLocal (namespace_by_rule r path) path))
    ∨ (∃ k child, getChild k module = Some child
                  ∧ action_of r (path ++ [k]) child type w).
Proof.
  unfold action_of. split.
  - intros (q & x & acts & key & action & root & handler
            & Hx & Hacts & Hin & Hroot & Hhandler & Htype & Hw).
    destruct q as [|k q].
    + injection Hx as <-. rewrite app_nil_r in Htype, Hw. left.
      by exists acts, key, action, root, handler.
    + simpl in Hx. destruct (getChild k module) as [child|] eqn:Hchild; [|discriminate].
      right. exists k, child. split; [exact Hchild|].
      exists q, x, acts, key, action, root, handler.
      rewrite <- (assoc_L (++)). by repeat split.
  - intros [(acts & key & action & root & handler
             & Hacts & Hin & Hroot & Hhandler & Htype & Hw)
           |(k & child & Hchild & q & x & acts & key & action & root & handler
             & Hx & Hacts & Hin & Hroot & Hhandler & Htype & Hw)].
    + exists [], module, acts, key, action, root, handler. rewrite app_nil_r.
      by repeat split.
    + exists (k :: q), x, acts, key, action, root, handler. simpl. rewrite Hchild.
      rewrite <- (assoc_L (++)) in Htype, Hw. by repeat split.
Qed.

(** The actions that the installation of the tree under [module]
    registers, in the order in which it registers them. *)
Lemma installModule_adds_actions (r : ModuleNode) (hot : bool) (type : string)
    (module : ModuleNode) :
  ∀ path, descend path r = Some module →
          adds actions_of (rooted r) type (installModule path module hot)
            (in_install_order children_keys (own_actions type) r path module).
Proof.
  induction module as [module IH] using ModuleNode_nested_ind.
  intros path Hpath s Hs. rewrite installModule_unfold.
  rewrite (bind_pure _ _ _ (namespace_by_rule r path))
    by (rewrite on_modules_reads; by rewrite (getNamespace_resolved _ _ _ _ Hs Hpath)).
  revert s Hs. rewrite in_install_order_unfold. set (namespace := namespace_by_rule r path).
  change (adds actions_of (rooted r) type
            (record_namespace module namespace path ;;;
             graft_state module path hot ;;;
             register_mutations module namespace path ;;;
             register_actions module namespace path ;;;
             register_getters module namespace path ;;;
             install_children module path hot)
            ([] ++ [] ++ [] ++ own_actions type namespace path module ++ []
             ++ concat (map (λ key, match getChild key module with
                                    | Some child =>
                                        in_install_order children_keys (own_actions type) r
                                          (path ++ [key]) child
                                    | None => []
                                    end)
                          (children_keys path module)))).
  apply adds_bind; [apply adds_frame; by apply record_namespace_frame|].
  apply adds_bind.
  { apply adds_frame; [by apply graft_state_frame_outside|].
    by apply (graft_state_frame_engine _actions). }
  apply adds_bind; [apply adds_frame; by apply register_mutations_frame|].
  apply adds_bind.
  { unfold forEachAction, own_actions.
    destruct (raw_actions (_rawModule module)) as [acts|]; [|apply adds_ret].
    eapply adds_eq.
    - apply (adds_forEachValue _ _ _ _
               (λ kv, match prop kv.2 "root", prop kv.2 "handler" with
                      | Some root, Some handler =>
                          if String.eqb (if truthy root then kv.1 else namespace +:+ kv.1) type
                          then [mkWrappedAction (if truthy handler then handler else kv.2)
                                  (makeLocalContext namespace path)]
                          else []
                      | _, _ => []
                      end)).
      intros k v _. simpl.
      destruct (prop v "root") as [root|]; [|by intros s _ Hret];
        destruct (prop v "handler") as [handler|]; [|by intros s _ Hret].
      apply adds_registerAction.
    - simpl. rewrite <- concat_map_omap. f_equal. apply map_ext. intros [k v]. simpl.
      destruct (prop v "root") as [root|]; [|reflexivity].
      destruct (prop v "handler") as [handler|]; [|reflexivity].
      by destruct (String.eqb _ _). }
  apply adds_bind; [apply adds_frame; by apply register_getters_frame|].
  unfold forEachChild.
  apply (adds_forEach _ _ _ _
           (λ key, match getChild key module with
                   | Some child =>
                       in_install_order children_keys (own_actions type) r
                         (path ++ [key]) child
                   | None => []
                   end)).
  intros key _. rewrite forEachChild_lookup.
  destruct (getChild key module) as [child|] eqn:Hchild; [|apply adds_ret].
  apply (IH key child Hchild). rewrite descend_snoc, Hpath. exact Hchild.
Qed.

(** The modules whose actions these are. *)
Lemma in_install_order_actions (r : ModuleNode) (type : string) (module : ModuleNode) :
  ∀ path w,
    w ∈ in_install_order children_keys (own_actions type) r path module
    ↔ action_of r path module type w.
Proof.
  induction module as [module IH] using ModuleNode_nested_ind.
  intros path w. rewrite in_install_order_unfold, action_of_unfold, elem_of_app.
  apply or_iff_both.
  - unfold own_actions. rewrite list_elem_of_omap. split.
    + intros ([key action] & Hin & Hw). simpl in Hw.
      destruct (prop action "root") as [root|] eqn:Hroot; [|discriminate].
      destruct (prop action "handler") as [handler|] eqn:Hhandler; [|discriminate].
      destruct (String.eqb_spec (if truthy root then key
                                 else namespace_by_rule r path +:+ key) type)
        as [Htype|]; [|discriminate].
      injection Hw as <-.
      destruct (raw_actions (_rawModule module)) as [acts|]; [|by apply elem_of_nil in Hin].
      by exists acts, key, action, root, handler.
    + intros (acts & key & action & root & handler & Hacts & Hin & Hroot & Hhandler
              & Htype & ->).
      exists (key, action). rewrite Hacts. split; [exact Hin|]. simpl.
      rewrite Hroot, Hhandler. by rewrite (proj2 (String.eqb_eq _ _) Htype).
  - rewrite elem_of_concat_map. split.
    + intros (key & _ & Hw).
      destruct (getChild key module) as [child|] eqn:Hchild; [|by apply elem_of_nil in Hw].
      exists key, child. split; [exact Hchild|]. by apply (IH key child Hchild).
    + intros (key & child & Hchild & Hw). exists key.
      split; [apply children_keys_spec; by rewrite Hchild|].
      rewrite Hchild. by apply (IH key child Hchild).
Qed.

(** What the installation of a tree leaves alone: every observation that
    none of its steps changes. *)
Lemma installModule_frame {X} (f : Instance → X) (hot : bool) :
  (∀ m s, f (set_modulesNamespaceMap m s) = f s) →
  (∀ g s, f (set_wrappedGetters g s) = f s) →
  (∀ m s, f (set_engine (set_mutations m (engine s)) s) = f s) →
  (∀ a s, f (set_engine (set_actions a (engine s)) s) = f s) →
  (∀ module path, preserves (unchanged f) (graft_state module path hot)) →
  ∀ module path, preserves (unchanged f) (installModule path module hot).
Proof.
  intros Hmap Hgetters Hmutations Hactions Hgraft.
  induction module as [module IH] using ModuleNode_nested_ind.
  intros path. rewrite installModule_unfold.
  apply preserves_unchanged_bind.
  { intros s. rewrite on_modules_reads. reflexivity. }
  intros namespace.
  apply preserves_unchanged_bind; [by apply record_namespace_frame|]. intros _.
  apply preserves_unchanged_bind; [apply Hgraft|]. intros _.
  apply preserves_unchanged_bind; [by apply register_mutations_frame|]. intros _.
  apply preserves_unchanged_bind; [by apply register_actions_frame|]. intros _.
  apply preserves_unchanged_bind; [by apply register_getters_frame|]. intros _.
  unfold forEachChild. apply preserves_unchanged_forEach.
  intros key. rewrite forEachChild_lookup.
  destruct (getChild key module) as [child|] eqn:Hchild.
  - by apply (IH key child).
  - by apply preserves_unchanged_pure.
Qed.

Lemma installModule_keeps_modules (hot : bool) (module : ModuleNode) (path : list string) :
  preserves (unchanged _modules) (installModule path module hot).
Proof.
  apply installModule_frame; try done.
  intros m p. by apply graft_state_frame_outside.
Qed.

Lemma graft_state_hot {X} (f : Instance → X) (module : ModuleNode) (path : list string) :
  preserves (unchanged f) (graft_state module path true).
Proof. rewrite andb_false_r. by apply preserves_unchanged_pure. Qed.

(** X20.  [installModule] on the module at [path], when it returns, has
    left the module tree as it was and has added to the registries the
    handlers of the modules of the tree under that module, each of them
    once.  Under each type the list of the handlers is the list that was
    there followed by the new handlers in the order of the installation:
    those of the module in the order of [Object.keys] of its [mutations] or
    [actions] object, then those of the trees under its children in the
    order of [Object.keys(_children)].  The
    new handlers are: a mutation [key] of the module at [path ++ q] under
    the namespace of that module followed by [key], an action likewise, or
    under its bare key when it is declared with a truthy [root], with its
    [handler] property as the handler when it has one; each handler is
    bound to the local context of its own module, made of that namespace and
    that path. *)
Theorem installModule_registers_handlers (path : list string) (module : ModuleNode)
    (hot : bool) (s : Instance) (r : ModuleNode) :
  root (_modules s) = Some r →
  descend path r = Some module →
  outcome (installModule path module hot s) = Ret tt →
  let s' := final (installModule path module hot s) in
  _modules s' = _modules s
  ∧ (∀ type,
       default [] (_mutations (engine s') !! type)
       = default [] (_mutations (engine s) !! type)
         ++ in_install_order children_keys (own_mutations type) r path module)
  ∧ (∀ type,
       default [] (_actions (engine s') !! type)
       = default [] (_actions (engine s) !! type)
         ++ in_install_order children_keys (own_actions type) r path module)
  ∧ (∀ type w, w ∈ in_install_order children_keys (own_mutations type) r path module
               ↔ mutation_of r path module type w)
  ∧ (∀ type w, w ∈ in_install_order children_keys (own_actions type) r path module
               ↔ action_of r path module type w).
Proof.
  intros Hr Hpath Hret s'. split; [apply installModule_keeps_modules|].
  split; [|split; [|split]].
  - intros type.
    exact (proj2 (installModule_adds_mutations r hot type module path Hpath s Hr Hret)).
  - intros type.
    exact (proj2 (installModule_adds_actions r hot type module path Hpath s Hr Hret)).
  - intros type w. apply in_install_order_mutations.
  - intros type w. apply in_install_order_actions.
Qed.

(** ** Where the installation puts the state of the modules *)

Lemma graft_state_root (module : ModuleNode) (hot : bool) (s : Instance) :
  graft_state module (@nil string) hot s = mkRun (Ret tt) s [].
Proof. reflexivity. Qed.

Lemma set_after_warning (warn : M Store.t unit) (rootState : Value) (parent : list string)
    (name : string) (v : Value) (e : Store.t) :
  final (warn e) = e →
  outcome ((warn ;;;
            rootState' <- lift (Vue_set rootState parent name v) ;;
            modify (set_state rootState')) e)
  = Ret tt →
  ∃ rootState',
    Vue_set rootState parent name v = Ret rootState'
    ∧ final ((warn ;;;
              rootState' <- lift (Vue_set rootState parent name v) ;;
              modify (set_state rootState')) e)
      = set_state rootState' e.
Proof.
  intros Hwarn Hret.
  apply bind_ret_inv in Hret as ([] & _ & Hret & -> & _). rewrite Hwarn in Hret |- *.
  apply bind_ret_inv in Hret as (rootState' & Hset & _ & -> & _).
  exists rootState'. split; [exact Hset|]. reflexivity.
Qed.

Lemma graft_state_run (module : ModuleNode) (path : list string) (s : Instance) :
  path ≠ [] →
  outcome (graft_state module path false s) = Ret tt →
  ∃ parentState rootState',
    getNestedState (Store.state (engine s)) (slice_init path) = Ret parentState
    ∧ Vue_set (Store.state (engine s)) (slice_init path) (last_key path) (Mod.state module)
      = Ret rootState'
    ∧ Store.state (engine (final (graft_state module path false s))) = rootState'.
Proof.
  intros Hpath. rewrite bool_decide_false by (by destruct path).
  cbn [negb andb when]. intros Hret.
  apply bind_ret_inv in Hret as (rootState & [= <-] & Hret & -> & _).
  change (final (gets (λ s0, Store.state (engine s0)) s)) with s in *.
  apply bind_ret_inv in Hret as (parentState & Hparent & Hret & -> & _).
  change (final (lift (getNestedState (Store.state (engine s)) (slice_init path)) s))
    with s in *.
  revert Hret. unfold on_engine. rewrite withCommit_unfold. cbn [outcome final trace].
  match goal with
  | |- outcome (match outcome ?r with _ => _ end) = _ → _ =>
      destruct (outcome r) as [[]|x] eqn:Hinner; [|discriminate]
  end.
  intros _. apply set_after_warning in Hinner as (rootState' & Hset & Hfinal).
  - exists parentState, rootState'. split; [exact Hparent|]. split; [exact Hset|].
    cbn [final engine set_engine]. rewrite Hfinal. reflexivity.
  - destruct __DEV__; [|reflexivity]. cbn [when]. unfold bind, lift. cbn [outcome final].
    destruct (in_operator (last_key path) parentState) as [[]|]; reflexivity.
Qed.

Lemma returns_with_bind {S} (P Q R : S → Prop) (m k : M S unit) :
  returns_with P m Q → returns_with Q k R → returns_with P (m ;;; k) R.
Proof.
  intros Hm Hk s HP Hret. apply bind_ret_inv in Hret as ([] & Hm1 & Hk1 & -> & _).
  apply Hk; [by apply Hm | exact Hk1].
Qed.

Lemma returns_with_frame {S X} (f : S → X) (P : X → Prop) (m : M S unit) :
  preserves (unchanged f) m → returns_with (λ s, P (f s)) m (λ s, P (f s)).
Proof. intros Hm s HP _. by rewrite (Hm s). Qed.

Lemma returns_with_forEach {S A} (I : list A → S → Prop) (fn : A → M S unit)
    (keys : list A) :
  (∀ done k, k ∈ keys → returns_with (I done) (fn k) (I (done ++ [k]))) →
  ∀ done, returns_with (I done) (forEach fn keys) (I (done ++ keys)).
Proof.
  induction keys as [|k keys IH]; intros Hfn done s HI Hret.
  - rewrite app_nil_r. exact HI.
  - change (forEach fn (k :: keys)) with (fn k ;;; forEach fn keys) in Hret |- *.
    apply bind_ret_inv in Hret as ([] & Hk & Hrest & -> & _).
    rewrite (cons_middle k), (assoc_L (++)). apply IH; [..|exact Hrest].
    + intros d k' Hin. apply Hfn. by right.
    + apply Hfn; [by left|exact HI|exact Hk].
Qed.

Lemma same_beside_refl (path : list string) (st : Value) : same_beside path st st.
Proof. by intros common k k' rest rest' _ _. Qed.

Lemma same_beside_trans (path : list string) (a b c : Value) :
  same_beside path a b → same_beside path b c → same_beside path a c.
Proof.
  intros Hab Hbc common k k' rest rest' Hpath Hne.
  by rewrite (Hbc common k k' rest rest' Hpath Hne), (Hab common k k' rest rest' Hpath Hne).
Qed.

Lemma same_beside_weaken (path q : list string) (st st' : Value) :
  same_beside (path ++ q) st st' → same_beside path st st'.
Proof.
  intros H common k k' rest rest' -> Hne.
  apply (H common k k' (rest ++ q) rest'); [|exact Hne].
  by rewrite <- (assoc_L (++)).
Qed.

Lemma state_installed_beside (path : list string) (k k' : string) (child : ModuleNode)
    (st st' : Value) :
  k ≠ k' → same_beside (path ++ [k]) st st' →
  state_installed (path ++ [k']) child st → state_installed (path ++ [k']) child st'.
Proof.
  intros Hne Hbeside Hinstalled q x Hx.
  destruct (Hinstalled q x Hx) as (fs & Hget & Hfields).
  exists fs. split; [|exact Hfields]. rewrite <- Hget, <- !(assoc_L (++)).
  by apply (Hbeside path k k' [] q).
Qed.

(** No object of the state is reached along two paths. *)
Hypothesis Vue_set_unshared : sets_along_path Vue_set.

#[local] Abbreviation state_of := (λ s : Instance, Store.state (engine s)).

Lemma graft_state_installs (module : ModuleNode) (path : list string) (st0 : Value) :
  (∃ own, Mod.state module = VObj own) →
  object_walk st0 path →
  (path = [] → st0 = Mod.state module) →
  returns_with (λ s, state_of s = st0) (graft_state module path false)
    (λ s, children_installed path module st0 [] (state_of s)).
Proof.
  intros (own & Hown) Hwalk Hroot s Hst Hret.
  assert (object_walk (state_of (final (graft_state module path false s))) path
          ∧ getNestedState (state_of (final (graft_state module path false s))) path
            = Ret (Mod.state module)
          ∧ same_beside path st0 (state_of (final (graft_state module path false s))))
    as (Hwalk' & Hget & Hbeside).
  { destruct path as [|name parent _] using rev_ind.
    - rewrite graft_state_root. cbn [final]. rewrite Hst, (Hroot eq_refl).
      split; [done|]. split; [reflexivity | apply same_beside_refl].
    - apply graft_state_run in Hret as (parentState & rootState' & Hparent & Hset & ->);
        [|by destruct parent].
      rewrite slice_init_snoc, last_key_snoc, Hst in *.
      apply object_walk_snoc in Hwalk as Hparts.
      destruct Hparts as (Hwalk_parent & fs & Hfs).
      rewrite (Vue_set_unshared _ _ _ _ fs Hwalk_parent Hfs) in Hset. injection Hset as <-.
      rewrite (put_nested_snoc _ _ _ _ _ Hfs Hwalk_parent).
      split; [by apply object_walk_put_nested|].
      split; [by apply get_put_nested | by apply put_nested_beside]. }
  split; [exact Hwalk'|]. split; [|split; [|exact Hbeside]].
  - exists own. rewrite Hget, Hown. split; [reflexivity|]. by intros k _.
  - by intros k child ?%elem_of_nil.
Qed.

Lemma install_child_step (module : ModuleNode) (path : list string) (st0 : Value)
    (fn : ModuleNode → string → M Instance unit) (done : list string) (key : string) :
  (∀ child, getChild key module = Some child →
            ∀ st, returns_with (λ s, state_of s = st ∧ object_walk st (path ++ [key]))
                    (fn child key)
                    (λ s, subtree_installed (path ++ [key]) child st (state_of s))) →
  returns_with (λ s, children_installed path module st0 done (state_of s))
    (match getChild key module with
     | Some child => fn child key
     | None => ret tt
     end)
    (λ s, children_installed path module st0 (done ++ [key]) (state_of s)).
Proof.
  intros Hfn s (Hwalk & (fs & Hfs & Hfields) & Hdone & Hbeside) Hret.
  destruct (getChild key module) as [child|] eqn:Hchild.
  - assert (object_walk (state_of s) (path ++ [key])) as Hwalk_key.
    { apply object_walk_snoc. split; [exact Hwalk | by exists fs]. }
    destruct (Hfn child eq_refl (state_of s) s (conj eq_refl Hwalk_key) Hret)
      as (Hwalk' & Hinstalled & Hbeside').
    apply object_walk_snoc in Hwalk' as (Hwalk' & fs' & Hfs').
    split; [exact Hwalk'|]. split; [|split].
    + exists fs'. split; [exact Hfs'|]. intros k Hk. rewrite <- (Hfields k Hk).
      assert (key ≠ k) as Hne by (intros ->; congruence).
      pose proof (Hbeside' path key k [] [] eq_refl Hne) as Hread.
      rewrite !getNestedState_app, Hfs, Hfs' in Hread.
      rewrite !getNestedState_cons in Hread. cbn [prop] in Hread.
      change (Ret (field k fs') = Ret (field k fs)) in Hread. congruence.
    + intros k c [Hin| ->%list_elem_of_singleton]%elem_of_app Hc.
      * destruct (decide (key = k)) as [<-|Hne]; [by simplify_eq|].
        eapply state_installed_beside; [exact Hne|exact Hbeside'|by eapply Hdone].
      * by simplify_eq.
    + eapply same_beside_trans; [exact Hbeside|]. by eapply same_beside_weaken.
  - split; [exact Hwalk|]. split; [by exists fs|]. split; [|exact Hbeside].
    intros k c [Hin| ->%list_elem_of_singleton]%elem_of_app Hc; [by eapply Hdone|].
    congruence.
Qed.

(** The state after the installation of the tree under [module]. *)
Lemma installModule_grafts (module : ModuleNode) :
  (∀ q x, descend q module = Some x → ∃ own, Mod.state x = VObj own) →
  ∀ path st0,
    object_walk st0 path →
    (path = [] → st0 = Mod.state module) →
    returns_with (λ s, state_of s = st0) (installModule path module false)
      (λ s, subtree_installed path module st0 (state_of s)).
Proof.
  induction module as [module IH] using ModuleNode_nested_ind.
  intros Hobjects path st0 Hwalk Hroot s Hst Hret.
  rewrite installModule_unfold in Hret |- *.
  apply bind_ret_inv in Hret as (namespace & _ & Hret & -> & _).
  rewrite on_modules_reads in Hret |- *. cbn [final] in Hret |- *.
  revert s Hst Hret.
  change (returns_with (λ s, state_of s = st0)
            (record_namespace module namespace path ;;;
             graft_state module path false ;;;
             register_mutations module namespace path ;;;
             register_actions module namespace path ;;;
             register_getters module namespace path ;;;
             install_children module path false)
            (λ s, subtree_installed path module st0 (state_of s))).
  eapply returns_with_bind.
  { apply (returns_with_frame state_of (λ st, st = st0)).
    by apply record_namespace_frame. }
  eapply returns_with_bind.
  { apply graft_state_installs; [apply (Hobjects [] module eq_refl)|done..]. }
  eapply returns_with_bind.
  { apply (returns_with_frame state_of (children_installed path module st0 [])).
    by apply register_mutations_frame. }
  eapply returns_with_bind.
  { apply (returns_with_frame state_of (children_installed path module st0 [])).
    by apply register_actions_frame. }
  eapply returns_with_bind.
  { apply (returns_with_frame state_of (children_installed path module st0 [])).
    by apply register_getters_frame. }
  intros s Hinv Hret.
  pose proof (returns_with_forEach
                (λ done s, children_installed path module st0 done (state_of s))
                (λ key, default (ret tt)
                          (map_imap (λ key child,
                                       Some (installModule (path ++ [key]) child false))
                             (Mod._children module) !! key))
                (children_keys path module)) as Hloop.
  cbv beta in Hloop.
  assert (children_installed path module st0 (children_keys path module)
            (state_of (final (install_children module path false s)))) as Hall.
  { apply (λ H, Hloop H [] s Hinv Hret). intros done k _.
    rewrite forEachChild_lookup.
    apply (install_child_step module path st0
             (λ child key, installModule (path ++ [key]) child false)).
    intros child Hchild st s1 [Hst1 Hwalk1] Hret1.
    apply (IH k child Hchild); [|exact Hwalk1|by destruct path|exact Hst1|exact Hret1].
    intros q x Hx. apply (Hobjects (k :: q)). simpl. by rewrite Hchild. }
  destruct Hall as (Hwalk' & (fs & Hfs & Hfields) & Hdone & Hbeside).
  split; [exact Hwalk'|]. split; [|exact Hbeside].
  intros q x Hx. destruct q as [|k q].
  - injection Hx as <-. rewrite app_nil_r. by exists fs.
  - simpl in Hx. destruct (getChild k module) as [child|] eqn:Hchild; [|discriminate].
    rewrite (cons_middle k), (assoc_L (++)).
    apply (Hdone k child); [|exact Hchild|exact Hx].
    apply children_keys_spec. by rewrite Hchild.
Qed.

(** X25.  [installModule] with [hot] false puts the state of every module
    of the tree under [module] into the state tree.  When the module states
    of the tree are objects and every key of [path] is read from an object
    of the state, and for the root module the state is the state of that
    module, then after the call the state read along [path], and along
    [path] followed by the path to any module of the tree, is an object
    with the properties of the state of that module, except under the keys
    of the children of that module, where the states of the children are;
    and what the state holds along the paths that leave [path] is what it
    held before. *)
Theorem installModule_grafts_state (path : list string) (module : ModuleNode)
    (s : Instance) :
  (∀ q x, descend q module = Some x → ∃ own, Mod.state x = VObj own) →
  object_walk (Store.state (engine s)) path →
  (path = [] → Store.state (engine s) = Mod.state module) →
  outcome (installModule path module false s) = Ret tt →
  let st' := Store.state (engine (final (installModule path module false s))) in
  object_walk st' path
  ∧ (∀ q x, descend q module = Some x →
            ∃ fs, getNestedState st' (path ++ q) = Ret (VObj fs)
                  ∧ ∀ k, getChild k x = None
                         → prop (VObj fs) k = prop (Mod.state x) k)
  ∧ (∀ common k k' rest rest',
       path = common ++ k :: rest → k ≠ k' →
       getNestedState st' (common ++ k' :: rest')
       = getNestedState (Store.state (engine s)) (common ++ k' :: rest')).
Proof.
  intros Hobjects Hwalk Hroot Hret st'.
  destruct (installModule_grafts module Hobjects path (Store.state (engine s)) Hwalk Hroot
              s eq_refl Hret) as (Hwalk' & Hinstalled & Hbeside).
  split; [exact Hwalk'|]. split; [|exact Hbeside].
  intros q x Hx. destruct (Hinstalled q x Hx) as (fs & Hget & Hfields).
  exists fs. split; [exact Hget|]. intros k Hk.
  destruct (Hobjects q x Hx) as (own & Hown). rewrite Hown in Hfields |- *.
  simpl. f_equal. by apply Hfields.
Qed.

End InstallFacts.

(* ===================================================================== *)
(** * The constructor, [registerModule], [unregisterModule], [hotUpdate] *)
(* ===================================================================== *)

Section StoreAPIFacts.
Import Mod ModuleCollection NamespaceRule Store StoreModules.
Variable __DEV__ : bool.
Variable JSON_stringify : Value → string.
Variable init_state : FnRef → Value.
Variable Vue_set : Value → list string → string → Value → Outcome Value.
Variable Vue_delete : Value → list string → string → Outcome Value.
Variable in_operator : string → Value → Outcome bool.
Variable children_keys : list string → ModuleNode → list string.
Hypothesis children_keys_spec :
  ∀ p m k, k ∈ children_keys p m ↔ is_Some (getChild k m).

#[local] Abbreviation installModule :=
  (StoreModules.installModule __DEV__ Vue_set in_operator children_keys).
#[local] Abbreviation installModule_found :=
  (StoreModules.installModule_found __DEV__ Vue_set in_operator children_keys).
#[local] Abbreviation resetStore :=
  (StoreModules.resetStore __DEV__ Vue_set in_operator children_keys).
#[local] Abbreviation new :=
  (StoreModules.new __DEV__ JSON_stringify init_state Vue_set in_operator children_keys).
#[local] Abbreviation registerModule :=
  (StoreModules.registerModule __DEV__ JSON_stringify init_state Vue_set in_operator
     children_keys).
#[local] Abbreviation unregisterModule :=
  (StoreModules.unregisterModule __DEV__ Vue_set Vue_delete in_operator children_keys).
#[local] Abbreviation hotUpdate :=
  (StoreModules.hotUpdate __DEV__ JSON_stringify Vue_set in_operator children_keys).
#[local] Abbreviation register := (ModuleCollection.register __DEV__ JSON_stringify init_state).

Lemma resetStoreVM_final (s : Instance) :
  resetStoreVM s
  = mkRun (Ret tt) (set_getters (dom (_wrappedGetters s)) (set_makeLocalGettersCache ∅ s)) [].
Proof. reflexivity. Qed.

#[local] Abbreviation installed_mutations r type :=
  (in_install_order children_keys (own_mutations type) r [] r).
#[local] Abbreviation installed_actions r type :=
  (in_install_order children_keys (own_actions type) r [] r).

(** The registries after an installation of the whole tree into empty
    registries. *)
Lemma install_root_registries (s : Instance) (r : ModuleNode) (hot : bool) :
  root (_modules s) = Some r →
  _mutations (engine s) = ∅ →
  _actions (engine s) = ∅ →
  outcome (installModule [] r hot s) = Ret tt →
  let s' := final (installModule [] r hot s) in
  _modules s' = _modules s
  ∧ (∀ type, default [] (_mutations (engine s') !! type) = installed_mutations r type)
  ∧ (∀ type, default [] (_actions (engine s') !! type) = installed_actions r type).
Proof.
  intros Hr Hmu Hact Hret s'.
  split; [apply (installModule_keeps_modules __DEV__ Vue_set in_operator children_keys)|].
  split; intros type.
  - destruct (installModule_adds_mutations __DEV__ Vue_set in_operator children_keys
                r hot type r [] eq_refl s Hr Hret) as (_ & Heq).
    fold s' in Heq. rewrite Heq. cbn beta. by rewrite Hmu, lookup_empty.
  - destruct (installModule_adds_actions __DEV__ Vue_set in_operator children_keys
                r hot type r [] eq_refl s Hr Hret) as (_ & Heq).
    fold s' in Heq. rewrite Heq. cbn beta. by rewrite Hact, lookup_empty.
Qed.

(** X21.  A store constructed from the declaration [options], when the
    constructor returns, holds the module tree that [ModuleCollection]
    builds from [options], and its registries hold the handlers of the
    modules of that tree, each of them once: under each type the list of the
    mutations, and of the actions, that the modules declare for it, in the
    order of the installation, each bound to the local context of its
    module.  A type that no module declares has no handler. *)
Theorem new_registers_declared_handlers (options : RawModule) :
  outcome (new options) = Ret tt →
  let s := final (new options) in
  _modules s = final (ModuleCollection.new __DEV__ JSON_stringify init_state options)
  ∧ ∃ r, root (_modules s) = Some r
         ∧ (∀ type, default [] (_mutations (engine s) !! type) = installed_mutations r type)
         ∧ (∀ type, default [] (_actions (engine s) !! type) = installed_actions r type)
         ∧ (∀ type w, w ∈ installed_mutations r type ↔ mutation_of r [] r type w)
         ∧ (∀ type w, w ∈ installed_actions r type ↔ action_of r [] r type w)
         ∧ getters s = dom (_wrappedGetters s).
Proof.
  unfold StoreModules.new. intros Hret. cbv zeta.
  apply bind_ret_inv in Hret as ([] & Hreg & Hret & Hfinal & _).
  rewrite Hfinal. clear Hfinal. revert Hret.
  assert (final (on_modules (register [] options false) blank)
          = set_modules
              (final (ModuleCollection.new __DEV__ JSON_stringify init_state options))
              blank) as -> by reflexivity.
  generalize (final (ModuleCollection.new __DEV__ JSON_stringify init_state options)).
  intros mc Hret.
  apply bind_ret_inv in Hret as (r & Hr & Hret & Hfinal & _).
  rewrite Hfinal. clear Hfinal.
  unfold gets in Hr, Hret |- *. cbn [final outcome] in Hr, Hret |- *.
  injection Hr as <-. cbn [_modules set_modules] in Hret |- *.
  destruct (root mc) as [rootModule|] eqn:Hroot; [|discriminate].
  apply bind_ret_inv in Hret as ([] & _ & Hret & Hfinal & _).
  rewrite Hfinal. clear Hfinal.
  apply bind_ret_inv in Hret as ([] & Hinstall & _ & Hfinal & _).
  rewrite Hfinal. clear Hfinal.
  rewrite resetStoreVM_final. cbn [final].
  revert Hinstall. unfold on_engine, modify. cbn [final outcome trace].
  set (s0 := set_engine _ (set_modules mc blank)). intros Hinstall.
  destruct (install_root_registries s0 rootModule false Hroot eq_refl eq_refl Hinstall)
    as (Hmod & Hmu & Hact).
  revert Hmod Hmu Hact. generalize (final (installModule [] rootModule false s0)).
  intros s1 Hmod Hmu Hact. simpl.
  split; [by rewrite Hmod|]. exists rootModule. split; [by rewrite Hmod|].
  split; [exact Hmu|]. split; [exact Hact|].
  split; [intros type w; by apply in_install_order_mutations|].
  split; [intros type w; by apply in_install_order_actions|]. reflexivity.
Qed.

(** The engine apart from its two registries. *)
#[local] Abbreviation beside_registries :=
  (λ s : Instance, set_mutations ∅ (set_actions ∅ (engine s))).

Lemma installModule_hot_beside_registries (module : ModuleNode) (path : list string) :
  preserves (unchanged beside_registries) (installModule path module true).
Proof.
  apply installModule_frame; try done.
  intros m p. apply graft_state_hot.
Qed.

Lemma resetStore_registries (s : Instance) (r : ModuleNode) (hot : bool) :
  root (_modules s) = Some r →
  outcome (resetStore hot s) = Ret tt →
  let s' := final (resetStore hot s) in
  _modules s' = _modules s
  ∧ (∀ type, default [] (_mutations (engine s') !! type) = installed_mutations r type)
  ∧ (∀ type, default [] (_actions (engine s') !! type) = installed_actions r type)
  ∧ beside_registries s' = beside_registries s
  ∧ getters s' = dom (_wrappedGetters s').
Proof.
  intros Hr Hret s'.
  set (s0 := set_modulesNamespaceMap ∅
               (set_wrappedGetters ∅
                  (set_engine (set_mutations ∅ (set_actions ∅ (engine s))) s))).
  assert (outcome (installModule [] r true s0) = Ret tt
          ∧ s' = set_getters (dom (_wrappedGetters (final (installModule [] r true s0))))
                   (set_makeLocalGettersCache ∅ (final (installModule [] r true s0))))
    as [Hinstall ->].
  { subst s'. revert Hret.
    unfold StoreModules.resetStore, bind, modify, gets. cbn [outcome final trace].
    fold s0. change (root (_modules s0)) with (root (_modules s)). rewrite Hr.
    change (installModule_found [] (Some r) true s0) with (installModule [] r true s0).
    by destruct (outcome (installModule [] r true s0)) as [[]|e]. }
  destruct (install_root_registries s0 r true Hr eq_refl eq_refl Hinstall)
    as (Hmod & Hmu & Hact).
  pose proof (installModule_hot_beside_registries r [] s0) as Hbeside.
  unfold unchanged in Hbeside.
  revert Hmod Hmu Hact Hbeside. generalize (final (installModule [] r true s0)).
  intros s1 Hmod Hmu Hact Hbeside. simpl.
  split; [exact Hmod|]. split; [exact Hmu|]. split; [exact Hact|].
  split; [exact Hbeside | reflexivity].
Qed.

(** X22.  [hotUpdate(newOptions)], when it returns, has updated the module
    tree by [ModuleCollection.update] and has rebuilt the registries from
    nothing: under each type they hold the list of the handlers of the
    modules of the updated tree in the order of the installation, each of
    them once, so that a handler which the new declaration replaces is no
    longer registered.  The state, the subscribers and [_committing] are
    what they were: a hot update installs no state. *)
Theorem hotUpdate_rebuilds_registries (newOptions : RawModule) (s : Instance)
    (r : ModuleNode) :
  root (_modules s) = Some r →
  outcome (hotUpdate newOptions s) = Ret tt →
  let s' := final (hotUpdate newOptions s) in
  let r' := final (ModuleCollection.update __DEV__ JSON_stringify [] newOptions r) in
  root (_modules s') = Some r'
  ∧ (∀ type, default [] (_mutations (engine s') !! type) = installed_mutations r' type)
  ∧ (∀ type, default [] (_actions (engine s') !! type) = installed_actions r' type)
  ∧ (∀ type w, w ∈ installed_mutations r' type ↔ mutation_of r' [] r' type w)
  ∧ (∀ type w, w ∈ installed_actions r' type ↔ action_of r' [] r' type w)
  ∧ Store.state (engine s') = Store.state (engine s)
  ∧ _subscribers (engine s') = _subscribers (engine s)
  ∧ _actionSubscribers (engine s') = _actionSubscribers (engine s)
  ∧ _committing (engine s') = _committing (engine s).
Proof.
  unfold StoreModules.hotUpdate. intros Hr Hret. cbv zeta.
  apply bind_ret_inv in Hret as ([] & Hupdate & Hret & Hfinal & _).
  rewrite Hfinal. clear Hfinal. revert Hupdate Hret.
  unfold on_modules, update_root. rewrite Hr. cbn [final outcome trace].
  set (r' := final (ModuleCollection.update __DEV__ JSON_stringify [] newOptions r)).
  set (s0 := set_modules (mkCollection (Some r')) s). intros _ Hret.
  destruct (resetStore_registries s0 r' true eq_refl Hret)
    as (Hmod & Hmu & Hact & Hbeside & _).
  revert Hmod Hmu Hact Hbeside. generalize (final (resetStore true s0)).
  intros s1 Hmod Hmu Hact Hbeside.
  split; [by rewrite Hmod|]. split; [exact Hmu|]. split; [exact Hact|].
  split; [intros type w; by apply in_install_order_mutations|].
  split; [intros type w; by apply in_install_order_actions|].
  change (beside_registries s0) with (beside_registries s) in Hbeside.
  unfold set_mutations, set_actions in Hbeside. simpl in Hbeside.
  by injection Hbeside as -> -> -> _ -> _.
Qed.

Lemma isRegistered_of_get (path : list string) (mc : Collection)
    (found : option ModuleNode) :
  path ≠ [] → get path mc = Ret found →
  isRegistered path mc = Ret (bool_decide (is_Some found)).
Proof.
  intros Hne. rewrite (path_split path Hne) at 1.
  unfold isRegistered, get, get_from. rewrite reduce_app.
  destruct (reduce _ (slice_init path) (root mc)) as [[parent|]|e]; try discriminate.
  rewrite reduce_cons. intros [= <-]. reflexivity.
Qed.

Lemma hasModule_run (path : PathArg) (s : Instance) :
  hasModule path s = mkRun (isRegistered (as_path path) (_modules s)) s [].
Proof. unfold hasModule. apply on_modules_reads. Qed.

(** X23.  [registerModule(path, rawModule, options)], when it returns, has
    registered the declaration in the module tree as a runtime module and
    installed the tree under it: [hasModule(path)] is then true, and under
    each type the list of the handlers is the list that was there, which
    stays as it is, also with the handlers of a module that was at [path]
    before the call, followed by the handlers of the new modules in the
    order of the installation, each of them once. *)
Theorem registerModule_installs (path : PathArg) (rawModule : RawModule)
    (preserveState : bool) (s : Instance) :
  outcome (registerModule path rawModule preserveState s) = Ret tt →
  let p := as_path path in
  let s' := final (registerModule path rawModule preserveState s) in
  _modules s' = final (register p rawModule true (_modules s))
  ∧ ∃ r' module,
      root (_modules s') = Some r'
      ∧ descend p r' = Some module
      ∧ (p ≠ [] → hasModule path s' = mkRun (Ret true) s' [])
      ∧ (∀ type,
           default [] (_mutations (engine s') !! type)
           = default [] (_mutations (engine s) !! type)
             ++ in_install_order children_keys (own_mutations type) r' p module)
      ∧ (∀ type,
           default [] (_actions (engine s') !! type)
           = default [] (_actions (engine s) !! type)
             ++ in_install_order children_keys (own_actions type) r' p module)
      ∧ (∀ type w, w ∈ in_install_order children_keys (own_mutations type) r' p module
                   ↔ mutation_of r' p module type w)
      ∧ (∀ type w, w ∈ in_install_order children_keys (own_actions type) r' p module
                   ↔ action_of r' p module type w).
Proof.
  intros Hret p s'.
  set (mc' := final (register p rawModule true (_modules s))).
  set (s0 := set_modules mc' s).
  assert (∃ module,
            get p mc' = Ret (Some module)
            ∧ outcome (installModule p module preserveState s0) = Ret tt
            ∧ s' = set_getters
                     (dom (_wrappedGetters (final (installModule p module preserveState s0))))
                     (set_makeLocalGettersCache ∅
                        (final (installModule p module preserveState s0))))
    as (module & Hget & Hinstall & ->).
  { subst s'. revert Hret. unfold StoreModules.registerModule. cbv zeta. fold p.
    intros Hret.
    apply bind_ret_inv in Hret as ([] & _ & Hret & Hfinal & _).
    rewrite Hfinal. clear Hfinal.
    assert (final (when __DEV__
                     (Util.assert (bool_decide (0 < length p))
                        "cannot register the root module by using registerModule.") s)
            = s) as Hsame.
    { destruct __DEV__; [|reflexivity]. simpl. unfold Util.assert.
      by destruct (bool_decide _). }
    rewrite Hsame in Hret |- *. clear Hsame.
    apply bind_ret_inv in Hret as ([] & _ & Hret & Hfinal & _).
    rewrite Hfinal. clear Hfinal.
    change (final (on_modules (register p rawModule true) s)) with s0 in *.
    apply bind_ret_inv in Hret as (found & Hget & Hret & Hfinal & _).
    rewrite Hfinal. clear Hfinal.
    rewrite on_modules_reads in Hget, Hret |- *. cbn [outcome final] in Hget, Hret |- *.
    change (_modules s0) with mc' in Hget.
    apply bind_ret_inv in Hret as ([] & Hinstall & _ & Hfinal & _).
    rewrite Hfinal, resetStoreVM_final. clear Hfinal. cbn [final].
    destruct found as [module|].
    - exists module. by repeat split.
    - exfalso. revert Hinstall. unfold StoreModules.installModule_found, bind.
      rewrite on_modules_reads. cbn [outcome final trace].
      by destruct (getNamespace p (_modules s0)). }
  apply get_from_Some in Hget as Hresolve.
  destruct (root mc') as [r'|] eqn:Hroot; [|discriminate]. simpl in Hresolve.
  assert (root (_modules s0) = Some r') as Hr0 by exact Hroot.
  pose proof (installModule_keeps_modules __DEV__ Vue_set in_operator children_keys
                preserveState module p s0) as Hmod.
  pose proof (λ type, proj2 (installModule_adds_mutations __DEV__ Vue_set in_operator
                children_keys r' preserveState type module p
                Hresolve s0 Hr0 Hinstall)) as Hmu.
  pose proof (λ type, proj2 (installModule_adds_actions __DEV__ Vue_set in_operator
                children_keys r' preserveState type module p
                Hresolve s0 Hr0 Hinstall)) as Hact.
  unfold unchanged in Hmod.
  revert Hmod Hmu Hact. generalize (final (installModule p module preserveState s0)).
  intros s1 Hmod Hmu Hact. simpl.
  split; [exact Hmod|]. exists r', module.
  split; [by rewrite Hmod|]. split; [exact Hresolve|].
  split; [|split; [exact Hmu|split; [exact Hact|split]]].
  2: intros type w; by apply in_install_order_mutations.
  2: intros type w; by apply in_install_order_actions.
  intros Hne. rewrite hasModule_run. f_equal. simpl. rewrite Hmod. simpl.
  fold p. by rewrite (isRegistered_of_get p mc' _ Hne Hget).
Qed.

(** The step of [unregisterModule] that deletes the state of the module. *)
Lemma delete_state_run (p : list string) (e : Store.t) :
  _withCommit
    (st <- gets Store.state ;;
     parentState <- lift (getNestedState st (slice_init p)) ;;
     st' <- lift (Vue_delete st (slice_init p) (last_key p)) ;;
     modify (set_state st')) e
  = match getNestedState (Store.state e) (slice_init p) with
    | Ret parentState =>
        match Vue_delete (Store.state e) (slice_init p) (last_key p) with
        | Ret st' => mkRun (Ret tt) (set_state st' e) []
        | Throw x => mkRun (Throw x) (set_committing true e) []
        end
    | Throw x => mkRun (Throw x) (set_committing true e) []
    end.
Proof.
  rewrite withCommit_unfold. unfold bind, gets, lift, modify. simpl.
  destruct (getNestedState (Store.state e) (slice_init p)) as [parentState|x]; simpl;
    [|reflexivity].
  destruct (Vue_delete (Store.state e) (slice_init p) (last_key p)) as [st'|x]; simpl;
    [|reflexivity].
  by destruct e.
Qed.

(** X24.  [unregisterModule(path)], when it returns, has called
    [unregister] on the module tree, has read the state of the parent of the
    module and called [Vue.delete] on it with the last key of the path, and
    has rebuilt the registries from nothing out of the tree that is left:
    under each type they hold the list of the handlers of the modules of
    that tree in the order of the installation, each of them once.  The
    state is the state as [Vue.delete] left it; the subscribers and
    [_committing] are what they were.  For a module registered at run time
    the module is gone: [hasModule(path)] is false and none of its handlers
    is registered.  For a module declared at construction [unregister] does
    nothing, so the module stays, [hasModule(path)] stays true and its
    handlers are registered again; [Vue.delete] is called all the same. *)
Theorem unregisterModule_effects (path : PathArg) (s : Instance) :
  outcome (unregisterModule path s) = Ret tt →
  let p := as_path path in
  let s' := final (unregisterModule path s) in
  _modules s' = final (unregister __DEV__ p (_modules s))
  ∧ (∃ parentState,
       getNestedState (Store.state (engine s)) (slice_init p) = Ret parentState)
  ∧ Vue_delete (Store.state (engine s)) (slice_init p) (last_key p)
    = Ret (Store.state (engine s'))
  ∧ (∀ r', root (_modules s') = Some r' →
           (∀ type, default [] (_mutations (engine s') !! type) = installed_mutations r' type)
           ∧ (∀ type, default [] (_actions (engine s') !! type) = installed_actions r' type)
           ∧ (∀ type w, w ∈ installed_mutations r' type ↔ mutation_of r' [] r' type w)
           ∧ (∀ type w, w ∈ installed_actions r' type ↔ action_of r' [] r' type w))
  ∧ _subscribers (engine s') = _subscribers (engine s)
  ∧ _actionSubscribers (engine s') = _actionSubscribers (engine s)
  ∧ _committing (engine s') = _committing (engine s)
  ∧ (p ≠ [] → node_at p true (_modules s) → hasModule path s' = mkRun (Ret false) s' [])
  ∧ (p ≠ [] → node_at p false (_modules s) →
     _modules s' = _modules s ∧ hasModule path s' = mkRun (Ret true) s' []).
Proof.
  intros Hret p s'.
  set (mc' := final (unregister __DEV__ p (_modules s))).
  assert (∃ parentState st' s0,
            getNestedState (Store.state (engine s)) (slice_init p) = Ret parentState
            ∧ Vue_delete (Store.state (engine s)) (slice_init p) (last_key p) = Ret st'
            ∧ s0 = set_engine (set_state st' (engine s)) (set_modules mc' s)
            ∧ outcome (resetStore false s0) = Ret tt
            ∧ s' = final (resetStore false s0))
    as (parentState & st' & s0 & Hparent & Hdelete & Hs0 & Hreset & ->).
  { subst s'. revert Hret. unfold StoreModules.unregisterModule. cbv zeta. fold p.
    intros Hret.
    apply bind_ret_inv in Hret as ([] & _ & Hret & Hfinal & _).
    rewrite Hfinal. clear Hfinal.
    change (final (on_modules (unregister __DEV__ p) s)) with (set_modules mc' s) in *.
    apply bind_ret_inv in Hret as ([] & Hstate & Hret & Hfinal & _).
    rewrite Hfinal. clear Hfinal. revert Hstate Hret.
    unfold on_engine. cbn [outcome final trace engine set_modules].
    rewrite delete_state_run.
    destruct (getNestedState (Store.state (engine s)) (slice_init p))
      as [parentState|e] eqn:Hparent; [|discriminate].
    destruct (Vue_delete (Store.state (engine s)) (slice_init p) (last_key p))
      as [st'|e] eqn:Hdelete; [|discriminate].
    cbn [outcome final trace]. intros _ Hret.
    eexists parentState, st', _.
    split; [reflexivity|]. split; [reflexivity|].
    split; [reflexivity|]. split; [exact Hret | reflexivity]. }
  assert (_modules s0 = mc') as Hmc by (by subst s0).
  assert (beside_registries s0 = set_state st' (beside_registries s)) as Hbeside0
    by (by subst s0).
  clear Hs0.
  assert (∃ r', root mc' = Some r') as [r' Hroot].
  { revert Hreset. unfold StoreModules.resetStore, bind, modify, gets.
    cbn [outcome final trace]. change (root (_modules _)) with (root (_modules s0)).
    rewrite Hmc. destruct (root mc') as [r'|]; [by eexists|].
    unfold StoreModules.installModule_found, bind. rewrite on_modules_reads.
    cbn [outcome final trace]. by destruct (getNamespace _ _). }
  rewrite <- Hmc in Hroot.
  destruct (resetStore_registries s0 r' false Hroot Hreset)
    as (Hmod & Hmu & Hact & Hbeside & _).
  revert Hmod Hmu Hact Hbeside. generalize (final (resetStore false s0)).
  intros s1 Hmod Hmu Hact Hbeside.
  rewrite Hbeside0 in Hbeside. unfold set_mutations, set_actions, set_state in Hbeside.
  simpl in Hbeside. injection Hbeside as Hcommitting Hsubs Hasubs _ Hstate _.
  rewrite Hmc in Hmod. split; [exact Hmod|].
  split; [by exists parentState|].
  split; [by rewrite Hstate|].
  split.
  { intros r1 Hr1. rewrite Hmod, <- Hmc, Hroot in Hr1. injection Hr1 as <-.
    split; [exact Hmu|]. split; [exact Hact|].
    split; [intros type w; by apply in_install_order_mutations|].
    intros type w; by apply in_install_order_actions. }
  split; [exact Hasubs|]. split; [exact Hsubs|]. split; [exact Hcommitting|].
  split.
  - intros Hne Hnode. rewrite hasModule_run. f_equal. fold p. rewrite Hmod.
    exact (proj2 (proj2 (unregister_runtime __DEV__ p (_modules s) Hne Hnode))).
  - intros Hne Hnode.
    assert (mc' = _modules s) as Hsame
      by (subst mc'; by rewrite (unregister_not_runtime __DEV__ p (_modules s) Hne Hnode)).
    split; [by rewrite Hmod|]. rewrite hasModule_run. f_equal. fold p.
    rewrite Hmod, Hsame. by eapply isRegistered_node.
Qed.

End StoreAPIFacts.

(* ===================================================================== *)
(** * The state tree of a store with modules *)
(* ===================================================================== *)

Section StoreStateFacts.
Import Mod ModuleCollection NamespaceRule Store StoreModules.
Variable __DEV__ : bool.
Variable JSON_stringify : Value → string.
Variable init_state : FnRef → Value.
Variable Vue_set : Value → list string → string → Value → Outcome Value.
Variable Vue_delete : Value → list string → string → Outcome Value.
Variable in_operator : string → Value → Outcome bool.
Variable children_keys : list string → ModuleNode → list string.
Hypothesis children_keys_spec :
  ∀ p m k, k ∈ children_keys p m ↔ is_Some (getChild k m).
(** No object of the state is reached along two paths. *)
Hypothesis Vue_set_unshared : sets_along_path Vue_set.
Hypothesis Vue_delete_unshared : deletes_along_path Vue_delete.

#[local] Abbreviation installModule :=
  (StoreModules.installModule __DEV__ Vue_set in_operator children_keys).
#[local] Abbreviation installModule_found :=
  (StoreModules.installModule_found __DEV__ Vue_set in_operator children_keys).
#[local] Abbreviation resetStore :=
  (StoreModules.resetStore __DEV__ Vue_set in_operator children_keys).
#[local] Abbreviation new :=
  (StoreModules.new __DEV__ JSON_stringify init_state Vue_set in_operator children_keys).
#[local] Abbreviation registerModule :=
  (StoreModules.registerModule __DEV__ JSON_stringify init_state Vue_set in_operator
     children_keys).
#[local] Abbreviation unregisterModule :=
  (StoreModules.unregisterModule __DEV__ Vue_set Vue_delete in_operator children_keys).
#[local] Abbreviation register := (ModuleCollection.register __DEV__ JSON_stringify init_state).
#[local] Abbreviation state_of := (λ s : Instance, Store.state (engine s)).

(** The constructor that returns has installed the root module into the
    state of that module. *)
Lemma new_run (options : RawModule) :
  outcome (new options) = Ret tt →
  ∃ r s0,
    root (_modules s0) = Some r
    ∧ state_of s0 = Mod.state r
    ∧ outcome (installModule [] r false s0) = Ret tt
    ∧ final (new options) = final (resetStoreVM (final (installModule [] r false s0))).
Proof.
  unfold StoreModules.new. intros Hret.
  apply bind_ret_inv in Hret as ([] & _ & Hret & -> & _).
  set (s1 := final (on_modules (register [] options false) blank)) in *.
  apply bind_ret_inv in Hret as (found & Hfound & Hret & -> & _).
  unfold gets in Hfound, Hret |- *. cbn [final outcome] in Hfound, Hret |- *.
  assert (found = root (_modules s1)) as -> by congruence. clear Hfound.
  destruct (root (_modules s1)) as [r|] eqn:Hroot; [|discriminate].
  apply bind_ret_inv in Hret as ([] & _ & Hret & -> & _).
  apply bind_ret_inv in Hret as ([] & Hinstall & _ & -> & _).
  exists r, (final (on_engine (modify (set_state (Mod.state r))) s1)).
  split; [exact Hroot|]. split; [reflexivity|]. split; [exact Hinstall|]. reflexivity.
Qed.

(** X26.  The state of a constructed store mirrors its module tree.  When
    no object of the state is reached along two paths, so that [Vue.set]
    changes the state along the path of its target only, and the states of
    the modules are objects, the state read along the path of any module is
    an object with the own properties of the state of that module, except
    under the keys of its children, where the states of the children are. *)
Theorem new_installs_state (options : RawModule) (r : ModuleNode) :
  outcome (new options) = Ret tt →
  let s := final (new options) in
  root (_modules s) = Some r →
  (∀ q x, descend q r = Some x → ∃ own, Mod.state x = VObj own) →
  ∀ q x, descend q r = Some x →
         ∃ fs, getNestedState (Store.state (engine s)) q = Ret (VObj fs)
               ∧ ∀ k, getChild k x = None → prop (VObj fs) k = prop (Mod.state x) k.
Proof.
  intros Hret s. subst s.
  destruct (new_run options Hret) as (r0 & s0 & Hroot & Hstate & Hinstall & ->).
  rewrite resetStoreVM_final. cbn [final _modules engine set_getters set_makeLocalGettersCache].
  rewrite (installModule_keeps_modules __DEV__ Vue_set in_operator children_keys
             false r0 [] s0), Hroot.
  intros [= <-] Hobjects q x Hx.
  destruct (installModule_grafts __DEV__ Vue_set in_operator children_keys
              children_keys_spec Vue_set_unshared r0 Hobjects [] (state_of s0) I
              (λ _, Hstate) s0 eq_refl Hinstall) as (_ & Hinstalled & _).
  destruct (Hinstalled q x Hx) as (fs & Hget & Hfields).
  exists fs. split; [exact Hget|]. intros k Hk.
  destruct (Hobjects q x Hx) as (own & Hown). rewrite Hown in Hfields |- *.
  simpl. f_equal. by apply Hfields.
Qed.

Lemma registerModule_run (path : PathArg) (rawModule : RawModule) (preserveState : bool)
    (s : Instance) :
  outcome (registerModule path rawModule preserveState s) = Ret tt →
  ∃ module s0,
    get (as_path path) (_modules s0) = Ret (Some module)
    ∧ engine s0 = engine s
    ∧ outcome (installModule (as_path path) module preserveState s0) = Ret tt
    ∧ final (registerModule path rawModule preserveState s)
      = final (resetStoreVM
                 (final (installModule (as_path path) module preserveState s0))).
Proof.
  unfold StoreModules.registerModule. cbv zeta. intros Hret.
  apply bind_ret_inv in Hret as ([] & _ & Hret & -> & _).
  assert (final (when __DEV__
                   (Util.assert (bool_decide (0 < length (as_path path)))
                      "cannot register the root module by using registerModule.") s)
          = s) as Hsame.
  { destruct __DEV__; [|reflexivity]. simpl. unfold Util.assert.
    by destruct (bool_decide _). }
  rewrite Hsame in Hret |- *. clear Hsame.
  apply bind_ret_inv in Hret as ([] & _ & Hret & -> & _).
  set (s0 := final (on_modules (register (as_path path) rawModule true) s)) in *.
  apply bind_ret_inv in Hret as (found & Hget & Hret & -> & _).
  rewrite on_modules_reads in Hget, Hret |- *. cbn [outcome final] in Hget, Hret |- *.
  apply bind_ret_inv in Hret as ([] & Hinstall & _ & -> & _).
  destruct found as [module|].
  - exists module, s0. by repeat split.
  - exfalso. revert Hinstall. unfold StoreModules.installModule_found, bind.
    rewrite on_modules_reads. cbn [outcome final trace].
    by destruct (getNamespace (as_path path) (_modules s0)).
Qed.

(** X27.  The state after [registerModule(path, rawModule, options)].  With
    [options.preserveState] no [Vue.set] is called and the state is what it
    was.  Without it, when no object of the state is reached along two
    paths, so that [Vue.set] changes the state along the path of its target
    only, every key of the path is read from an object of the state and the
    states of the new modules are objects, the state read along the path of
    each new module is an object with the own properties of the state of
    that module, except under the keys of its children; and what is read
    along the paths that leave [path] is what it was, so the state of the
    other modules is untouched. *)
Theorem registerModule_state (path : PathArg) (rawModule : RawModule)
    (preserveState : bool) (s : Instance) :
  outcome (registerModule path rawModule preserveState s) = Ret tt →
  let p := as_path path in
  let s' := final (registerModule path rawModule preserveState s) in
  (preserveState = true → Store.state (engine s') = Store.state (engine s))
  ∧ (preserveState = false → p ≠ [] → object_walk (Store.state (engine s)) p →
     ∃ module,
       get p (_modules s') = Ret (Some module)
       ∧ ((∀ q x, descend q module = Some x → ∃ own, Mod.state x = VObj own) →
          (∀ q x, descend q module = Some x →
                  ∃ fs, getNestedState (Store.state (engine s')) (p ++ q) = Ret (VObj fs)
                        ∧ ∀ k, getChild k x = None
                               → prop (VObj fs) k = prop (Mod.state x) k)
          ∧ (∀ common k k' rest rest',
               p = common ++ k :: rest → k ≠ k' →
               getNestedState (Store.state (engine s')) (common ++ k' :: rest')
               = getNestedState (Store.state (engine s)) (common ++ k' :: rest')))).
Proof.
  intros Hret p s'. subst s'.
  destruct (registerModule_run path rawModule preserveState s Hret)
    as (module & s0 & Hget & Hengine & Hinstall & ->).
  fold p in Hget, Hinstall |- *.
  rewrite resetStoreVM_final. cbn [final _modules engine set_getters set_makeLocalGettersCache].
  split.
  - intros ->. rewrite <- Hengine.
    apply (installModule_frame __DEV__ Vue_set in_operator children_keys state_of true);
      try done.
    intros m q. apply graft_state_hot.
  - intros -> Hp Hwalk. exists module. split.
    { by rewrite (installModule_keeps_modules __DEV__ Vue_set in_operator children_keys
                    false module p s0). }
    intros Hobjects. rewrite <- Hengine in Hwalk |- *.
    destruct (installModule_grafts __DEV__ Vue_set in_operator children_keys
                children_keys_spec Vue_set_unshared module Hobjects p (state_of s0) Hwalk
                ltac:(done) s0 eq_refl Hinstall) as (_ & Hinstalled & Hbeside).
    split; [|exact Hbeside].
    intros q x Hx. destruct (Hinstalled q x Hx) as (fs & Hfs & Hfields).
    exists fs. split; [exact Hfs|]. intros k Hk.
    destruct (Hobjects q x Hx) as (own & Hown). rewrite Hown in Hfields |- *.
    simpl. f_equal. by apply Hfields.
Qed.

Lemma resetStore_keeps_state (hot : bool) :
  preserves (unchanged state_of) (resetStore hot).
Proof.
  unfold StoreModules.resetStore.
  apply preserves_unchanged_bind; [by intros s|]. intros _.
  apply preserves_unchanged_bind; [by apply preserves_unchanged_pure|]. intros [r|].
  - apply preserves_unchanged_bind; [|by intros _ s].
    apply (installModule_frame __DEV__ Vue_set in_operator children_keys state_of true);
      try done.
    intros m q. apply graft_state_hot.
  - apply preserves_unchanged_bind; [|by intros _ s].
    apply preserves_unchanged_bind; [|intros _; by apply preserves_unchanged_pure].
    intros s. by rewrite on_modules_reads.
Qed.

Lemma unregisterModule_run (path : PathArg) (s : Instance) :
  outcome (unregisterModule path s) = Ret tt →
  ∃ parentState st' s0,
    getNestedState (Store.state (engine s)) (slice_init (as_path path)) = Ret parentState
    ∧ Vue_delete (Store.state (engine s)) (slice_init (as_path path))
        (last_key (as_path path)) = Ret st'
    ∧ state_of s0 = st'
    ∧ outcome (resetStore false s0) = Ret tt
    ∧ final (unregisterModule path s) = final (resetStore false s0).
Proof.
  unfold StoreModules.unregisterModule. cbv zeta. intros Hret.
  apply bind_ret_inv in Hret as ([] & _ & Hret & -> & _).
  set (s1 := final (on_modules (unregister __DEV__ (as_path path)) s)) in *.
  apply bind_ret_inv in Hret as ([] & Hdelete & Hret & -> & _).
  revert Hdelete Hret. unfold on_engine at 1 2 3.
  rewrite (delete_state_run Vue_delete). change (engine s1) with (engine s).
  destruct (getNestedState (Store.state (engine s)) (slice_init (as_path path)))
    as [parentState|x] eqn:Hparent; [|discriminate].
  destruct (Vue_delete (Store.state (engine s)) (slice_init (as_path path))
              (last_key (as_path path))) as [st'|x] eqn:Hdelete; [|discriminate].
  cbn [outcome final trace]. intros _ Hret.
  eexists parentState, st', _. split; [reflexivity|]. split; [reflexivity|].
  split; [|split; [exact Hret|reflexivity]]. reflexivity.
Qed.

(** X28.  [unregisterModule(path)] takes the state of the module out of the
    state tree, whether or not the module tree lets go of the module.  When
    no object of the state is reached along two paths, so that [Vue.delete]
    changes the state along the path of its target only, every key of the
    path is read from an object of the state, and the last key of the path
    is not one under which an object holds more than its own properties,
    then after the call the state read along [path] is [undefined], and
    what is read along the paths that leave [path] is what it was. *)
Theorem unregisterModule_deletes_state (path : PathArg) (s : Instance) :
  outcome (unregisterModule path s) = Ret tt →
  let p := as_path path in
  let s' := final (unregisterModule path s) in
  p ≠ [] →
  object_walk (Store.state (engine s)) p →
  last_key p ∉ hidden_keys →
  getNestedState (Store.state (engine s')) p = Ret VUndef
  ∧ (∀ common k k' rest rest',
       p = common ++ k :: rest → k ≠ k' →
       getNestedState (Store.state (engine s')) (common ++ k' :: rest')
       = getNestedState (Store.state (engine s)) (common ++ k' :: rest')).
Proof.
  intros Hret p s' Hp Hwalk _. subst s'.
  destruct (unregisterModule_run path s Hret)
    as (parentState & st' & s0 & Hparent & Hdelete & Hs0 & Hreset & ->).
  fold p in Hparent, Hdelete.
  rewrite (resetStore_keeps_state false s0), Hs0. clear Hs0 Hreset s0.
  clearbody p. destruct p as [|name parent _] using rev_ind; [done|].
  rewrite slice_init_snoc in Hparent, Hdelete. rewrite last_key_snoc in Hdelete.
  apply object_walk_snoc in Hwalk as (Hwalk & fs & Hfs).
  rewrite (Vue_delete_unshared _ _ _ fs Hwalk Hfs) in Hdelete. injection Hdelete as <-.
  split.
  - rewrite getNestedState_app, (get_put_nested _ _ _ Hwalk), getNestedState_cons.
    simpl. by rewrite field_remove_field, decide_True.
  - apply (put_parent_beside _ _ _ fs); [exact Hwalk|exact Hfs|].
    intros k Hk. rewrite field_remove_field. by rewrite decide_False.
Qed.

End StoreStateFacts.

(* ===================================================================== *)
(** * The getters of a local context *)
(* ===================================================================== *)

Section LocalGettersFacts.
Import Store StoreModules.

Lemma substring_whole (k : string) : String.substring 0 (String.length k) k = k.
Proof. induction k as [|ch k IH]; simpl; [reflexivity | by rewrite IH]. Qed.

Lemma slice_to_append (ns k : string) : slice_to (String.length ns) (ns +:+ k) = ns.
Proof.
  unfold slice_to. induction ns as [|ch ns IH]; [by destruct k|].
  rewrite append_cons. simpl. by rewrite IH.
Qed.

Lemma length_append (ns k : string) :
  String.length (ns +:+ k) = String.length ns + String.length k.
Proof.
  induction ns as [|ch ns IH]; [reflexivity|]. rewrite append_cons. simpl. by rewrite IH.
Qed.

Lemma slice_from_append (ns k : string) : slice_from (String.length ns) (ns +:+ k) = k.
Proof.
  unfold slice_from. rewrite length_append.
  replace (String.length ns + String.length k - String.length ns) with (String.length k)
    by lia.
  induction ns as [|ch ns IH]; [apply substring_whole|].
  rewrite append_cons. exact IH.
Qed.

Lemma slice_to_rejoin (ns type : string) :
  slice_to (String.length ns) type = ns →
  ns +:+ slice_from (String.length ns) type = type.
Proof.
  unfold slice_to, slice_from. revert type.
  induction ns as [|ch ns IH]; intros type.
  - intros _. simpl. rewrite Nat.sub_0_r. apply substring_whole.
  - destruct type as [|c type]; [discriminate|]. simpl. intros [= -> Hrest].
    rewrite append_cons. f_equal. by apply IH.
Qed.

Lemma append_inj_r (ns k k' : string) : ns +:+ k = ns +:+ k' → k = k'.
Proof.
  induction ns as [|ch ns IH]; [done|]. rewrite !append_cons. intros [= H]. by apply IH.
Qed.

(** The proxy object that [makeLocalGetters] builds from the keys of
    [store.getters]. *)
Lemma proxy_lookup (ns : string) (keys : list string) (k t : string) :
  foldr (λ type proxy,
           if String.eqb (slice_to (String.length ns) type) ns
           then <[slice_from (String.length ns) type := type]> proxy
           else proxy) (∅ : gmap string string) keys !! k = Some t
  ↔ t ∈ keys ∧ t = ns +:+ k.
Proof.
  induction keys as [|type keys IH]; simpl.
  - rewrite lookup_empty. split; [done | by intros [?%elem_of_nil _]].
  - destruct (String.eqb (slice_to (String.length ns) type) ns) eqn:Hprefix.
    + apply String.eqb_eq, slice_to_rejoin in Hprefix.
      destruct (decide (slice_from (String.length ns) type = k)) as [Hk|Hk].
      * rewrite Hk, lookup_insert_eq. rewrite Hk in Hprefix. split.
        -- intros [= <-]. split; [by left | done].
        -- intros [_ ->]. by rewrite Hprefix.
      * rewrite lookup_insert_ne by exact Hk. rewrite IH. split.
        -- intros [Hin ->]. split; [by right | done].
        -- intros [[->|Hin]%elem_of_cons ->]; [|done].
           rewrite <- Hprefix in Hk at 1. destruct Hk.
           rewrite Hprefix. by rewrite slice_from_append.
    + rewrite IH. split.
      * intros [Hin ->]. split; [by right | done].
      * intros [[->|Hin]%elem_of_cons ->]; [|done].
        rewrite slice_to_append, String.eqb_refl in Hprefix. discriminate.
Qed.

(** X29.  [local.getters] of a module shows exactly the getters of its
    namespace, under their local names: the object has the property
    [localType] bound to the getter [type] of the store precisely when
    [type] is a property of [store.getters] and is the namespace followed
    by [localType].  For a module with a namespace the object is made on the
    first read and kept: until the cache is emptied, later reads return the
    same object whatever [store.getters] has become. *)
Theorem local_getters_by_namespace (local : Local) (s : Instance) :
  (namespace local ≠ EmptyString → _makeLocalGettersCache s !! namespace local = None) →
  ∃ proxy,
    outcome (local_getters local s) = Ret proxy
    ∧ (∀ localType type,
         proxy !! localType = Some type
         ↔ type ∈ getters s ∧ type = namespace local +:+ localType)
    ∧ getters (final (local_getters local s)) = getters s
    ∧ (namespace local ≠ EmptyString →
       ∀ g, outcome (local_getters local (set_getters g (final (local_getters local s))))
            = Ret proxy).
Proof.
  intros Hcache. unfold local_getters.
  destruct (String.eqb (namespace local) EmptyString) eqn:Hns.
  - apply String.eqb_eq in Hns. rewrite Hns.
    exists (set_to_map (λ type, (type, type)) (getters s)).
    split; [reflexivity|]. split; [|split; [reflexivity | done]].
    intros localType type. rewrite lookup_set_to_map by (by intros ???? [=]).
    split.
    + intros (y & Hin & [= <- <-]). by split.
    + intros [Hin ->]. by exists localType.
  - apply String.eqb_neq in Hns. specialize (Hcache Hns).
    unfold makeLocalGetters, bind, gets, modify, ret. cbn [outcome final trace].
    rewrite Hcache. cbn [outcome final trace].
    eexists. split; [reflexivity|]. split; [|split; [reflexivity|]].
    + intros localType type. rewrite proxy_lookup. by rewrite elem_of_elements.
    + intros _ g. cbn [_makeLocalGettersCache set_getters set_makeLocalGettersCache].
      by rewrite lookup_insert_eq.
Qed.

End LocalGettersFacts.

(* ===================================================================== *)
(** * The theorems on a store with modules *)
(* ===================================================================== *)

Section ConcreteInstall.
Import Mod ModuleCollection Store StoreModules Demo Demo2.

Lemma children_keys_lists_children (p : list string) (m : ModuleNode) (k : string) :
  k ∈ children_keys p m ↔ is_Some (getChild k m).
Proof.
  unfold children_keys. cbv zeta.
  set (declared := filter (λ key, is_Some (getChild key m)) _).
  rewrite elem_of_app, !list_elem_of_filter, list_elem_of_fmap. split.
  - intros [Hk|[_ ([k' c] & -> & Hin%elem_of_map_to_list)]].
    + subst declared. by apply list_elem_of_filter in Hk as [Hk _].
    + by exists c.
  - intros (c & Hc). destruct (decide (k ∈ declared)) as [Hin|Hout]; [by left|].
    right. split; [exact Hout|]. exists (k, c). split; [reflexivity|].
    by apply elem_of_map_to_list.
Qed.

Lemma host_sets_and_deletes : sets_along_path Vue_set ∧ deletes_along_path Vue_delete.
Proof.
  split.
  - intros st parent key v fs _ Hget. unfold Vue_set. by rewrite Hget.
  - intros st parent key fs _ Hget. unfold Vue_delete. by rewrite Hget.
Qed.

Lemma shop_evaluated :
  outcome shop = Ret tt ∧ root (_modules (final shop)) = Some shop_root
  ∧ descend ["user"] shop_root = Some shop_user.
Proof. repeat split; vm_compute; reflexivity. Qed.
#[local] Abbreviation installModule :=
  (StoreModules.installModule true Vue_set in_operator children_keys).
#[local] Abbreviation hotUpdate :=
  (StoreModules.hotUpdate true JSON_stringify Vue_set in_operator children_keys).
#[local] Abbreviation unregisterModule :=
  (StoreModules.unregisterModule true Vue_set Vue_delete in_operator children_keys).
#[local] Abbreviation installed_in_order := (in_install_order children_keys).

(** X20 on the store [Demo2.shop]: the module at [user] installed once
    more, as a hot update does. *)
Lemma installModule_registers_handlers_witness :
  let s := final shop in
  let s' := final (installModule ["user"] shop_user true s) in
  _modules s' = _modules s
  ∧ (∀ type,
       default [] (_mutations (engine s') !! type)
       = default [] (_mutations (engine s) !! type)
         ++ installed_in_order (own_mutations type) shop_root ["user"] shop_user)
  ∧ (∀ type,
       default [] (_actions (engine s') !! type)
       = default [] (_actions (engine s) !! type)
         ++ installed_in_order (own_actions type) shop_root ["user"] shop_user)
  ∧ (∀ type w, w ∈ installed_in_order (own_mutations type) shop_root ["user"] shop_user
               ↔ mutation_of shop_root ["user"] shop_user type w)
  ∧ (∀ type w, w ∈ installed_in_order (own_actions type) shop_root ["user"] shop_user
               ↔ action_of shop_root ["user"] shop_user type w).
Proof.
  exact (installModule_registers_handlers true Vue_set in_operator children_keys
           children_keys_lists_children ["user"] shop_user true (final shop) shop_root
           ltac:(vm_compute; reflexivity) ltac:(vm_compute; reflexivity)
           ltac:(vm_compute; reflexivity)).
Defined.

(** X21 on the declaration [Demo2.market_decl]: the four handlers of
    [increment] are registered in the order root, [b], [a], [a/c]. *)
Lemma new_registers_declared_handlers_witness :
  let s := final market in
  (_modules s = final (ModuleCollection.new true JSON_stringify init_state market_decl)
   ∧ ∃ r, root (_modules s) = Some r
          ∧ (∀ type, default [] (_mutations (engine s) !! type)
                     = installed_in_order (own_mutations type) r [] r)
          ∧ (∀ type, default [] (_actions (engine s) !! type)
                     = installed_in_order (own_actions type) r [] r)
          ∧ (∀ type w, w ∈ installed_in_order (own_mutations type) r [] r
                       ↔ mutation_of r [] r type w)
          ∧ (∀ type w, w ∈ installed_in_order (own_actions type) r [] r
                       ↔ action_of r [] r type w)
          ∧ getters s = dom (_wrappedGetters s))
  ∧ installed_in_order (own_mutations "increment") market_root [] market_root
    = [mkWrappedMutation (VFun 1) (mkLocal EmptyString []);
       mkWrappedMutation (VFun 2) (mkLocal EmptyString ["b"]);
       mkWrappedMutation (VFun 3) (mkLocal EmptyString ["a"]);
       mkWrappedMutation (VFun 4) (mkLocal EmptyString ["a"; "c"])].
Proof.
  split; [|vm_compute; reflexivity].
  exact (new_registers_declared_handlers true JSON_stringify init_state Vue_set in_operator
           children_keys children_keys_lists_children market_decl
           ltac:(vm_compute; reflexivity)).
Defined.

(** X22 on the store [Demo2.shop], with a declaration that replaces the
    mutation of the root. *)
Lemma hotUpdate_rebuilds_registries_witness :
  let s := final shop in
  let s' := final (hotUpdate shop_reload_decl s) in
  let r' := final (ModuleCollection.update true JSON_stringify [] shop_reload_decl
                     shop_root) in
  root (_modules s') = Some r'
  ∧ (∀ type, default [] (_mutations (engine s') !! type)
             = installed_in_order (own_mutations type) r' [] r')
  ∧ (∀ type, default [] (_actions (engine s') !! type)
             = installed_in_order (own_actions type) r' [] r')
  ∧ (∀ type w, w ∈ installed_in_order (own_mutations type) r' [] r'
               ↔ mutation_of r' [] r' type w)
  ∧ (∀ type w, w ∈ installed_in_order (own_actions type) r' [] r'
               ↔ action_of r' [] r' type w)
  ∧ Store.state (engine s') = Store.state (engine s)
  ∧ _subscribers (engine s') = _subscribers (engine s)
  ∧ _actionSubscribers (engine s') = _actionSubscribers (engine s)
  ∧ _committing (engine s') = _committing (engine s).
Proof.
  exact (hotUpdate_rebuilds_registries true JSON_stringify Vue_set in_operator children_keys
           children_keys_lists_children shop_reload_decl (final shop) shop_root
           ltac:(vm_compute; reflexivity) ltac:(vm_compute; reflexivity)).
Defined.

(** X23 on that store and the declaration [Demo2.cart_decl]. *)
Lemma registerModule_installs_witness :
  let s := final shop in
  let s' := final shop_with_cart in
  _modules s' = final (register true JSON_stringify init_state ["cart"] cart_decl true
                         (_modules s))
  ∧ ∃ r' module,
      root (_modules s') = Some r'
      ∧ descend ["cart"] r' = Some module
      ∧ (["cart"] ≠ [] → hasModule (PathString "cart") s' = mkRun (Ret true) s' [])
      ∧ (∀ type,
           default [] (_mutations (engine s') !! type)
           = default [] (_mutations (engine s) !! type)
             ++ installed_in_order (own_mutations type) r' ["cart"] module)
      ∧ (∀ type,
           default [] (_actions (engine s') !! type)
           = default [] (_actions (engine s) !! type)
             ++ installed_in_order (own_actions type) r' ["cart"] module)
      ∧ (∀ type w, w ∈ installed_in_order (own_mutations type) r' ["cart"] module
                   ↔ mutation_of r' ["cart"] module type w)
      ∧ (∀ type w, w ∈ installed_in_order (own_actions type) r' ["cart"] module
                   ↔ action_of r' ["cart"] module type w).
Proof.
  exact (registerModule_installs true JSON_stringify init_state Vue_set in_operator
           children_keys children_keys_lists_children (PathString "cart") cart_decl false
           (final shop) ltac:(vm_compute; reflexivity)).
Defined.

(** X24 on the store with the module [cart], which was registered at run
    time: after [unregisterModule('cart')] the module is gone, and the
    state is what [Vue.delete] left of it. *)
Lemma unregisterModule_effects_witness :
  let s := final shop_with_cart in
  let s' := final (unregisterModule (PathString "cart") s) in
  hasModule (PathString "cart") s' = mkRun (Ret false) s' []
  ∧ Vue_delete (Store.state (engine s)) [] "cart" = Ret (Store.state (engine s'))
  ∧ _subscribers (engine s') = _subscribers (engine s).
Proof.
  destruct (unregisterModule_effects true Vue_set Vue_delete in_operator children_keys
              children_keys_lists_children (PathString "cart") (final shop_with_cart)
              ltac:(vm_compute; reflexivity))
    as (_ & _ & Hdelete & _ & Hsubs & _ & _ & Hgone & _).
  split; [|split; [exact Hdelete|exact Hsubs]]. apply Hgone; [discriminate|].
  exists (default shop_root (root (_modules (final shop_with_cart)))), shop_cart.
  split; [vm_compute; reflexivity|]. split; vm_compute; reflexivity.
Defined.

(** X25 on the store [Demo2.shop]: the module at [user] installed again
    with [hot] false puts its state at [user] and leaves [count] alone. *)
Lemma installModule_grafts_state_witness :
  let s := final shop in
  let st' := Store.state (engine (final (installModule ["user"] shop_user false s))) in
  (∃ fs, getNestedState st' ["user"] = Ret (VObj fs)
         ∧ prop (VObj fs) "count" = Some (VNum 0))
  ∧ getNestedState st' ["count"] = Ret (VNum 0).
Proof.
  assert (∀ q x, descend q shop_user = Some x → ∃ own, Mod.state x = VObj own) as Hobjects.
  { assert (Mod.state shop_user = VObj [("count", VNum 0)]) as Hstate
      by (vm_compute; reflexivity).
    assert (_children shop_user = ∅) as Hchildren by (vm_compute; reflexivity).
    revert Hstate Hchildren. generalize shop_user. intros m Hstate Hchildren [|k q] x.
    - intros [= <-]. by eexists.
    - change (descend (k :: q) m) with (getChild k m ≫= descend q).
      unfold getChild. by rewrite Hchildren, lookup_empty. }
  destruct (installModule_grafts_state true Vue_set in_operator children_keys
              children_keys_lists_children (proj1 host_sets_and_deletes)
              ["user"] shop_user (final shop)
              Hobjects ltac:(vm_compute; exact I) ltac:(discriminate)
              ltac:(vm_compute; reflexivity))
    as (_ & Hinstalled & Hbeside).
  split.
  - destruct (Hinstalled [] shop_user eq_refl) as (fs & Hget & Hfields).
    exists fs. split; [exact Hget|].
    exact (eq_trans (Hfields "count" ltac:(vm_compute; reflexivity))
             ltac:(vm_compute; reflexivity)).
  - exact (eq_trans (Hbeside [] "user" "count" [] [] eq_refl ltac:(discriminate))
             ltac:(vm_compute; reflexivity)).
Defined.

#[local] Abbreviation new :=
  (StoreModules.new true JSON_stringify init_state Vue_set in_operator children_keys).
#[local] Abbreviation registerModule :=
  (StoreModules.registerModule true JSON_stringify init_state Vue_set in_operator
     children_keys).

(** The states of the modules of a tree without children, and of the tree
    of [Demo2.shop]. *)
Lemma leaf_states_are_objects (m : ModuleNode) (own : list (string * Value)) :
  Mod.state m = VObj own → map_to_list (_children m) = [] →
  ∀ q x, descend q m = Some x → ∃ own, Mod.state x = VObj own.
Proof.
  intros Hown Hchildren. apply states_are_objects_by_children; [by exists own|].
  rewrite Hchildren. constructor.
Qed.

Lemma shop_states_are_objects :
  ∀ q x, descend q shop_root = Some x → ∃ own, Mod.state x = VObj own.
Proof.
  apply states_are_objects_by_children; [eexists; vm_compute; reflexivity|].
  replace (map_to_list (_children shop_root))
    with [("user", shop_user); ("b", default shop_root (getChild "b" shop_root))]
    by (vm_compute; reflexivity).
  repeat apply List.Forall_cons; [..|apply List.Forall_nil]; cbn [snd].
  - apply (leaf_states_are_objects _ [("count", VNum 0)]); vm_compute; reflexivity.
  - apply (leaf_states_are_objects _ []); vm_compute; reflexivity.
Qed.

(** X26 on [Demo2.shop]: [state.user] is the state of the module at
    [user]. *)
Lemma new_installs_state_witness :
  ∃ fs, getNestedState (Store.state (engine (final shop))) ["user"] = Ret (VObj fs)
        ∧ prop (VObj fs) "count" = Some (VNum 0).
Proof.
  destruct (new_installs_state true JSON_stringify init_state Vue_set in_operator
              children_keys children_keys_lists_children (proj1 host_sets_and_deletes)
              shop_decl shop_root ltac:(vm_compute; reflexivity)
              ltac:(vm_compute; reflexivity) shop_states_are_objects ["user"] shop_user
              ltac:(vm_compute; reflexivity)) as (fs & Hget & Hfields).
  exists fs. split; [exact Hget|].
  exact (eq_trans (Hfields "count" ltac:(vm_compute; reflexivity))
           ltac:(vm_compute; reflexivity)).
Defined.

(** X27 on [Demo2.shop] and the declaration [Demo2.cart_decl]: the state
    of the new module is at [cart], and [state.user] is what it was. *)
Lemma registerModule_state_witness :
  let s := final shop in
  let s' := final (registerModule (PathString "cart") cart_decl false s) in
  (∃ fs, getNestedState (Store.state (engine s')) ["cart"] = Ret (VObj fs)
         ∧ prop (VObj fs) "items" = Some (VNum 0))
  ∧ getNestedState (Store.state (engine s')) ["user"]
    = getNestedState (Store.state (engine s)) ["user"].
Proof.
  destruct (registerModule_state true JSON_stringify init_state Vue_set in_operator
              children_keys children_keys_lists_children (proj1 host_sets_and_deletes)
              (PathString "cart") cart_decl false (final shop)
              ltac:(vm_compute; reflexivity)) as [_ Hgraft].
  destruct (Hgraft eq_refl ltac:(discriminate) ltac:(vm_compute; exact I))
    as (module & Hmodule & Hstate).
  assert (get (as_path (PathString "cart"))
            (_modules (final (registerModule (PathString "cart") cart_decl false
                                (final shop))))
          = Ret (Some shop_cart)) as Hget by (vm_compute; reflexivity).
  pose proof (f_equal (λ found, match found with Ret (Some m) => m | _ => module end)
                (eq_trans (eq_sym Hmodule) Hget)) as Hcart.
  cbv beta iota in Hcart.
  destruct Hstate as [Hinstalled Hbeside].
  { rewrite Hcart.
    apply (leaf_states_are_objects _ [("items", VNum 0)]); vm_compute; reflexivity. }
  split.
  - destruct (Hinstalled [] module eq_refl) as (fs & Hfs & Hfields).
    exists fs. split; [exact Hfs|]. rewrite Hcart in Hfields.
    exact (eq_trans (Hfields "items" ltac:(vm_compute; reflexivity))
             ltac:(vm_compute; reflexivity)).
  - exact (Hbeside [] "cart" "user" [] [] eq_refl ltac:(discriminate)).
Defined.

(** X28 on the store with the module [cart]: after
    [unregisterModule('cart')] there is no [state.cart], and [state.user] is
    what it was. *)
Lemma unregisterModule_deletes_state_witness :
  let s := final shop_with_cart in
  let s' := final (unregisterModule (PathString "cart") s) in
  getNestedState (Store.state (engine s')) ["cart"] = Ret VUndef
  ∧ getNestedState (Store.state (engine s')) ["user"]
    = getNestedState (Store.state (engine s)) ["user"].
Proof.
  destruct (unregisterModule_deletes_state true Vue_set Vue_delete in_operator
              children_keys (proj2 host_sets_and_deletes)
              (PathString "cart") (final shop_with_cart)
              ltac:(vm_compute; reflexivity) ltac:(discriminate)
              ltac:(vm_compute; exact I)
              ltac:(apply (bool_decide_unpack _); vm_compute; exact I))
    as [Hgone Hbeside].
  split; [exact Hgone|].
  exact (Hbeside [] "cart" "user" [] [] eq_refl ltac:(discriminate)).
Defined.

(** X29 on the store [Demo2.catalog]: the local getters of the module at
    [user] are [name] and [age], and [total] is not among them. *)
Lemma local_getters_by_namespace_witness :
  ∃ proxy,
    outcome (local_getters user_local (final catalog)) = Ret proxy
    ∧ proxy !! "name" = Some "user/name"
    ∧ proxy !! "total" = None.
Proof.
  destruct (local_getters_by_namespace user_local (final catalog)
              ltac:(intros _; vm_compute; reflexivity))
    as (proxy & Hret & Hproxy & _).
  exists proxy. split; [exact Hret|]. split.
  - apply Hproxy. split; [|reflexivity].
    apply (bool_decide_unpack _). vm_compute. exact I.
  - destruct (proxy !! "total") as [type|] eqn:Htotal; [|reflexivity].
    apply Hproxy in Htotal as [Hin ->]. exfalso. revert Hin.
    apply (bool_decide_eq_false_1 _). vm_compute. reflexivity.
Defined.

End ConcreteInstall.
